(** * MacroNoMore: the symbol aliasing and rewrite engine

    A shallow embedding of [src/MacroNoMore.cpp].  The program walks the
    Clang AST of one translation unit, files every variable, function,
    reference and literal under a string key, draws a random eight
    character alias per key, replaces the text at every recorded location
    by the alias through Clang's [Rewriter], and writes one [#define] line
    per key in front of the rewritten text.

    Strings ([std::string], [StringRef]) are [string]; the text of a file
    is a [list ascii]; [std::unordered_map] is [gmap]; the calls into
    LLVM and Clang ([APInt::toString], [SourceManager::isInMainFile],
    [RewriteBuffer::ReplaceText], [Rewriter::ReplaceText]) are modelled by
    what these library functions compute. *)

From Stdlib Require Import ZArith Ascii String Lia Permutation.
From stdpp Require Import base option list gmap strings.

Open Scope string_scope.
Open Scope Z_scope.

(** ** generateRandomAlias *)

Module Alias.

(** [rand()] is a deterministic generator with hidden global state: the
    state is the sequence of numbers it will return and the position
    reached in it. *)
Record RandState := mkRand { rand_seq : nat -> Z; rand_pos : nat }.

Arguments mkRand rand_seq rand_pos%_nat.

Definition rand (r : RandState) : Z * RandState :=
  (rand_seq r (rand_pos r), mkRand (rand_seq r) (S (rand_pos r))).

Definition letters : string :=
  "ABCDEFGHIJKLMNOPQRSTUVWXYZabcdefghijklmnopqrstuvwxyz".
Definition alphanum : string :=
  "0123456789ABCDEFGHIJKLMNOPQRSTUVWXYZabcdefghijklmnopqrstuvwxyz".

(** [sizeof] of a [char] array initialised by a literal counts the
    terminating NUL. *)
Definition sizeof (s : string) : Z := Z.of_nat (String.length s) + 1.

(** The [int] returned by [rand()] is converted to [size_t] before [%]. *)
Definition to_size_t (x : Z) : Z := x mod 2 ^ 64.

(** [table[i]]; past the literal the array holds its NUL. *)
Definition char_at (table : string) (i : Z) : ascii :=
  match String.get (Z.to_nat i) table with
  | Some c => c
  | None => "000"%char
  end.

(** [alias += c] *)
Definition push_char (alias : string) (c : ascii) : string :=
  alias +:+ String c "".

(** The [for (int i = 1; i < len; ++i)] loop, [n] iterations left. *)
Fixpoint alias_loop (n : nat) (alias : string) (r : RandState)
  : string * RandState :=
  match n with
  | O => (alias, r)
  | S n' =>
      let '(x, r') := rand r in
      alias_loop n'
        (push_char alias (char_at alphanum (to_size_t x mod (sizeof alphanum - 1))))
        r'
  end.

Definition generateRandomAlias (r : RandState) : string * RandState :=
  let len := 8%nat in
  let alias := "" in
  let '(x, r1) := rand r in
  let alias := push_char alias (char_at letters (to_size_t x mod (sizeof letters - 1))) in
  alias_loop (len - 1) alias r1.

(** The character classes the alias is drawn from, by character code. *)
Definition is_upper (c : ascii) : bool :=
  (65 <=? nat_of_ascii c)%nat && (nat_of_ascii c <=? 90)%nat.
Definition is_lower (c : ascii) : bool :=
  (97 <=? nat_of_ascii c)%nat && (nat_of_ascii c <=? 122)%nat.
Definition is_digit (c : ascii) : bool :=
  (48 <=? nat_of_ascii c)%nat && (nat_of_ascii c <=? 57)%nat.
Definition is_letter (c : ascii) : bool := is_upper c || is_lower c.
Definition is_alnum (c : ascii) : bool := is_digit c || is_letter c.

(** [[A-Za-z][A-Za-z0-9]{7}] *)
Definition alias_shape (a : string) : Prop :=
  match a with
  | String c rest =>
      is_letter c = true /\ String.length rest = 7%nat /\
      Forall (fun d => is_alnum d = true) (list_ascii_of_string rest)
  | EmptyString => False
  end.

End Alias.

(** ** The LLVM and Clang facilities the program calls *)

Module LLVM.

(** [llvm::APInt]: a bit pattern of [BitWidth] bits, held as the number
    [0 <= VAL < 2 ^ BitWidth]: the class keeps the bits above the width
    clear.  A pattern of at most 64 bits is held in one word. *)
Record APInt := mkAPInt { BitWidth : nat; VAL : Z }.

Arguments mkAPInt BitWidth%_nat VAL%_Z.

Definition isSingleWord (a : APInt) : bool :=
  bool_decide (BitWidth a <= 64)%nat.

Definition isZero (a : APInt) : bool := VAL a =? 0.

Definition getBoolValue (a : APInt) : bool := negb (isZero a).

Definition isNegative (a : APInt) : bool :=
  Z.testbit (VAL a) (Z.of_nat (BitWidth a) - 1).

Definition getZExtValue (a : APInt) : Z := VAL a.

Definition getSExtValue (a : APInt) : Z :=
  if isNegative a then VAL a - 2 ^ Z.of_nat (BitWidth a) else VAL a.

Definition Digits : string := "0123456789ABCDEFGHIJKLMNOPQRSTUVWXYZ".

Definition digit_char (d : Z) : ascii :=
  match String.get (Z.to_nat d) Digits with
  | Some c => c
  | None => "000"%char
  end.

(** [while (N) { *--BufPtr = Digits[N % Radix]; N /= Radix; }] on a
    64-bit [N]: at most 64 rounds for any radix of at least 2. *)
Fixpoint digit_loop (fuel : nat) (N Radix : Z) (buf : string) : string :=
  match fuel with
  | O => buf
  | S fuel' =>
      if N =? 0 then buf
      else digit_loop fuel' (N / Radix) Radix (String (digit_char (N mod Radix)) buf)
  end.

(** [negate]: all bits flipped, then incremented, which is the two's
    complement in [BitWidth] bits. *)
Definition negate (a : APInt) : APInt :=
  mkAPInt (BitWidth a) ((- VAL a) mod 2 ^ Z.of_nat (BitWidth a)).

(** [APInt::udivrem(LHS, RHS, Quotient, Remainder)] with a 64-bit [RHS]. *)
Definition udivrem (LHS : APInt) (RHS : Z) : APInt * Z :=
  (mkAPInt (BitWidth LHS) (VAL LHS / RHS), VAL LHS mod RHS).

(** [while (Tmp.getBoolValue()) { udivrem(Tmp, Radix, Tmp, Digit);
    Str.push_back(Digits[Digit]); }]: a pattern of [BitWidth] bits has
    at most [BitWidth] digits in any radix of at least 2. *)
Fixpoint udiv_loop (fuel : nat) (Tmp : APInt) (Radix : Z) (Str : list ascii)
  : list ascii :=
  match fuel with
  | O => Str
  | S fuel' =>
      if getBoolValue Tmp then
        let '(Quotient, Digit) := udivrem Tmp Radix in
        udiv_loop fuel' Quotient Radix (Str ++ [digit_char Digit])
      else Str
  end.

(** [APInt::toString(Str, Radix, Signed, formatAsCLiteral = false)]:
    zero is short-circuited; a single word goes through a [uint64_t]
    and a buffer filled from its end; a wider pattern is negated when
    it is printed signed and its top bit is set, divided down digit by
    digit, and the digits are reversed.  (For radix 2, 8 and 16 the
    wide path shifts instead of dividing, which gives the same
    digits.) *)
Definition toString (a : APInt) (Radix : Z) (Signed : bool) : string :=
  if isZero a then "0"
  else if isSingleWord a then
    let '(sign, N) :=
      if Signed then
        let I := getSExtValue a in
        if 0 <=? I then ("", I) else ("-", (- I) mod 2 ^ 64)
      else ("", getZExtValue a) in
    sign +:+ digit_loop 64 N Radix ""
  else
    let Negative := Signed && isNegative a in
    let Tmp := if Negative then negate a else a in
    let Str := if Negative then "-" else "" in
    Str +:+ string_of_list_ascii (reverse (udiv_loop (BitWidth a) Tmp Radix [])).

End LLVM.

Module Clang.

Definition FileID := nat.
Bind Scope nat_scope with FileID.

(** A [SourceLocation] is either a position in a file or a position in a
    macro expansion, of which only the expansion point is kept. *)
Inductive SourceLocation :=
| FileLoc (fid : FileID) (offset : nat)
| MacroLoc (fid : FileID) (offset : nat).

Arguments FileLoc fid%_nat offset%_nat.
Arguments MacroLoc fid%_nat offset%_nat.

#[global] Instance SourceLocation_eq_dec : EqDecision SourceLocation.
Proof. solve_decision. Defined.

Record SourceManager := mkSM {
  MainFileID : FileID;
  FileContents : gmap FileID (list ascii)
}.

Definition getDecomposedExpansionLoc (loc : SourceLocation) : FileID * nat :=
  match loc with
  | FileLoc f o => (f, o)
  | MacroLoc f o => (f, o)
  end.

Definition isInMainFile (SM : SourceManager) (loc : SourceLocation) : bool :=
  bool_decide ((getDecomposedExpansionLoc loc).1 = MainFileID SM).

Definition getBufferData (SM : SourceManager) (f : FileID) : list ascii :=
  default [] (FileContents SM !! f).

(** [RewriteBuffer]: the current text and the [DeltaTree], kept as the
    list of recorded [(FileIndex, Delta)] pairs. *)
Record RewriteBuffer := mkRB {
  Buffer : list ascii;
  Deltas : list (Z * Z)
}.

(** [DeltaTree::getDeltaAt]: the sum of the deltas recorded strictly
    before [FileIndex]. *)
Fixpoint getDeltaAt (D : list (Z * Z)) (FileIndex : Z) : Z :=
  match D with
  | [] => 0
  | (i, d) :: D' => (if i <? FileIndex then d else 0) + getDeltaAt D' FileIndex
  end.

Definition AddDelta (D : list (Z * Z)) (FileIndex Delta : Z) : list (Z * Z) :=
  (FileIndex, Delta) :: D.

Definition getMappedOffset (rb : RewriteBuffer) (OrigOffset : Z)
    (AfterInserts : bool) : Z :=
  getDeltaAt (Deltas rb) (2 * OrigOffset + (if AfterInserts then 1 else 0))
  + OrigOffset.

Definition AddReplaceDelta (D : list (Z * Z)) (OrigOffset Change : Z) :=
  AddDelta D (2 * OrigOffset + 1) Change.

Definition Initialize (text : list ascii) : RewriteBuffer := mkRB text [].

(** [RewriteRope::erase] and [RewriteRope::insert]. *)
Definition rope_erase (Offset NumBytes : nat) (b : list ascii) : list ascii :=
  (take Offset b ++ drop (Offset + NumBytes) b)%list.
Definition rope_insert (Offset : nat) (s : list ascii) (b : list ascii) : list ascii :=
  (take Offset b ++ s ++ drop Offset b)%list.

(** [RewriteBuffer::ReplaceText].  [RewriteRope::erase] requires the
    erased region to lie inside the text and asserts it; [None] stands
    for a call outside that region: the assertion fails where
    assertions are compiled in, and the call has no defined result
    where they are not. *)
Definition RewriteBuffer_ReplaceText (rb : RewriteBuffer)
    (OrigOffset OrigLength : nat) (NewStr : string) : option RewriteBuffer :=
  let RealOffset := getMappedOffset rb (Z.of_nat OrigOffset) true in
  if bool_decide (0 <= RealOffset /\
                  RealOffset + Z.of_nat OrigLength <= Z.of_nat (length (Buffer rb)))
  then
    let b := rope_erase (Z.to_nat RealOffset) OrigLength (Buffer rb) in
    let b := rope_insert (Z.to_nat RealOffset) (list_ascii_of_string NewStr) b in
    Some (mkRB b
            (if bool_decide (OrigLength = String.length NewStr) then Deltas rb
             else AddReplaceDelta (Deltas rb) (Z.of_nat OrigOffset)
                    (Z.of_nat (String.length NewStr) - Z.of_nat OrigLength)))
  else None.

Record Rewriter := mkRewriter {
  SourceMgr : SourceManager;
  RewriteBuffers : gmap FileID RewriteBuffer
}.

(** [Rewriter::getEditBuffer]: the buffer of a file, created from the
    file's text on first use. *)
Definition getEditBuffer (R : Rewriter) (f : FileID) : RewriteBuffer :=
  match RewriteBuffers R !! f with
  | Some rb => rb
  | None => Initialize (getBufferData (SourceMgr R) f)
  end.

Definition isRewritable (loc : SourceLocation) : bool :=
  match loc with
  | FileLoc _ _ => true
  | MacroLoc _ _ => false
  end.

(** [Rewriter::ReplaceText(Start, OrigLength, NewStr)]: returns [true]
    without editing when the location is not rewritable. *)
Definition Rewriter_ReplaceText (R : Rewriter) (Start : SourceLocation)
    (OrigLength : nat) (NewStr : string) : option (bool * Rewriter) :=
  if negb (isRewritable Start) then Some (true, R)
  else
    let '(f, StartOffs) := getDecomposedExpansionLoc Start in
    rb ← RewriteBuffer_ReplaceText (getEditBuffer R f) StartOffs OrigLength NewStr;
    Some (false, mkRewriter (SourceMgr R) (<[f := rb]> (RewriteBuffers R))).

End Clang.

(** ** The program *)

Import Alias LLVM Clang.

(** The AST nodes the visitor has callbacks for, with the accessors the
    callbacks read. *)
Record VarDecl := mkVarDecl {
  VarDecl_getNameAsString : string;
  VarDecl_getLocation : SourceLocation
}.
Record DeclRefExpr := mkDeclRefExpr {
  DeclRefExpr_getNameInfo_getAsString : string;
  DeclRefExpr_getLocation : SourceLocation
}.
Record IntegerLiteral := mkIntegerLiteral {
  IntegerLiteral_getValue : APInt;
  IntegerLiteral_getLocation : SourceLocation
}.
Record StringLiteral := mkStringLiteral {
  StringLiteral_getString : string;
  StringLiteral_getBeginLoc : SourceLocation
}.
Record FunctionDecl := mkFunctionDecl {
  FunctionDecl_getNameAsString : string;
  FunctionDecl_getLocation : SourceLocation
}.

Inductive ASTNode :=
| Node_VarDecl (D : VarDecl)
| Node_DeclRefExpr (E : DeclRefExpr)
| Node_IntegerLiteral (L : IntegerLiteral)
| Node_StringLiteral (L : StringLiteral)
| Node_FunctionDecl (D : FunctionDecl).

(** The order in which a range-for walks a [std::unordered_map] is left
    to the implementation: it is some enumeration of the entries. *)
Class UnorderedOrder := {
  entries : gmap string string -> list (string * string);
  entries_perm : forall m, entries m ≡ₚ map_to_list m
}.

(** The members [aliases] and [nameLocations] of the visitor, and the
    state of [rand()], which only the visitor advances. *)
Record Visitor := mkVisitor {
  aliases : gmap string string;
  nameLocations : gmap string (list SourceLocation);
  randState : RandState
}.

Definition predefinedIdentifiers : gset string :=
  {[ "cout"; "cin"; "cerr"; "clog" ]}.

Definition isPredefinedIdentifier (name : string) : bool :=
  bool_decide (name ∈ predefinedIdentifiers).

(** [name.find("operator") == 0] *)
Definition isOperator (name : string) : bool :=
  bool_decide (String.index 0 "operator" name = Some 0%nat).

(** [name.substr(pos)] for [pos <= name.length()]. *)
Definition substr (pos : nat) (name : string) : string :=
  String.substring pos (String.length name - pos) name.

(** The double quote character. *)
Definition dquote : ascii := "034"%char.

(** [nameLocations[name].push_back(loc)]: [operator[]] makes an empty
    vector for a missing key. *)
Definition push_back_at (name : string) (loc : SourceLocation)
    (m : gmap string (list SourceLocation)) : gmap string (list SourceLocation) :=
  <[name := (default [] (m !! name) ++ [loc])%list]> m.

Definition VisitVarDecl (Context : SourceManager) (Declaration : VarDecl)
    (V : Visitor) : bool * Visitor :=
  if isInMainFile Context (VarDecl_getLocation Declaration) then
    let name := VarDecl_getNameAsString Declaration in
    let V :=
      match aliases V !! name with
      | None =>
          let '(alias, r) := generateRandomAlias (randState V) in
          mkVisitor (<[name := alias]> (aliases V)) (nameLocations V) r
      | Some _ => V
      end in
    (true, mkVisitor (aliases V)
             (push_back_at name (VarDecl_getLocation Declaration) (nameLocations V))
             (randState V))
  else (true, V).

Definition VisitDeclRefExpr (Context : SourceManager) (DRE : DeclRefExpr)
    (V : Visitor) : bool * Visitor :=
  let name := DeclRefExpr_getNameInfo_getAsString DRE in
  if isInMainFile Context (DeclRefExpr_getLocation DRE) || isPredefinedIdentifier name then
    let name := if isOperator name then substr 8 name else name in
    let V :=
      match aliases V !! name with
      | None =>
          let '(alias, r) := generateRandomAlias (randState V) in
          mkVisitor (<[name := alias]> (aliases V)) (nameLocations V) r
      | Some _ => V
      end in
    (true, mkVisitor (aliases V)
             (push_back_at name (DeclRefExpr_getLocation DRE) (nameLocations V))
             (randState V))
  else (true, V).

Definition VisitIntegerLiteral (Context : SourceManager) (Literal : IntegerLiteral)
    (V : Visitor) : bool * Visitor :=
  if isInMainFile Context (IntegerLiteral_getLocation Literal) then
    let valueStr := toString (IntegerLiteral_getValue Literal) 10 true in
    let V :=
      match aliases V !! valueStr with
      | None =>
          let '(alias, r) := generateRandomAlias (randState V) in
          mkVisitor (<[valueStr := alias]> (aliases V)) (nameLocations V) r
      | Some _ => V
      end in
    (true, mkVisitor (aliases V)
             (push_back_at valueStr (IntegerLiteral_getLocation Literal) (nameLocations V))
             (randState V))
  else (true, V).

Definition VisitStringLiteral (Context : SourceManager) (Literal : StringLiteral)
    (V : Visitor) : bool * Visitor :=
  if isInMainFile Context (StringLiteral_getBeginLoc Literal) then
    let value := String dquote "" +:+ StringLiteral_getString Literal
                 +:+ String dquote "" in
    let V :=
      match aliases V !! value with
      | None =>
          let '(alias, r) := generateRandomAlias (randState V) in
          mkVisitor (<[value := alias]> (aliases V)) (nameLocations V) r
      | Some _ => V
      end in
    (true, mkVisitor (aliases V)
             (push_back_at value (StringLiteral_getBeginLoc Literal) (nameLocations V))
             (randState V))
  else (true, V).

Definition VisitFunctionDecl (Context : SourceManager) (Declaration : FunctionDecl)
    (V : Visitor) : bool * Visitor :=
  if isInMainFile Context (FunctionDecl_getLocation Declaration) then
    let name := FunctionDecl_getNameAsString Declaration in
    let V :=
      match aliases V !! name with
      | None =>
          let '(alias, r) := generateRandomAlias (randState V) in
          mkVisitor (<[name := alias]> (aliases V)) (nameLocations V) r
      | Some _ => V
      end in
    (true, mkVisitor (aliases V)
             (push_back_at name (FunctionDecl_getLocation Declaration) (nameLocations V))
             (randState V))
  else (true, V).

(** [RecursiveASTVisitor] calls the callback of the node's class. *)
Definition Visit (Context : SourceManager) (n : ASTNode) (V : Visitor)
  : bool * Visitor :=
  match n with
  | Node_VarDecl D => VisitVarDecl Context D V
  | Node_DeclRefExpr E => VisitDeclRefExpr Context E V
  | Node_IntegerLiteral L => VisitIntegerLiteral Context L V
  | Node_StringLiteral L => VisitStringLiteral Context L V
  | Node_FunctionDecl D => VisitFunctionDecl Context D V
  end.

(** [TraverseDecl] over the nodes of the translation unit in traversal
    order; a callback returning [false] stops the walk. *)
Fixpoint TraverseDecl (Context : SourceManager) (nodes : list ASTNode)
    (V : Visitor) : bool * Visitor :=
  match nodes with
  | [] => (true, V)
  | n :: rest =>
      let '(go_on, V') := Visit Context n V in
      if go_on then TraverseDecl Context rest V' else (false, V')
  end.

Definition newline : string := String "010"%char "".

Section Emit.
Context {U : UnorderedOrder}.

(** [outputFile << "#define " << entry.second << " " << entry.first << "\n"]
    for every entry of [aliases]. *)
Definition InsertAliases (V : Visitor) (outputFile : string) : string :=
  foldl (fun out entry =>
           out +:+ "#define " +:+ entry.2 +:+ " " +:+ entry.1 +:+ newline)
        outputFile (entries (aliases V)).

(** The two nested loops of [ReplaceReferences].  The result of
    [Rewriter::ReplaceText] is dropped, as in the source.  A key of
    [aliases] that [nameLocations] lacks would get an empty vector from
    [operator[]]; nothing reads [nameLocations] afterwards. *)
Definition ReplaceReferences (V : Visitor) (TheRewriter : Rewriter)
  : option Rewriter :=
  foldl (fun acc entry =>
           foldl (fun acc loc =>
                    R ← acc;
                    res ← Rewriter_ReplaceText R loc (String.length entry.1) entry.2;
                    Some res.2)
                 acc (default [] (nameLocations V !! entry.1)))
        (Some TheRewriter) (entries (aliases V)).

(** [RenameVariableConsumer::HandleTranslationUnit] *)
Definition HandleTranslationUnit (Context : SourceManager) (TU : list ASTNode)
    (V : Visitor) (TheRewriter : Rewriter) (OutputFile : string)
  : option (Visitor * Rewriter * string) :=
  let V := (TraverseDecl Context TU V).2 in
  R ← ReplaceReferences V TheRewriter;
  Some (V, R, InsertAliases V OutputFile).

(** [RenameVariableAction::EndSourceFileAction] *)
Definition EndSourceFileAction (TheRewriter : Rewriter) (OutputFile : string)
  : string :=
  OutputFile +:+
  string_of_list_ascii
    (Buffer (getEditBuffer TheRewriter (MainFileID (SourceMgr TheRewriter)))).

(** What Clang's front end makes of the code handed to [runToolOnCode]:
    the nodes of the translation unit in traversal order, the text of
    the files it included, and whether an error was diagnosed.  The
    consumer and [EndSourceFileAction] run whether or not an error was
    diagnosed; [runToolOnCode] returns [false] when one was. *)
Record ParsedUnit := mkParsedUnit {
  TUNodes : list ASTNode;
  IncludedFiles : gmap FileID (list ascii);
  hasErrorOccurred : bool
}.

Definition mainFile : FileID := 1%nat.

Definition runToolOnCode (parse : list ascii -> ParsedUnit) (code : list ascii)
    (r : RandState) (OutputFile : string) : option (bool * string) :=
  let P := parse code in
  let SM := mkSM mainFile (<[mainFile := code]> (IncludedFiles P)) in
  res ← HandleTranslationUnit SM (TUNodes P) (mkVisitor ∅ ∅ r) (mkRewriter SM ∅) OutputFile;
  Some (negb (hasErrorOccurred P), EndSourceFileAction res.1.2 res.2).

(** How the process ends: an exit code and what was written to the
    output file ([None] when it was never opened), or an abort inside
    Clang. *)
Inductive ProcessResult :=
| Exit (code : Z) (written : option string)
| Aborted.

(** [main]: [sourceFile] is the text of [argv[1]] when it can be opened,
    [EC] says that opening [argv[2]] failed.  The messages written to
    the error stream are left out. *)
Definition main (argc : Z) (sourceFile : option (list ascii)) (EC : bool)
    (parse : list ascii -> ParsedUnit) (r : RandState) : ProcessResult :=
  if bool_decide (argc ≠ 3) then Exit 1 None
  else
    match sourceFile with
    | None => Exit 1 None
    | Some code =>
        if EC then Exit 1 None
        else
          match runToolOnCode parse code r "" with
          | Some (_, out) => Exit 0 (Some out)
          | None => Aborted
          end
    end.

End Emit.

(** The enumeration stdpp gives is one possible order. *)
#[local] Instance canonical_order : UnorderedOrder :=
  {| entries := map_to_list; entries_perm := fun m => reflexivity _ |}.


(** ** What the callbacks have in common

    Each of the five callbacks decides whether the node counts, computes
    a key and a location for it, and then runs the same two statements:
    give the key an alias unless it has one, and append the location to
    the key's vector. *)

Definition recordOccurrence (key : string) (loc : SourceLocation) (V : Visitor)
  : Visitor :=
  let V :=
    match aliases V !! key with
    | None =>
        let '(alias, r) := generateRandomAlias (randState V) in
        mkVisitor (<[key := alias]> (aliases V)) (nameLocations V) r
    | Some _ => V
    end in
  mkVisitor (aliases V) (push_back_at key loc (nameLocations V)) (randState V).

Definition quoted (s : string) : string :=
  String dquote "" +:+ s +:+ String dquote "".

(** The key and location a node is filed under, [None] for a node that
    is skipped. *)
Definition classify (Context : SourceManager) (n : ASTNode)
  : option (string * SourceLocation) :=
  match n with
  | Node_VarDecl D =>
      if isInMainFile Context (VarDecl_getLocation D)
      then Some (VarDecl_getNameAsString D, VarDecl_getLocation D) else None
  | Node_DeclRefExpr E =>
      let name := DeclRefExpr_getNameInfo_getAsString E in
      if isInMainFile Context (DeclRefExpr_getLocation E) || isPredefinedIdentifier name
      then Some (if isOperator name then substr 8 name else name,
                 DeclRefExpr_getLocation E)
      else None
  | Node_IntegerLiteral L =>
      if isInMainFile Context (IntegerLiteral_getLocation L)
      then Some (toString (IntegerLiteral_getValue L) 10 true,
                 IntegerLiteral_getLocation L)
      else None
  | Node_StringLiteral L =>
      if isInMainFile Context (StringLiteral_getBeginLoc L)
      then Some (quoted (StringLiteral_getString L), StringLiteral_getBeginLoc L)
      else None
  | Node_FunctionDecl D =>
      if isInMainFile Context (FunctionDecl_getLocation D)
      then Some (FunctionDecl_getNameAsString D, FunctionDecl_getLocation D) else None
  end.

(** One step of the walk. *)
Definition visit_step (Context : SourceManager) (V : Visitor) (n : ASTNode)
  : Visitor := (Visit Context n V).2.

(** The location a callback tests with [isInMainFile]. *)
Definition node_location (n : ASTNode) : SourceLocation :=
  match n with
  | Node_VarDecl D => VarDecl_getLocation D
  | Node_DeclRefExpr E => DeclRefExpr_getLocation E
  | Node_IntegerLiteral L => IntegerLiteral_getLocation L
  | Node_StringLiteral L => StringLiteral_getBeginLoc L
  | Node_FunctionDecl D => FunctionDecl_getLocation D
  end.

Definition is_reference (n : ASTNode) : bool :=
  match n with
  | Node_DeclRefExpr _ => true
  | _ => false
  end.

(** The keys observed in a traversal. *)
Definition observed_keys (Context : SourceManager) (nodes : list ASTNode)
  : gset string :=
  list_to_set (omap (fun n => fst <$> classify Context n) nodes).

(** The number of characters of a class. *)
Definition count_chars (p : ascii -> bool) : nat :=
  length (filter (fun n => p (ascii_of_nat n) = true) (seq 0 256)).

(** ** Decimal numerals *)

Definition digit_value (c : ascii) : option Z :=
  if is_digit c then Some (Z.of_nat (nat_of_ascii c) - 48) else None.

(** The value of a string of decimal digits read from the left. *)
Fixpoint decimal_value (acc : Z) (s : string) : option Z :=
  match s with
  | EmptyString => Some acc
  | String c s' => d ← digit_value c; decimal_value (10 * acc + d) s'
  end.

(** [s] is the decimal numeral of [n]: digits only, no sign, prefix or
    suffix, no leading zero unless it is ["0"]. *)
Definition decimal_numeral (s : string) (n : Z) : Prop :=
  s <> "" /\ decimal_value 0 s = Some n /\
  (s = "0" \/ String.get 0 s <> Some "0"%char).

(** One line of the definitions block. *)
Definition define_line (entry : string * string) : string :=
  "#define " +:+ entry.2 +:+ " " +:+ entry.1 +:+ newline.

Definition concat_lines (lines : list string) : string :=
  foldr String.append "" lines.

(** No two keys share an alias. *)
Definition aliases_pairwise_distinct (V : Visitor) : Prop :=
  forall k1 k2 a,
    k1 <> k2 -> aliases V !! k1 = Some a -> aliases V !! k2 <> Some a.

(** ** Edits in the coordinates of the original text *)

(** One call [ReplaceText(loc, len, str)] seen from the file it lands
    in: replace [e_len] characters at offset [e_off] of the original
    text by [e_new]. *)
Record Edit := mkEdit { e_off : nat; e_len : nat; e_new : string }.

(** The calls [ReplaceReferences] makes, in the order it makes them. *)
Definition pendingEdits {U : UnorderedOrder} (V : Visitor)
  : list (SourceLocation * nat * string) :=
  entries (aliases V) ≫= fun entry =>
    (fun loc => (loc, String.length entry.1, entry.2))
      <$> default [] (nameLocations V !! entry.1).

(** A sequence of [ReplaceText] calls on a rewriter. *)
Definition run_calls (R : Rewriter) (calls : list (SourceLocation * nat * string))
  : option Rewriter :=
  foldl (fun acc call =>
           R ← acc;
           res ← Rewriter_ReplaceText R call.1.1 call.1.2 call.2;
           Some res.2)
        (Some R) calls.

(** The calls that edit file [f]: those at a file location of [f]. *)
Definition edit_of_call (f : FileID) (call : SourceLocation * nat * string)
  : option Edit :=
  match call.1.1 with
  | FileLoc f' o => if decide (f' = f) then Some (mkEdit o call.1.2 call.2) else None
  | MacroLoc _ _ => None
  end.

Definition file_edits (f : FileID) (calls : list (SourceLocation * nat * string))
  : list Edit := omap (edit_of_call f) calls.

(** A sequence of edits on one buffer. *)
Definition apply_edits (rb : RewriteBuffer) (es : list Edit) : option RewriteBuffer :=
  foldl (fun acc e =>
           rb ← acc; RewriteBuffer_ReplaceText rb (e_off e) (e_len e) (e_new e))
        (Some rb) es.

(** The change of length an edit makes. *)
Definition delta (e : Edit) : Z :=
  Z.of_nat (String.length (e_new e)) - Z.of_nat (e_len e).

(** The sum of the length changes of the edits whose delta-tree index
    [2 * offset + 1] lies before [FileIndex]. *)
Fixpoint shift (es : list Edit) (FileIndex : Z) : Z :=
  match es with
  | [] => 0
  | e :: es' =>
      (if 2 * Z.of_nat (e_off e) + 1 <? FileIndex then delta e else 0)
      + shift es' FileIndex
  end.

(** Two edits are apart when one ends at or before the start of the
    other and they start at different offsets. *)
Definition apart (e1 e2 : Edit) : Prop :=
  (e_off e1 + e_len e1 <= e_off e2 /\ e_off e1 < e_off e2)%nat \/
  (e_off e2 + e_len e2 <= e_off e1 /\ e_off e2 < e_off e1)%nat.

Fixpoint pairwise_apart (es : list Edit) : Prop :=
  match es with
  | [] => True
  | e :: es' => Forall (apart e) es' /\ pairwise_apart es'
  end.

(** The edits of a file can be composed: they lie inside the text and
    are pairwise apart. *)
Definition edits_ok (text : list ascii) (es : list Edit) : Prop :=
  Forall (fun e => (e_off e + e_len e <= length text)%nat) es /\
  pairwise_apart es.

(** Edits sorted by offset, each ending before the next starts, all
    inside [lo, hi]. *)
Fixpoint sorted_edits (lo hi : nat) (S : list Edit) : Prop :=
  match S with
  | [] => True
  | e :: S' =>
      (lo <= e_off e)%nat /\ (e_off e + e_len e <= hi)%nat /\
      Forall (fun e' => (e_off e < e_off e')%nat) S' /\
      sorted_edits (e_off e + e_len e) hi S'
  end.

Fixpoint insert_edit (e : Edit) (S : list Edit) : list Edit :=
  match S with
  | [] => [e]
  | e1 :: S' =>
      if (e_off e <? e_off e1)%nat then e :: S else e1 :: insert_edit e S'
  end.

Definition sort_edits (es : list Edit) : list Edit :=
  foldl (fun S e => insert_edit e S) [] es.

(** The text that composing sorted edits gives: [b] is the original
    text from offset [c] on; copy up to the edit, put the new string,
    skip [e_len] characters of the original, go on. *)
Fixpoint splice (c : nat) (b : list ascii) (S : list Edit) : list ascii :=
  match S with
  | [] => b
  | e :: S' =>
      (take (e_off e - c) b ++ list_ascii_of_string (e_new e)
       ++ splice (e_off e + e_len e) (drop (e_off e - c + e_len e) b) S')%list
  end.

(** Where the rewritten text holds the replacement of an edit at
    original offset [o], and where it holds the original character [p]
    when no edit touched it. *)
Definition mapped_start (rb : RewriteBuffer) (o : nat) : nat :=
  Z.to_nat (getMappedOffset rb (Z.of_nat o) true).
Definition mapped_char (rb : RewriteBuffer) (p : nat) : nat :=
  Z.to_nat (getMappedOffset rb (Z.of_nat p + 1) false - 1).

(** No edit of [es] covers the original character at [p]. *)
Definition untouched (es : list Edit) (p : nat) : Prop :=
  Forall (fun e => (p < e_off e \/ e_off e + e_len e <= p)%nat) es.

(** The files a sequence of calls edits. *)
Definition call_files (calls : list (SourceLocation * nat * string)) : list FileID :=
  omap (fun call => match call.1.1 with
                    | FileLoc f _ => Some f
                    | MacroLoc _ _ => None
                    end) calls.

(** ** What the rewritten text is asked to be *)

(** Every location of file [f] recorded under a key with an alias holds
    that alias in the rewritten text of [f]. *)
Definition spans_hold_aliases (V : Visitor) (R' : Rewriter) (f : FileID) : Prop :=
  forall k a o,
    aliases V !! k = Some a ->
    FileLoc f o ∈ default [] (nameLocations V !! k) ->
    take (String.length a)
         (drop (mapped_start (getEditBuffer R' f) o) (Buffer (getEditBuffer R' f)))
    = list_ascii_of_string a.

(** [p] lies in none of the spans recorded in file [f]: the span of a
    location recorded under [k] is [String.length k] characters long. *)
Definition outside_spans (V : Visitor) (f : FileID) (p : nat) : Prop :=
  forall k o,
    FileLoc f o ∈ default [] (nameLocations V !! k) ->
    (p < o \/ o + String.length k <= p)%nat.

(** The characters of file [f] outside all spans are in the rewritten
    text as they were. *)
Definition bytes_outside_unchanged (SM : SourceManager) (V : Visitor)
    (R' : Rewriter) (f : FileID) : Prop :=
  forall p,
    (p < length (getBufferData SM f))%nat ->
    outside_spans V f p ->
    Buffer (getEditBuffer R' f) !! mapped_char (getEditBuffer R' f) p
    = getBufferData SM f !! p.

(** No span recorded in file [f] under a key with an alias starts at
    one of the [n] characters from offset [p] on. *)
Definition no_span_starts (V : Visitor) (f : FileID) (p n : nat) : Prop :=
  forall k a o,
    aliases V !! k = Some a ->
    FileLoc f o ∈ default [] (nameLocations V !! k) ->
    (o < p \/ p + n <= o)%nat.

(** ** Substituting the definitions back

    The claim about the round trip speaks of replacing, in the
    rewritten text, every occurrence of an alias by the right-hand side
    of its [#define] line.  This is that substitution: scanning from
    the left, where the alias of a definition stands it is replaced by
    the key and the scan goes on after it. *)

Fixpoint starts_with (s text : list ascii) : bool :=
  match s, text with
  | [], _ => true
  | _ :: _, [] => false
  | c :: s', d :: text' => if Ascii.eqb c d then starts_with s' text' else false
  end.

(** The first definition whose (non-empty) alias stands at the head of
    the text; a definition is a pair of key and alias as in [aliases]. *)
Fixpoint find_alias (defs : list (string * string)) (text : list ascii)
  : option (string * string) :=
  match defs with
  | [] => None
  | d :: defs' =>
      if (0 <? String.length d.2)%nat && starts_with (list_ascii_of_string d.2) text
      then Some d
      else find_alias defs' text
  end.

(** [skip] characters of an alias already replaced are still to pass. *)
Fixpoint substitute_aliases (defs : list (string * string)) (skip : nat)
    (text : list ascii) : list ascii :=
  match text with
  | [] => []
  | c :: rest =>
      match skip with
      | S n => substitute_aliases defs n rest
      | O =>
          match find_alias defs text with
          | Some d =>
              (list_ascii_of_string d.1
               ++ substitute_aliases defs (String.length d.2 - 1) rest)%list
          | None => c :: substitute_aliases defs 0 rest
          end
      end
  end.

(** The original text of file [f] holds, at every recorded location,
    the key the location is recorded under. *)
Definition spans_hold_keys (SM : SourceManager) (V : Visitor) (f : FileID) : Prop :=
  forall k o,
    FileLoc f o ∈ default [] (nameLocations V !! k) ->
    take (String.length k) (drop o (getBufferData SM f)) = list_ascii_of_string k.

(** In the rewritten text of [f] no alias stands at a character that
    was outside all spans. *)
Definition no_stray_alias {U : UnorderedOrder} (SM : SourceManager) (V : Visitor)
    (R' : Rewriter) (f : FileID) : Prop :=
  forall p,
    (p < length (getBufferData SM f))%nat ->
    outside_spans V f p ->
    find_alias (entries (aliases V))
      (drop (mapped_char (getEditBuffer R' f) p) (Buffer (getEditBuffer R' f)))
    = None.

(** Checks of two of the conditions above on the lists of a visitor. *)
Definition spans_hold_keys_check (SM : SourceManager) (V : Visitor) (f : FileID)
  : bool :=
  forallb
    (fun entry : string * list SourceLocation =>
       forallb
         (fun loc =>
            match loc with
            | FileLoc f' o =>
                if decide (f' = f)
                then bool_decide
                       (take (String.length entry.1) (drop o (getBufferData SM f))
                        = list_ascii_of_string entry.1)
                else true
            | MacroLoc _ _ => true
            end)
         entry.2)
    (map_to_list (nameLocations V)).

Definition aliases_distinct_check (V : Visitor) : bool :=
  bool_decide (NoDup (map_to_list (aliases V)).*2).

(** ** Sample translation units *)

(** [int x = 5;] as the only text of the main file. *)
Definition sample_context (text : string) : SourceManager :=
  mkSM mainFile {[ mainFile := list_ascii_of_string text ]}.

Definition decl_x_5 : list ASTNode :=
  [ Node_VarDecl (mkVarDecl "x" (FileLoc 1 4));
    Node_IntegerLiteral (mkIntegerLiteral (mkAPInt 32 5) (FileLoc 1 8)) ].

(** A generator that always returns the same number, and one that
    counts. *)
Definition constant_rand : RandState := mkRand (fun _ => 0) 0.
Definition counting_rand : RandState := mkRand (fun n => Z.of_nat n * 7 + 3) 0.

(** [unsigned x = 0xFFFFFFFF;]: the literal has type [unsigned int]. *)
Definition literal_all_ones : IntegerLiteral :=
  mkIntegerLiteral (mkAPInt 32 4294967295) (FileLoc 1 13).

(** [int x = 0x10;] *)
Definition literal_hex_16 : IntegerLiteral :=
  mkIntegerLiteral (mkAPInt 32 16) (FileLoc 1 8).

(** A class with a subscript operator and a function that subscripts. *)
Definition subscript_text : string :=
  "struct V{int operator[](int j){return j;}};int g(V v,int i){return v[i];}".

Definition subscript_nodes : list ASTNode :=
  [ Node_FunctionDecl (mkFunctionDecl "operator[]" (FileLoc 1 13));
    Node_VarDecl (mkVarDecl "j" (FileLoc 1 28));
    Node_DeclRefExpr (mkDeclRefExpr "j" (FileLoc 1 38));
    Node_FunctionDecl (mkFunctionDecl "g" (FileLoc 1 47));
    Node_VarDecl (mkVarDecl "v" (FileLoc 1 51));
    Node_VarDecl (mkVarDecl "i" (FileLoc 1 57));
    Node_DeclRefExpr (mkDeclRefExpr "operator[]" (FileLoc 1 68));
    Node_DeclRefExpr (mkDeclRefExpr "v" (FileLoc 1 67));
    Node_DeclRefExpr (mkDeclRefExpr "i" (FileLoc 1 69)) ].


(** An operator function called by its name: [operator+(a,b);]. *)
Definition operator_call_text : string := "operator+(a,b);".

Definition operator_call_nodes : list ASTNode :=
  [ Node_DeclRefExpr (mkDeclRefExpr "operator+" (FileLoc 1 0));
    Node_DeclRefExpr (mkDeclRefExpr "a" (FileLoc 1 10));
    Node_DeclRefExpr (mkDeclRefExpr "b" (FileLoc 1 12)) ].

Definition operator_call_visitor : Visitor :=
  (TraverseDecl (sample_context operator_call_text) operator_call_nodes
     (mkVisitor ∅ ∅ counting_rand)).2.

(** [int x = 0x10;] *)
Definition decl_x_hex : list ASTNode :=
  [ Node_VarDecl (mkVarDecl "x" (FileLoc 1 4));
    Node_IntegerLiteral literal_hex_16 ].

Definition decl_x_5_visitor : Visitor :=
  (TraverseDecl (sample_context "int x = 5;") decl_x_5
     (mkVisitor ∅ ∅ counting_rand)).2.

Definition decl_x_hex_visitor : Visitor :=
  (TraverseDecl (sample_context "int x = 0x10;") decl_x_hex
     (mkVisitor ∅ ∅ counting_rand)).2.

(** [int x = ;]: Clang reports the missing initialiser and still hands
    the consumer a translation unit with the declaration of [x]. *)
Definition broken_text : string := "int x = ;".

Definition broken_parse (code : list ascii) : ParsedUnit :=
  mkParsedUnit [ Node_VarDecl (mkVarDecl "x" (FileLoc 1 4)) ] ∅ true.

(** A declaration named like a stream, in an included file. *)
Definition foreign_cout : ASTNode :=
  Node_VarDecl (mkVarDecl "cout" (FileLoc 2 100)).

(** [x = x + y] walked after [int x = 5;]. *)
Definition more_nodes : list ASTNode :=
  [ Node_DeclRefExpr (mkDeclRefExpr "x" (FileLoc 1 11));
    Node_DeclRefExpr (mkDeclRefExpr "x" (FileLoc 1 15));
    Node_DeclRefExpr (mkDeclRefExpr "y" (FileLoc 1 19)) ].

(** [0xFFFFFFFF] of type [unsigned int] and [0xFFFFFFFFFFFFFFFF] of
    type [unsigned long]. *)
Definition literal_all_ones_64 : IntegerLiteral :=
  mkIntegerLiteral (mkAPInt 64 18446744073709551615) (FileLoc 1 30).

(** A literal of a 128-bit type ([_BitInt(128)], [__int128]) with only
    the top bit set. *)
Definition literal_wide : IntegerLiteral :=
  mkIntegerLiteral (mkAPInt 128 (2 ^ 127)) (FileLoc 1 9).

(** [int y = GET;] after [#define GET x], with [x] declared in an
    included file: the reference to [x] comes out of the macro body, so
    its location is a macro location, expanded at [GET]. *)
Definition macro_text : string :=
  "#define GET x" +:+ newline +:+ "int y = GET;".

Definition macro_nodes : list ASTNode :=
  [ Node_VarDecl (mkVarDecl "y" (FileLoc 1 18));
    Node_DeclRefExpr (mkDeclRefExpr "x" (MacroLoc 1 22)) ].

Definition macro_visitor : Visitor :=
  (TraverseDecl (sample_context macro_text) macro_nodes
     (mkVisitor ∅ ∅ counting_rand)).2.

(** ** Further notions for the properties of the walk and of the driver *)

(** An [APInt] of one word, as Clang makes it for a literal of a
    standard integer type: 1 to 64 bits, the value within the width. *)
Definition literal_value_ok (a : APInt) : Prop :=
  (0 < BitWidth a <= 64)%nat /\ 0 <= VAL a < 2 ^ Z.of_nat (BitWidth a).

(** The eligible occurrences of a walk, in the order of the walk. *)
Definition occurrences (Context : SourceManager) (nodes : list ASTNode)
  : list (string * SourceLocation) :=
  omap (classify Context) nodes.

(** The locations of the occurrences with key [k], in the order of the
    walk. *)
Definition locations_of (Context : SourceManager) (nodes : list ASTNode)
    (k : string) : list SourceLocation :=
  (filter (fun o => o.1 = k) (occurrences Context nodes)).*2.

(** The change of length a sequence of edits makes in all. *)
Definition total_delta (es : list Edit) : Z :=
  foldr (fun e acc => delta e + acc) 0 es.

(** The generator [n] calls of [rand()] later. *)
Definition rand_after (r : RandState) (n : nat) : RandState :=
  mkRand (rand_seq r) (rand_pos r + n).

(** Another order in which the map may be walked: the enumeration of
    stdpp backwards. *)
Definition reversed_order : UnorderedOrder :=
  {| entries := fun m => reverse (map_to_list m);
     entries_perm := fun m => reverse_Permutation (map_to_list m) |}.

(** A main file that uses [cout] only through a function of an included
    file: the reference to [cout] lies in that file. *)
Definition header_text : string := "void log(){cout;}".

Definition including_context : SourceManager :=
  mkSM mainFile
    (<[ mainFile := list_ascii_of_string "int main(){log();}" ]>
       {[ 2%nat := list_ascii_of_string header_text ]}).

Definition header_nodes : list ASTNode :=
  [ Node_DeclRefExpr (mkDeclRefExpr "cout" (FileLoc 2 11)) ].

Definition header_visitor : Visitor :=
  (TraverseDecl including_context header_nodes (mkVisitor ∅ ∅ counting_rand)).2.

(** A call of a function object cut off after the parenthesis: the
    reference to [operator()] is recorded at the last character. *)
Definition cut_off_nodes : list ASTNode :=
  [ Node_DeclRefExpr (mkDeclRefExpr "operator()" (FileLoc 1 1)) ].

Definition cut_off_visitor : Visitor :=
  (TraverseDecl (sample_context "g(") cut_off_nodes (mkVisitor ∅ ∅ counting_rand)).2.

(** What the front end makes of [int x = 5;], and of a main file whose
    only declaration in sight is one of an included file. *)
Definition parse_x_5 (code : list ascii) : ParsedUnit :=
  mkParsedUnit decl_x_5 ∅ false.

Definition parse_foreign (code : list ascii) : ParsedUnit :=
  mkParsedUnit [foreign_cout] {[ 2%nat := list_ascii_of_string "int cout;" ]} false.

(** * Properties *)

(** ** The alias generator *)

Lemma letters_class (n : nat) :
  (n < 52)%nat -> is_letter (char_at letters (Z.of_nat n)) = true.
Proof.
  intros Hn.
  assert (H : forallb (fun k => is_letter (char_at letters (Z.of_nat k))) (seq 0 52) = true)
    by (vm_compute; reflexivity).
  rewrite forallb_forall in H. apply H. apply in_seq. lia.
Qed.

Lemma alphanum_class (n : nat) :
  (n < 62)%nat -> is_alnum (char_at alphanum (Z.of_nat n)) = true.
Proof.
  intros Hn.
  assert (H : forallb (fun k => is_alnum (char_at alphanum (Z.of_nat k))) (seq 0 62) = true)
    by (vm_compute; reflexivity).
  rewrite forallb_forall in H. apply H. apply in_seq. lia.
Qed.

Lemma draw_letter (x : Z) :
  is_letter (char_at letters (to_size_t x mod (sizeof letters - 1))) = true.
Proof.
  change (sizeof letters - 1) with 52.
  pose proof (Z.mod_pos_bound (to_size_t x) 52 ltac:(lia)) as Hb.
  rewrite <- (Z2Nat.id (to_size_t x mod 52)) by lia.
  apply letters_class. lia.
Qed.

Lemma draw_alnum (x : Z) :
  is_alnum (char_at alphanum (to_size_t x mod (sizeof alphanum - 1))) = true.
Proof.
  change (sizeof alphanum - 1) with 62.
  pose proof (Z.mod_pos_bound (to_size_t x) 62 ltac:(lia)) as Hb.
  rewrite <- (Z2Nat.id (to_size_t x mod 62)) by lia.
  apply alphanum_class. lia.
Qed.

Lemma append_cons (x : ascii) (a b : string) :
  String x a +:+ b = String x (a +:+ b).
Proof. reflexivity. Qed.

Lemma append_nil_l (b : string) : "" +:+ b = b.
Proof. reflexivity. Qed.

Lemma string_app_assoc (a b c : string) : (a +:+ b) +:+ c = a +:+ (b +:+ c).
Proof.
  induction a as [|x a IH]; [reflexivity|].
  rewrite !append_cons. now rewrite IH.
Qed.

Lemma string_app_nil_r (a : string) : a +:+ "" = a.
Proof.
  induction a as [|x a IH]; [reflexivity|]. rewrite append_cons. now rewrite IH.
Qed.

Lemma string_app_length (a b : string) :
  String.length (a +:+ b) = (String.length a + String.length b)%nat.
Proof.
  induction a as [|x a IH]; [reflexivity|].
  rewrite append_cons. simpl. now rewrite IH.
Qed.

Lemma list_of_string_length (a : string) :
  length (list_ascii_of_string a) = String.length a.
Proof. induction a as [|x a IH]; simpl; [reflexivity | now rewrite IH]. Qed.

(** The loop appends exactly [n] alphanumeric characters. *)
Lemma alias_loop_appends (n : nat) : forall alias r,
  exists suffix,
    (alias_loop n alias r).1 = alias +:+ suffix /\
    String.length suffix = n /\
    Forall (fun d => is_alnum d = true) (list_ascii_of_string suffix).
Proof.
  induction n as [|n IH]; intros alias r; simpl.
  - exists "". rewrite string_app_nil_r. repeat split. constructor.
  - destruct (IH (push_char alias
                    (char_at alphanum (to_size_t (rand_seq r (rand_pos r))
                                         mod (sizeof alphanum - 1))))
                 (mkRand (rand_seq r) (S (rand_pos r))))
      as (suf & Heq & Hlen & Hall).
    eexists (String _ suf). split; [|split].
    + rewrite Heq. unfold push_char. rewrite string_app_assoc. reflexivity.
    + simpl. now rewrite Hlen.
    + simpl. constructor; [apply draw_alnum | exact Hall].
Qed.

Lemma alias_has_shape (r : RandState) :
  String.length (generateRandomAlias r).1 = 8%nat /\
  alias_shape (generateRandomAlias r).1.
Proof.
  unfold generateRandomAlias.
  destruct (rand r) as [x r1] eqn:Hr.
  destruct (alias_loop_appends (8 - 1)
              (push_char "" (char_at letters (to_size_t x mod (sizeof letters - 1)))) r1)
    as (suf & Heq & Hlen & Hall).
  rewrite Heq. unfold push_char. rewrite append_nil_l, append_cons, append_nil_l.
  split; [simpl; now rewrite Hlen|].
  simpl. split; [apply draw_letter|]. split; [exact Hlen | exact Hall].
Qed.

(** C7: every alias has length 8, its first character is one of the 52
    Latin letters and each of the other seven is one of the 62
    alphanumeric characters. *)
Theorem generateRandomAlias_shape (r : RandState) :
  let alias := (generateRandomAlias r).1 in
  String.length alias = 8%nat /\
  alias_shape alias /\
  count_chars is_letter = 52%nat /\ count_chars is_alnum = 62%nat.
Proof.
  cbv zeta. destruct (alias_has_shape r) as [Hlen Hshape].
  split; [exact Hlen|]. split; [exact Hshape|].
  split; vm_compute; reflexivity.
Qed.

(** ** The callbacks *)

Lemma Visit_classify (Context : SourceManager) (n : ASTNode) (V : Visitor) :
  Visit Context n V =
  (true, match classify Context n with
         | Some (key, loc) => recordOccurrence key loc V
         | None => V
         end).
Proof.
  destruct n as [D|E|L|L|D]; simpl;
    unfold VisitVarDecl, VisitDeclRefExpr, VisitIntegerLiteral,
           VisitStringLiteral, VisitFunctionDecl;
    match goal with |- context [if ?c then _ else _] => destruct c end;
    reflexivity.
Qed.

Lemma TraverseDecl_foldl (Context : SourceManager) (nodes : list ASTNode) :
  forall V, TraverseDecl Context nodes V = (true, foldl (visit_step Context) V nodes).
Proof.
  induction nodes as [|n nodes IH]; intros V; simpl; [reflexivity|].
  unfold visit_step at 2. rewrite Visit_classify. simpl. apply IH.
Qed.

Lemma recordOccurrence_aliases_old key loc V k a :
  aliases V !! k = Some a -> aliases (recordOccurrence key loc V) !! k = Some a.
Proof.
  intros Hk. unfold recordOccurrence.
  destruct (aliases V !! key) as [a'|] eqn:Hkey; simpl; [exact Hk|].
  destruct (generateRandomAlias (randState V)) as [alias r]; simpl.
  rewrite lookup_insert_ne; [exact Hk | congruence].
Qed.

Lemma recordOccurrence_seen key loc V a :
  aliases V !! key = Some a ->
  recordOccurrence key loc V
  = mkVisitor (aliases V) (push_back_at key loc (nameLocations V)) (randState V).
Proof. intros Hk. unfold recordOccurrence. now rewrite Hk. Qed.

Lemma recordOccurrence_fresh key loc V :
  aliases V !! key = None ->
  recordOccurrence key loc V
  = mkVisitor (<[key := (generateRandomAlias (randState V)).1]> (aliases V))
              (push_back_at key loc (nameLocations V))
              (generateRandomAlias (randState V)).2.
Proof.
  intros Hk. unfold recordOccurrence. rewrite Hk.
  now destruct (generateRandomAlias (randState V)).
Qed.

Lemma substring_all (s : string) : String.substring 0 (String.length s) s = s.
Proof. induction s as [|c s IH]; simpl; [reflexivity | now rewrite IH]. Qed.

Lemma prefix_append (p s : string) : String.prefix p (p +:+ s) = true.
Proof.
  induction p as [|c p IH]; [now destruct s|].
  rewrite append_cons. simpl. destruct (ascii_dec c c); [exact IH | congruence].
Qed.

Lemma isOperator_prefix (s : string) : isOperator ("operator" +:+ s) = true.
Proof.
  unfold isOperator. apply bool_decide_eq_true.
  pose proof (prefix_append "operator" s) as Hp.
  change ("operator" +:+ s)
    with (String "o" ("perator" +:+ s)) in *.
  unfold String.index. now rewrite Hp.
Qed.

Lemma substr_operator (s : string) : substr 8 ("operator" +:+ s) = s.
Proof.
  unfold substr. rewrite string_app_length.
  replace (String.length "operator" + String.length s - 8)%nat
    with (String.length s) by (simpl; lia).
  change ("operator" +:+ s)
    with (String "o" (String "p" (String "e" (String "r" (String "a"
           (String "t" (String "o" (String "r" s)))))))).
  simpl. apply substring_all.
Qed.

Lemma predefined_iff (name : string) :
  isPredefinedIdentifier name = true <->
  name = "cout" \/ name = "cin" \/ name = "cerr" \/ name = "clog".
Proof.
  unfold isPredefinedIdentifier, predefinedIdentifiers.
  rewrite bool_decide_eq_true, !elem_of_union, !elem_of_singleton. tauto.
Qed.

Lemma predefined_not_operator (name : string) :
  isPredefinedIdentifier name = true -> isOperator name = false.
Proof.
  rewrite predefined_iff. intros [->|[->|[->| ->]]]; reflexivity.
Qed.

(** C10: the allow-list holds exactly [cout], [cin], [cerr] and [clog],
    and only the callback for references consults it: any other node
    located outside the main file is skipped whatever its name, while a
    reference outside the main file is recorded exactly when its name is
    on the list. *)
Theorem allow_list_for_references_only (Context : SourceManager) (V : Visitor) :
  (forall name, isPredefinedIdentifier name = true <->
                name = "cout" \/ name = "cin" \/ name = "cerr" \/ name = "clog") /\
  (forall n, is_reference n = false ->
             isInMainFile Context (node_location n) = false ->
             Visit Context n V = (true, V)) /\
  (forall E, isInMainFile Context (DeclRefExpr_getLocation E) = false ->
     Visit Context (Node_DeclRefExpr E) V =
     (true,
      if isPredefinedIdentifier (DeclRefExpr_getNameInfo_getAsString E)
      then recordOccurrence (DeclRefExpr_getNameInfo_getAsString E)
                            (DeclRefExpr_getLocation E) V
      else V)).
Proof.
  split; [exact predefined_iff|]. split.
  - intros n Href Hout. rewrite Visit_classify.
    destruct n; simpl in *; try discriminate; now rewrite Hout.
  - intros E Hout. rewrite Visit_classify. simpl. rewrite Hout. simpl.
    destruct (isPredefinedIdentifier _) eqn:Hp; [|reflexivity].
    now rewrite (predefined_not_operator _ Hp).
Qed.

Lemma operator_name_longer (s : string) : "operator" +:+ s <> s.
Proof.
  intros H. apply (f_equal String.length) in H.
  rewrite string_app_length in H. simpl in H. lia.
Qed.

Lemma push_back_at_lookup key loc (m : gmap string (list SourceLocation)) :
  push_back_at key loc m !! key = Some (default [] (m !! key) ++ [loc])%list.
Proof. unfold push_back_at. apply lookup_insert_eq. Qed.

Lemma push_back_at_lookup_ne key loc (m : gmap string (list SourceLocation)) k :
  key <> k -> push_back_at key loc m !! k = m !! k.
Proof. intros Hne. unfold push_back_at. now apply lookup_insert_ne. Qed.

Lemma recordOccurrence_locations key loc V :
  nameLocations (recordOccurrence key loc V) !! key
  = Some (default [] (nameLocations V !! key) ++ [loc])%list.
Proof.
  unfold recordOccurrence.
  destruct (aliases V !! key); [|destruct (generateRandomAlias _)];
    simpl; apply push_back_at_lookup.
Qed.

Lemma recordOccurrence_locations_ne key loc V k :
  key <> k ->
  nameLocations (recordOccurrence key loc V) !! k = nameLocations V !! k.
Proof.
  intros Hne. unfold recordOccurrence.
  destruct (aliases V !! key); [|destruct (generateRandomAlias _)];
    simpl; now apply push_back_at_lookup_ne.
Qed.

Lemma recordOccurrence_aliases_ne key loc V k :
  key <> k -> aliases (recordOccurrence key loc V) !! k = aliases V !! k.
Proof.
  intros Hne. unfold recordOccurrence.
  destruct (aliases V !! key); [reflexivity|].
  destruct (generateRandomAlias _); simpl. now apply lookup_insert_ne.
Qed.

(** C5: an eligible reference whose name starts with ["operator"] is
    filed under the text after these eight characters and under nothing
    else, so it shares the vector and the alias of any other occurrence
    whose key is that text. *)
Theorem operator_reference_key (Context : SourceManager) (E : DeclRefExpr)
    (V : Visitor) (suffix : string) :
  DeclRefExpr_getNameInfo_getAsString E = "operator" +:+ suffix ->
  isInMainFile Context (DeclRefExpr_getLocation E)
    || isPredefinedIdentifier (DeclRefExpr_getNameInfo_getAsString E) = true ->
  let V' := (Visit Context (Node_DeclRefExpr E) V).2 in
  V' = recordOccurrence suffix (DeclRefExpr_getLocation E) V /\
  nameLocations V' !! suffix
    = Some (default [] (nameLocations V !! suffix) ++ [DeclRefExpr_getLocation E])%list /\
  (forall a, aliases V !! suffix = Some a -> aliases V' !! suffix = Some a) /\
  (forall k, k <> suffix ->
     aliases V' !! k = aliases V !! k /\ nameLocations V' !! k = nameLocations V !! k) /\
  nameLocations V' !! ("operator" +:+ suffix)
    = nameLocations V !! ("operator" +:+ suffix).
Proof.
  intros Hname Hel V'.
  assert (HV : V' = recordOccurrence suffix (DeclRefExpr_getLocation E) V).
  { unfold V'. rewrite Visit_classify. simpl. rewrite Hel, Hname.
    now rewrite isOperator_prefix, substr_operator. }
  rewrite HV. split; [reflexivity|]. split; [apply recordOccurrence_locations|].
  split; [intros a; apply recordOccurrence_aliases_old|].
  split.
  - intros k Hk. split.
    + apply recordOccurrence_aliases_ne; congruence.
    + apply recordOccurrence_locations_ne; congruence.
  - apply recordOccurrence_locations_ne.
    intros Heq. exact (operator_name_longer suffix (eq_sym Heq)).
Qed.

(** ** The recorder *)

Lemma alias_loop_pos (n : nat) : forall alias r,
  rand_pos (alias_loop n alias r).2 = (rand_pos r + n)%nat.
Proof.
  induction n as [|n IH]; intros alias r; simpl; [lia|].
  rewrite IH. simpl. lia.
Qed.

Lemma generateRandomAlias_pos (r : RandState) :
  rand_pos (generateRandomAlias r).2 = (rand_pos r + 8)%nat.
Proof.
  unfold generateRandomAlias, rand. cbv zeta. rewrite alias_loop_pos. simpl. lia.
Qed.

Lemma visit_step_classify Context V n :
  visit_step Context V n =
  match classify Context n with
  | Some (key, loc) => recordOccurrence key loc V
  | None => V
  end.
Proof. unfold visit_step. now rewrite Visit_classify. Qed.

Lemma observed_keys_cons Context n nodes k :
  k ∈ observed_keys Context (n :: nodes) <->
  (exists loc, classify Context n = Some (k, loc)) \/ k ∈ observed_keys Context nodes.
Proof.
  unfold observed_keys. simpl.
  destruct (classify Context n) as [[k' loc]|]; simpl.
  - rewrite elem_of_union, elem_of_singleton. split.
    + intros [->|H]; [left; eauto | now right].
    + intros [[loc' Heq]|H]; [left; congruence | now right].
  - split; [now right | intros [[loc' Heq]|H]; [discriminate | exact H]].
Qed.

Lemma recordOccurrence_aliases_dom key loc V k :
  is_Some (aliases (recordOccurrence key loc V) !! k) <->
  k = key \/ is_Some (aliases V !! k).
Proof.
  destruct (decide (key = k)) as [->|Hne].
  - split; [now left|]. intros _.
    destruct (aliases V !! k) as [a|] eqn:Hk.
    + exists a. now apply recordOccurrence_aliases_old.
    + rewrite recordOccurrence_fresh by exact Hk. simpl.
      rewrite lookup_insert_eq. eauto.
  - rewrite recordOccurrence_aliases_ne by exact Hne.
    split; [now right | intros [->|H]; [congruence | exact H]].
Qed.

Lemma recordOccurrence_draws key loc V :
  (rand_pos (randState (recordOccurrence key loc V)) + 8 * size (aliases V))%nat
  = (rand_pos (randState V) + 8 * size (aliases (recordOccurrence key loc V)))%nat.
Proof.
  destruct (aliases V !! key) as [a|] eqn:Hk.
  - now rewrite (recordOccurrence_seen _ _ _ _ Hk).
  - rewrite recordOccurrence_fresh by exact Hk. cbn [randState aliases].
    rewrite generateRandomAlias_pos, map_size_insert_None by exact Hk. lia.
Qed.

Lemma traverse_aliases_old Context nodes : forall V k a,
  aliases V !! k = Some a ->
  aliases (foldl (visit_step Context) V nodes) !! k = Some a.
Proof.
  induction nodes as [|n nodes IH]; intros V k a Hk; simpl; [exact Hk|].
  apply IH. rewrite visit_step_classify.
  destruct (classify Context n) as [[key loc]|]; [|exact Hk].
  now apply recordOccurrence_aliases_old.
Qed.

Lemma traverse_aliases_dom Context nodes : forall V k,
  is_Some (aliases (foldl (visit_step Context) V nodes) !! k) <->
  is_Some (aliases V !! k) \/ k ∈ observed_keys Context nodes.
Proof.
  induction nodes as [|n nodes IH]; intros V k; simpl.
  - unfold observed_keys. simpl. rewrite elem_of_empty. tauto.
  - rewrite IH, observed_keys_cons, visit_step_classify.
    destruct (classify Context n) as [[key loc]|] eqn:Hc.
    + rewrite recordOccurrence_aliases_dom. split.
      * intros [[->|H]|H]; [right; left; eauto | now left | now right; right].
      * intros [H|[[loc' Heq]|H]];
          [left; now right | left; left; congruence | now right].
    + split; [intros [H|H]; [now left | now right; right]|].
      intros [H|[[loc' Heq]|H]]; [now left | discriminate | now right].
Qed.

Lemma traverse_draws Context nodes : forall V,
  (rand_pos (randState (foldl (visit_step Context) V nodes)) + 8 * size (aliases V))%nat
  = (rand_pos (randState V)
     + 8 * size (aliases (foldl (visit_step Context) V nodes)))%nat.
Proof.
  induction nodes as [|n nodes IH]; intros V; simpl; [reflexivity|].
  specialize (IH (visit_step Context V n)).
  rewrite visit_step_classify in *.
  destruct (classify Context n) as [[key loc]|]; [|exact IH].
  pose proof (recordOccurrence_draws key loc V). lia.
Qed.

(** C8: an alias entry is made when a key is first seen and is never
    changed: a later occurrence only appends its location; over any
    stretch of the walk the entries present stay as they are, the keys
    with an entry are those already present and those observed, and the
    generator runs once per new entry. *)
Theorem alias_entry_created_once (Context : SourceManager) (nodes : list ASTNode)
    (V : Visitor) :
  let V' := (TraverseDecl Context nodes V).2 in
  (forall k a, aliases V !! k = Some a -> aliases V' !! k = Some a) /\
  (forall k, is_Some (aliases V' !! k) <->
             is_Some (aliases V !! k) \/ k ∈ observed_keys Context nodes) /\
  (rand_pos (randState V') + 8 * size (aliases V))%nat
    = (rand_pos (randState V) + 8 * size (aliases V'))%nat /\
  (forall n k loc, classify Context n = Some (k, loc) ->
     let V1 := (Visit Context n V).2 in
     (aliases V !! k = None ->
        aliases V1 = <[k := (generateRandomAlias (randState V)).1]> (aliases V)) /\
     (is_Some (aliases V !! k) ->
        aliases V1 = aliases V /\ randState V1 = randState V) /\
     nameLocations V1 !! k = Some (default [] (nameLocations V !! k) ++ [loc])%list).
Proof.
  cbv zeta. rewrite TraverseDecl_foldl. simpl.
  split; [intros k a; apply traverse_aliases_old|].
  split; [apply traverse_aliases_dom|].
  split; [apply traverse_draws|].
  intros n k loc Hc. rewrite Visit_classify, Hc. cbn [snd].
  split; [|split].
  - intros Hk. now rewrite recordOccurrence_fresh.
  - intros [a Hk]. now rewrite (recordOccurrence_seen _ _ _ _ Hk).
  - apply recordOccurrence_locations.
Qed.

(** ** The definitions block *)

Lemma InsertAliases_lines {U : UnorderedOrder} (V : Visitor) (out : string) :
  InsertAliases V out = out +:+ concat_lines (map define_line (entries (aliases V))).
Proof.
  unfold InsertAliases. generalize (entries (aliases V)) as l. intros l.
  revert out. induction l as [|e l IH]; intros out; simpl.
  - now rewrite string_app_nil_r.
  - rewrite IH. fold (define_line e). now rewrite string_app_assoc.
Qed.

Lemma entries_length {U : UnorderedOrder} (m : gmap string string) :
  length (entries m) = size m.
Proof. rewrite (Permutation_length (entries_perm m)). apply length_map_to_list. Qed.

Lemma entries_lookup {U : UnorderedOrder} (m : gmap string string) k a :
  (k, a) ∈ entries m <-> m !! k = Some a.
Proof. rewrite (entries_perm m). apply elem_of_map_to_list. Qed.

Lemma entries_NoDup_keys {U : UnorderedOrder} (m : gmap string string) :
  NoDup (entries m).*1.
Proof. rewrite (entries_perm m). apply NoDup_fst_map_to_list. Qed.

Lemma entries_keys {U : UnorderedOrder} (m : gmap string string) k :
  k ∈ (entries m).*1 <-> is_Some (m !! k).
Proof.
  rewrite list_elem_of_fmap. split.
  - intros [[k' a] [-> Hin]]. apply entries_lookup in Hin. eauto.
  - intros [a Ha]. exists (k, a). split; [reflexivity | now apply entries_lookup].
Qed.

Lemma recordOccurrence_shapes key loc V :
  map_Forall (fun _ a => alias_shape a) (aliases V) ->
  map_Forall (fun _ a => alias_shape a) (aliases (recordOccurrence key loc V)).
Proof.
  intros HV. destruct (aliases V !! key) as [a|] eqn:Hk.
  - now rewrite (recordOccurrence_seen _ _ _ _ Hk).
  - rewrite recordOccurrence_fresh by exact Hk. simpl.
    apply map_Forall_insert_2; [|exact HV].
    apply alias_has_shape.
Qed.

Lemma traverse_shapes Context nodes : forall V,
  map_Forall (fun _ a => alias_shape a) (aliases V) ->
  map_Forall (fun _ a => alias_shape a) (aliases (foldl (visit_step Context) V nodes)).
Proof.
  induction nodes as [|n nodes IH]; intros V HV; simpl; [exact HV|].
  apply IH. rewrite visit_step_classify.
  destruct (classify Context n) as [[key loc]|]; [|exact HV].
  now apply recordOccurrence_shapes.
Qed.

Lemma traverse_dom Context nodes r :
  dom (aliases (foldl (visit_step Context) (mkVisitor ∅ ∅ r) nodes))
  = observed_keys Context nodes.
Proof.
  apply set_eq. intros k. rewrite elem_of_dom, traverse_aliases_dom. simpl.
  rewrite lookup_empty. split; [intros [[a Ha]|H]; [discriminate | exact H] | now right].
Qed.

(** C3, amended: after a walk that observed N distinct keys the
    definitions block is N lines [#define alias key], one for each
    observed key and no key twice, and every alias has the shape of a
    generated one.  Nothing keeps the aliases of two keys apart. *)
Theorem one_definition_per_key {U : UnorderedOrder} (Context : SourceManager)
    (nodes : list ASTNode) (r : RandState) :
  let V := (TraverseDecl Context nodes (mkVisitor ∅ ∅ r)).2 in
  let defs := entries (aliases V) in
  InsertAliases V "" = concat_lines (map define_line defs) /\
  length defs = size (observed_keys Context nodes) /\
  NoDup defs.*1 /\
  (forall k, k ∈ defs.*1 <-> k ∈ observed_keys Context nodes) /\
  Forall (fun d => alias_shape d.2) defs.
Proof.
  cbv zeta. rewrite TraverseDecl_foldl. cbn [snd].
  split; [now rewrite InsertAliases_lines|].
  split; [now rewrite entries_length, <- (traverse_dom Context nodes r), size_dom|].
  split; [apply entries_NoDup_keys|].
  split.
  - intros k. now rewrite entries_keys, <- (traverse_dom Context nodes r), elem_of_dom.
  - apply Forall_forall. intros [k a] Hin. apply entries_lookup in Hin.
    pose proof (traverse_shapes Context nodes (mkVisitor ∅ ∅ r)) as Hs.
    simpl in Hs. specialize (Hs (map_Forall_empty _)).
    exact (Hs k a Hin).
Qed.

(** With a generator that repeats itself the two keys of [int x = 5;]
    get the same alias. *)
Lemma aliases_collide :
  ~ aliases_pairwise_distinct
      (TraverseDecl (sample_context "int x = 5;") decl_x_5
         (mkVisitor ∅ ∅ constant_rand)).2.
Proof.
  intros H.
  apply (H "x" "5" "A0000000"); [discriminate | vm_compute; reflexivity..].
Qed.

(** ** Integer literals *)

Lemma digit_char_value (d : Z) :
  0 <= d < 10 -> digit_value (digit_char d) = Some d.
Proof.
  intros Hd.
  assert (H : d = 0 \/ d = 1 \/ d = 2 \/ d = 3 \/ d = 4 \/ d = 5 \/ d = 6 \/
              d = 7 \/ d = 8 \/ d = 9) by lia.
  repeat (destruct H as [->|H]; [reflexivity|]). now subst.
Qed.

Lemma digit_char_nonzero (d : Z) : 0 < d < 10 -> digit_char d <> "0"%char.
Proof.
  intros Hd.
  assert (H : d = 1 \/ d = 2 \/ d = 3 \/ d = 4 \/ d = 5 \/ d = 6 \/
              d = 7 \/ d = 8 \/ d = 9) by lia.
  repeat (destruct H as [->|H]; [discriminate|]). now subst.
Qed.

Lemma decimal_value_snoc (ds : string) (c : ascii) (rest : string) (acc : Z) :
  decimal_value acc ((ds +:+ String c "") +:+ rest)
  = decimal_value acc (ds +:+ String c rest).
Proof. now rewrite string_app_assoc. Qed.

(** The loop writes the digits of [N], most significant first, in front
    of what the buffer holds. *)
Lemma digit_loop_decimal (fuel : nat) : forall N buf,
  0 <= N < 10 ^ Z.of_nat fuel ->
  exists ds,
    digit_loop fuel N 10 buf = ds +:+ buf /\
    (forall acc rest,
       decimal_value acc (ds +:+ rest)
       = decimal_value (acc * 10 ^ Z.of_nat (String.length ds) + N) rest) /\
    (N = 0 -> ds = "") /\
    (0 < N -> exists c ds', ds = String c ds' /\ c <> "0"%char).
Proof.
  induction fuel as [|fuel IH]; intros N buf HN.
  - exists "". simpl in *. assert (N = 0) as -> by lia.
    repeat split; [intros; simpl; f_equal; lia | lia].
  - simpl. destruct (N =? 0) eqn:HN0.
    + apply Z.eqb_eq in HN0 as ->. exists "".
      repeat split; [intros; simpl; f_equal; lia | lia].
    + apply Z.eqb_neq in HN0.
      assert (Hdiv : 0 <= N / 10 < 10 ^ Z.of_nat fuel).
      { split; [apply Z.div_pos; lia|].
        apply Z.div_lt_upper_bound; [lia|].
        rewrite Nat2Z.inj_succ, Z.pow_succ_r in HN; lia. }
      pose proof (Z.mod_pos_bound N 10 ltac:(lia)) as Hmod.
      pose proof (Z.div_mod N 10 ltac:(lia)) as Hdm.
      destruct (IH (N / 10) (String (digit_char (N mod 10)) buf) Hdiv)
        as (ds & Heq & Hval & Hzero & Hpos).
      exists (ds +:+ String (digit_char (N mod 10)) "").
      split; [|split; [|split]].
      * rewrite Heq. now rewrite string_app_assoc.
      * intros acc rest. rewrite decimal_value_snoc, Hval. simpl.
        rewrite digit_char_value by lia. simpl.
        rewrite string_app_length, Nat2Z.inj_add. simpl String.length.
        rewrite Z.pow_add_r by lia. f_equal. change (10 ^ Z.of_nat 1) with 10. lia.
      * lia.
      * intros _. destruct (Z.eq_dec (N / 10) 0) as [Hz|Hnz].
        -- rewrite (Hzero Hz). eexists _, "". split; [reflexivity|].
           apply digit_char_nonzero. lia.
        -- destruct (Hpos ltac:(lia)) as (c & ds' & -> & Hc).
           exists c, (ds' +:+ String (digit_char (N mod 10)) "").
           split; [reflexivity | exact Hc].
Qed.

Lemma digit_loop_numeral (N : Z) :
  0 < N < 2 ^ 64 -> decimal_numeral (digit_loop 64 N 10 "") N.
Proof.
  intros HN.
  destruct (digit_loop_decimal 64 N "") as (ds & Heq & Hval & _ & Hpos).
  { split; [lia|]. eapply Z.lt_trans; [apply HN | reflexivity]. }
  rewrite Heq, string_app_nil_r.
  destruct (Hpos ltac:(lia)) as (c & ds' & -> & Hc).
  split; [discriminate|]. split.
  - specialize (Hval 0 ""). rewrite string_app_nil_r in Hval.
    rewrite Hval. simpl decimal_value. f_equal; lia.
  - right. simpl. congruence.
Qed.

Lemma isNegative_range (a : APInt) :
  (0 < BitWidth a)%nat -> 0 <= VAL a < 2 ^ Z.of_nat (BitWidth a) ->
  isNegative a = true <-> 2 ^ (Z.of_nat (BitWidth a) - 1) <= VAL a.
Proof.
  intros Hw Hv. unfold isNegative.
  set (w := Z.of_nat (BitWidth a)) in *.
  assert (Hpow : 2 ^ w = 2 * 2 ^ (w - 1)).
  { rewrite <- Z.pow_succ_r by lia. f_equal. lia. }
  assert (Hp : 0 < 2 ^ (w - 1)) by (apply Z.pow_pos_nonneg; lia).
  rewrite Z.testbit_true by lia.
  assert (Hq : 0 <= VAL a / 2 ^ (w - 1) < 2).
  { split; [apply Z.div_pos; lia|]. apply Z.div_lt_upper_bound; lia. }
  split.
  - intros Hbit.
    assert (VAL a / 2 ^ (w - 1) = 1).
    { destruct (Z.eq_dec (VAL a / 2 ^ (w - 1)) 0) as [E|E];
        [rewrite E in Hbit; discriminate | lia]. }
    pose proof (Z.mul_div_le (VAL a) (2 ^ (w - 1)) Hp). lia.
  - intros Hge.
    assert (VAL a / 2 ^ (w - 1) = 1) as ->; [|reflexivity].
    assert (1 <= VAL a / 2 ^ (w - 1)); [|lia].
    apply Z.div_le_lower_bound; lia.
Qed.

Lemma toString_signed_decimal (a : APInt) :
  (0 < BitWidth a <= 64)%nat -> 0 <= VAL a < 2 ^ Z.of_nat (BitWidth a) ->
  (VAL a < 2 ^ (Z.of_nat (BitWidth a) - 1) ->
     decimal_numeral (toString a 10 true) (VAL a)) /\
  (2 ^ (Z.of_nat (BitWidth a) - 1) <= VAL a ->
     exists m, toString a 10 true = "-" +:+ m /\
               decimal_numeral m (2 ^ Z.of_nat (BitWidth a) - VAL a)).
Proof.
  intros Hw Hv.
  pose proof (isNegative_range a ltac:(lia) Hv) as Hneg.
  assert (Hsw : isSingleWord a = true)
    by (apply bool_decide_eq_true_2; lia).
  set (w := Z.of_nat (BitWidth a)) in *.
  assert (Hpow : 2 ^ w = 2 * 2 ^ (w - 1)).
  { rewrite <- Z.pow_succ_r by lia. f_equal. lia. }
  assert (Hp : 0 < 2 ^ (w - 1)) by (apply Z.pow_pos_nonneg; lia).
  assert (H64 : 2 ^ w <= 2 ^ 64) by (apply Z.pow_le_mono_r; lia).
  unfold toString, isZero, getSExtValue. rewrite Hsw. fold w. split.
  - intros Hsmall. destruct (VAL a =? 0) eqn:Hz.
    + apply Z.eqb_eq in Hz. rewrite Hz.
      split; [discriminate|]. split; [reflexivity | now left].
    + apply Z.eqb_neq in Hz.
      destruct (isNegative a) eqn:Hn; [pose proof (proj1 Hneg eq_refl); lia|].
      destruct (0 <=? VAL a) eqn:Hle; [|apply Z.leb_gt in Hle; lia].
      rewrite append_nil_l. apply digit_loop_numeral. lia.
  - intros Hbig. destruct (VAL a =? 0) eqn:Hz; [apply Z.eqb_eq in Hz; lia|].
    destruct (isNegative a) eqn:Hn; [|pose proof (proj2 Hneg Hbig); discriminate].
    destruct (0 <=? VAL a - 2 ^ w) eqn:Hle; [apply Z.leb_le in Hle; lia|].
    eexists. split; [reflexivity|].
    replace (- (VAL a - 2 ^ w)) with (2 ^ w - VAL a) by lia.
    rewrite Z.mod_small by lia. apply digit_loop_numeral. lia.
Qed.

(** The wide path: the digits pushed by the division loop, reversed,
    are those the single-word loop writes from the end of its buffer. *)
Lemma udiv_loop_digit_loop (fuel : nat) : forall Tmp Str,
  string_of_list_ascii (reverse (udiv_loop fuel Tmp 10 Str))
  = digit_loop fuel (VAL Tmp) 10 (string_of_list_ascii (reverse Str)).
Proof.
  induction fuel as [|fuel IH]; intros Tmp Str; simpl; [reflexivity|].
  unfold getBoolValue, isZero. destruct (VAL Tmp =? 0); simpl; [reflexivity|].
  rewrite IH. simpl. now rewrite reverse_snoc.
Qed.

Lemma pow2_le_pow10 (n : nat) : 2 ^ Z.of_nat n <= 10 ^ Z.of_nat n.
Proof. apply Z.pow_le_mono_l. lia. Qed.

Lemma digit_loop_numeral_fuel (fuel : nat) (N : Z) :
  0 < N < 10 ^ Z.of_nat fuel -> decimal_numeral (digit_loop fuel N 10 "") N.
Proof.
  intros HN.
  destruct (digit_loop_decimal fuel N "") as (ds & Heq & Hval & _ & Hpos); [lia|].
  rewrite Heq, string_app_nil_r.
  destruct (Hpos ltac:(lia)) as (c & ds' & -> & Hc).
  split; [discriminate|]. split.
  - specialize (Hval 0 ""). rewrite string_app_nil_r in Hval.
    rewrite Hval. simpl decimal_value. f_equal; lia.
  - right. simpl. congruence.
Qed.

Lemma isNegative_zero_width (a : APInt) :
  BitWidth a = 0%nat -> isNegative a = false.
Proof. intros Hw. unfold isNegative. rewrite Hw. apply Z.testbit_neg_r. lia. Qed.

(** What [toString] prints signed in radix 10, for a pattern of any
    width. *)
Lemma toString_signed_numeral (a : APInt) :
  0 <= VAL a < 2 ^ Z.of_nat (BitWidth a) ->
  (isNegative a = false -> decimal_numeral (toString a 10 true) (VAL a)) /\
  (isNegative a = true ->
     exists m, toString a 10 true = "-" +:+ m /\
               decimal_numeral m (2 ^ Z.of_nat (BitWidth a) - VAL a)) /\
  (isNegative a = true <->
     (0 < BitWidth a)%nat /\ 2 ^ (Z.of_nat (BitWidth a) - 1) <= VAL a).
Proof.
  intros Hv.
  destruct (decide (BitWidth a = 0%nat)) as [Hw0|Hw0].
  { pose proof (isNegative_zero_width a Hw0) as Hn. rewrite Hn.
    assert (Hz : VAL a = 0) by (rewrite Hw0 in Hv; simpl in Hv; lia).
    split; [|split; [discriminate | split; [discriminate | lia]]].
    intros _. unfold toString, isZero. rewrite Hz. simpl.
    split; [discriminate|]. split; [reflexivity | now left]. }
  pose proof (isNegative_range a ltac:(lia) Hv) as Hneg.
  assert (Hiff : isNegative a = true <->
                 (0 < BitWidth a)%nat /\ 2 ^ (Z.of_nat (BitWidth a) - 1) <= VAL a).
  { rewrite Hneg. split; [intros H; split; [lia | exact H] | now intros [_ H]]. }
  destruct (decide (BitWidth a <= 64)%nat) as [Hw|Hw].
  { destruct (toString_signed_decimal a ltac:(lia) Hv) as [Hpos Hmin].
    split; [|split; [|exact Hiff]].
    - intros Hn. apply Hpos.
      destruct (Z.lt_ge_cases (VAL a) (2 ^ (Z.of_nat (BitWidth a) - 1))) as [H|H];
        [exact H | apply Hneg in H; congruence].
    - intros Hn. apply Hmin, Hneg, Hn. }
  assert (Hsw : isSingleWord a = false)
    by (apply bool_decide_eq_false_2; exact Hw).
  pose proof (pow2_le_pow10 (BitWidth a)) as H10.
  split; [|split; [|exact Hiff]].
  - intros Hn. unfold toString, isZero.
    destruct (VAL a =? 0) eqn:Hz.
    + apply Z.eqb_eq in Hz. rewrite Hz.
      split; [discriminate|]. split; [reflexivity | now left].
    + apply Z.eqb_neq in Hz. rewrite Hsw, Hn. cbn [andb].
      rewrite append_nil_l, udiv_loop_digit_loop. simpl.
      apply digit_loop_numeral_fuel. lia.
  - intros Hn. pose proof (proj1 Hneg Hn) as Hbig.
    assert (Hp : 0 < 2 ^ (Z.of_nat (BitWidth a) - 1))
      by (apply Z.pow_pos_nonneg; lia).
    unfold toString, isZero.
    destruct (VAL a =? 0) eqn:Hz; [apply Z.eqb_eq in Hz; lia|].
    rewrite Hsw, Hn. cbn [andb]. eexists. split; [reflexivity|].
    rewrite udiv_loop_digit_loop. simpl.
    replace ((- VAL a) mod 2 ^ Z.of_nat (BitWidth a))
      with (2 ^ Z.of_nat (BitWidth a) - VAL a).
    + apply digit_loop_numeral_fuel. lia.
    + apply Z.mod_unique with (q := -1); lia.
Qed.

(** C4, amended: the key of an eligible integer literal is its bit
    pattern read as a signed number of the literal's width and written
    in decimal without prefix or suffix: the decimal numeral of the
    value when the top bit is clear, and a minus sign followed by the
    numeral of [2^width - value] when it is set.  The literal is of any
    width; [0 <= VAL a < 2 ^ w] says that [a] is a pattern of [w] bits,
    which [APInt] maintains for every value it holds. *)
Theorem integer_literal_key (Context : SourceManager) (L : IntegerLiteral)
    (V : Visitor) :
  let a := IntegerLiteral_getValue L in
  let w := Z.of_nat (BitWidth a) in
  isInMainFile Context (IntegerLiteral_getLocation L) = true ->
  0 <= VAL a < 2 ^ w ->
  exists key,
    (Visit Context (Node_IntegerLiteral L) V).2
      = recordOccurrence key (IntegerLiteral_getLocation L) V /\
    (isNegative a = false -> decimal_numeral key (VAL a)) /\
    (isNegative a = true ->
       exists m, key = "-" +:+ m /\ decimal_numeral m (2 ^ w - VAL a)) /\
    (isNegative a = true <-> (0 < BitWidth a)%nat /\ 2 ^ (w - 1) <= VAL a).
Proof.
  intros a w Hmain Hv.
  exists (toString a 10 true). split.
  - rewrite Visit_classify. simpl. now rewrite Hmain.
  - apply toString_signed_numeral; assumption.
Qed.

Lemma integer_literal_key_witness :
  exists key,
    (Visit (sample_context "auto x = 0x80000000000000000000000000000000uwb;")
       (Node_IntegerLiteral literal_wide) (mkVisitor ∅ ∅ counting_rand)).2
      = recordOccurrence key (FileLoc 1 9) (mkVisitor ∅ ∅ counting_rand) /\
    (isNegative (mkAPInt 128 (2 ^ 127)) = false ->
       decimal_numeral key (2 ^ 127)) /\
    (isNegative (mkAPInt 128 (2 ^ 127)) = true ->
       exists m, key = "-" +:+ m /\
                 decimal_numeral m (2 ^ Z.of_nat 128 - 2 ^ 127)) /\
    (isNegative (mkAPInt 128 (2 ^ 127)) = true <->
       (0 < 128)%nat /\ 2 ^ (Z.of_nat 128 - 1) <= 2 ^ 127).
Proof.
  apply (integer_literal_key
           (sample_context "auto x = 0x80000000000000000000000000000000uwb;")
           literal_wide (mkVisitor ∅ ∅ counting_rand)).
  - vm_compute. reflexivity.
  - split; [vm_compute; discriminate | vm_compute; reflexivity].
Defined.

(** The literal of [unsigned x = 0xFFFFFFFF;] has the value 4294967295
    and is filed under ["-1"]. *)
Lemma unsigned_literal_filed_as_negative :
  nameLocations
    (Visit (sample_context "unsigned x = 0xFFFFFFFF;")
       (Node_IntegerLiteral literal_all_ones) (mkVisitor ∅ ∅ counting_rand)).2
    = {[ "-1" := [FileLoc 1 13] ]} /\
  ~ decimal_numeral "-1" 4294967295.
Proof.
  split; [vm_compute; reflexivity|].
  intros (_ & Hval & _). discriminate Hval.
Qed.

(** ** Composing edits on one buffer *)

Lemma shift_perm (es es' : list Edit) (i : Z) :
  es ≡ₚ es' -> shift es i = shift es' i.
Proof.
  induction 1 as [|e l l' _ IH|e1 e2 l|l1 l2 l3 _ IH1 _ IH2]; simpl;
    [reflexivity | now rewrite IH | lia | congruence].
Qed.

Lemma shift_insert (e : Edit) (S : list Edit) (i : Z) :
  shift (insert_edit e S) i
  = (if 2 * Z.of_nat (e_off e) + 1 <? i then delta e else 0) + shift S i.
Proof.
  induction S as [|e1 S IH]; simpl; [reflexivity|].
  destruct (e_off e <? e_off e1)%nat; simpl; [reflexivity | rewrite IH; lia].
Qed.

Lemma shift_none_before (S : list Edit) (o : nat) :
  Forall (fun e' => (o <= e_off e')%nat) S -> shift S (2 * Z.of_nat o + 1) = 0.
Proof.
  induction 1 as [|e' S He _ IH]; simpl; [reflexivity|].
  rewrite IH. destruct (_ <? _) eqn:Hlt; [apply Z.ltb_lt in Hlt; lia | reflexivity].
Qed.

Lemma insert_edit_perm (e : Edit) (S : list Edit) : insert_edit e S ≡ₚ e :: S.
Proof.
  induction S as [|e1 S IH]; simpl; [reflexivity|].
  destruct (e_off e <? e_off e1)%nat; [reflexivity|].
  rewrite IH. apply perm_swap.
Qed.

Lemma Forall_insert_edit (P : Edit -> Prop) (e : Edit) (S : list Edit) :
  Forall P (insert_edit e S) <-> P e /\ Forall P S.
Proof. now rewrite (insert_edit_perm e S), Forall_cons. Qed.

Lemma apart_sym (e1 e2 : Edit) : apart e1 e2 -> apart e2 e1.
Proof. unfold apart. tauto. Qed.

Lemma sorted_edits_bounds (S : list Edit) : forall lo hi,
  sorted_edits lo hi S ->
  Forall (fun e => (lo <= e_off e /\ e_off e + e_len e <= hi)%nat) S.
Proof.
  induction S as [|e S IH]; intros lo hi Hs; [constructor|].
  destruct Hs as (Hlo & Hhi & _ & Hrest). constructor; [lia|].
  eapply Forall_impl; [apply (IH _ _ Hrest)|]. simpl. intros e'. lia.
Qed.

(** Erasing and inserting at the same place is one replacement. *)
Lemma rope_replace (r l : nat) (s buf : list ascii) :
  (r + l <= length buf)%nat ->
  rope_insert r s (rope_erase r l buf) = (take r buf ++ s ++ drop (r + l) buf)%list.
Proof.
  intros Hr. unfold rope_insert, rope_erase.
  rewrite take_app_length' by (rewrite length_take; lia).
  rewrite drop_app_length' by (rewrite length_take; lia).
  reflexivity.
Qed.

(** The edit [e], made on the text that already holds the sorted edits
    [S], lands where [e] belongs among them. *)
Lemma splice_insert (S : list Edit) : forall c b e,
  sorted_edits c (c + length b) S ->
  (c <= e_off e)%nat -> (e_off e + e_len e <= c + length b)%nat ->
  Forall (apart e) S ->
  let r := Z.of_nat (e_off e) - Z.of_nat c + shift S (2 * Z.of_nat (e_off e) + 1) in
  0 <= r /\
  r + Z.of_nat (e_len e) <= Z.of_nat (length (splice c b S)) /\
  (take (Z.to_nat r) (splice c b S) ++ list_ascii_of_string (e_new e)
   ++ drop (Z.to_nat r + e_len e) (splice c b S))%list
  = splice c b (insert_edit e S) /\
  sorted_edits c (c + length b) (insert_edit e S).
Proof.
  induction S as [|e1 S IH]; intros c b e Hs Hlo Hhi Hap; cbv zeta.
  - simpl. rewrite Z.add_0_r.
    replace (Z.to_nat (Z.of_nat (e_off e) - Z.of_nat c)) with (e_off e - c)%nat by lia.
    repeat split; try lia. constructor.
  - destruct Hs as (Hlo1 & Hhi1 & Hlt1 & Hs').
    apply Forall_cons in Hap as [Hap1 Hap].
    simpl insert_edit. destruct (e_off e <? e_off e1)%nat eqn:Hcmp.
    + apply Nat.ltb_lt in Hcmp.
      assert (Hend : (e_off e + e_len e <= e_off e1)%nat)
        by (destruct Hap1 as [[? ?]|[? ?]]; lia).
      rewrite shift_none_before
        by (constructor; [lia | eapply Forall_impl; [exact Hlt1 | simpl; intros; lia]]).
      rewrite Z.add_0_r.
      replace (Z.to_nat (Z.of_nat (e_off e) - Z.of_nat c)) with (e_off e - c)%nat by lia.
      split; [lia|]. split.
      { simpl. rewrite length_app, length_take. lia. }
      split.
      { simpl splice.
        rewrite take_app_le by (rewrite length_take; lia).
        rewrite take_take, Nat.min_l by lia.
        rewrite drop_app_le by (rewrite length_take; lia).
        rewrite take_drop_commute, drop_drop.
        replace (e_off e - c + e_len e + (e_off e1 - (e_off e + e_len e)))%nat
          with (e_off e1 - c)%nat by lia.
        replace (e_off e - c + e_len e + (e_off e1 - (e_off e + e_len e) + e_len e1))%nat
          with (e_off e1 - c + e_len e1)%nat by lia.
        reflexivity. }
      simpl. repeat split; try lia; try assumption.
      constructor; [lia|]. eapply Forall_impl; [exact Hlt1|]. simpl. intros. lia.
    + apply Nat.ltb_ge in Hcmp.
      assert (Hend : (e_off e1 + e_len e1 <= e_off e /\ e_off e1 < e_off e)%nat)
        by (destruct Hap1 as [[? ?]|[? ?]]; lia).
      set (c' := (e_off e1 + e_len e1)%nat).
      set (b' := drop (e_off e1 - c + e_len e1) b).
      assert (Hb' : (c' + length b' = c + length b)%nat)
        by (unfold b', c'; rewrite length_drop; lia).
      destruct (IH c' b' e) as (Hr0 & Hr1 & Hsp & Hso);
        [rewrite Hb'; exact Hs' | unfold c'; lia | lia | exact Hap |].
      cbv zeta in Hr0, Hr1, Hsp.
      set (r' := Z.of_nat (e_off e) - Z.of_nat c' + shift S (2 * Z.of_nat (e_off e) + 1)) in *.
      simpl shift.
      destruct (2 * Z.of_nat (e_off e1) + 1 <? 2 * Z.of_nat (e_off e) + 1) eqn:Hlt;
        [|apply Z.ltb_ge in Hlt; lia].
      simpl splice. fold c' b'.
      set (T := splice c' b' S) in *.
      set (P := (take (e_off e1 - c) b ++ list_ascii_of_string (e_new e1))%list).
      assert (HP : length P = (e_off e1 - c + String.length (e_new e1))%nat).
      { unfold P. rewrite length_app, length_take, list_of_string_length. lia. }
      assert (Hr : Z.to_nat (Z.of_nat (e_off e) - Z.of_nat c
                             + (delta e1 + shift S (2 * Z.of_nat (e_off e) + 1)))
                   = (length P + Z.to_nat r')%nat).
      { rewrite HP. unfold r', delta, c'. lia. }
      replace (take (e_off e1 - c) b ++ list_ascii_of_string (e_new e1) ++ T)%list
        with (P ++ T)%list by (unfold P; now rewrite <- app_assoc).
      rewrite Hr. split; [unfold r', delta, c' in *; lia|]. split.
      { rewrite length_app, HP. unfold r', delta, c' in *. lia. }
      split.
      { rewrite take_app_add, <- Nat.add_assoc, drop_app_add, <- app_assoc.
        rewrite Hsp. unfold P. now rewrite <- app_assoc. }
      simpl. repeat split; try lia.
      * apply Forall_insert_edit. split; [lia | exact Hlt1].
      * fold c'. rewrite <- Hb'. exact Hso.
Qed.

Lemma getDeltaAt_replace (rb : RewriteBuffer) (e : Edit) (i : Z) :
  getDeltaAt
    (if bool_decide (e_len e = String.length (e_new e)) then Deltas rb
     else AddReplaceDelta (Deltas rb) (Z.of_nat (e_off e))
            (Z.of_nat (String.length (e_new e)) - Z.of_nat (e_len e))) i
  = (if 2 * Z.of_nat (e_off e) + 1 <? i then delta e else 0)
    + getDeltaAt (Deltas rb) i.
Proof.
  unfold delta. case_bool_decide as Hlen; simpl.
  - rewrite Hlen. destruct (_ <? _); lia.
  - reflexivity.
Qed.

Lemma apply_edits_cons (rb : RewriteBuffer) (e : Edit) (es : list Edit) :
  apply_edits rb (e :: es)
  = match RewriteBuffer_ReplaceText rb (e_off e) (e_len e) (e_new e) with
    | Some rb' => apply_edits rb' es
    | None => None
    end.
Proof.
  unfold apply_edits. simpl.
  destruct (RewriteBuffer_ReplaceText rb _ _ _); [reflexivity|].
  induction es as [|e' es IH]; simpl; [reflexivity | exact IH].
Qed.


(** One edit apart from the sorted edits already made. *)
Lemma replace_text_sorted (text : list ascii) (rb : RewriteBuffer) (S : list Edit)
    (e : Edit) :
  sorted_edits 0 (length text) S ->
  Buffer rb = splice 0 text S ->
  (forall i, getDeltaAt (Deltas rb) i = shift S i) ->
  (e_off e + e_len e <= length text)%nat ->
  Forall (apart e) S ->
  exists rb',
    RewriteBuffer_ReplaceText rb (e_off e) (e_len e) (e_new e) = Some rb' /\
    Buffer rb' = splice 0 text (insert_edit e S) /\
    (forall i, getDeltaAt (Deltas rb') i = shift (insert_edit e S) i) /\
    sorted_edits 0 (length text) (insert_edit e S).
Proof.
  intros Hs Hbuf Hd Hin Hap.
  destruct (splice_insert S 0 text e Hs ltac:(lia) ltac:(simpl; lia) Hap)
    as (Hr0 & Hr1 & Hsp & Hso).
  cbv zeta in Hr0, Hr1, Hsp. simpl Z.of_nat in *.
  unfold RewriteBuffer_ReplaceText, getMappedOffset.
  rewrite Hd, Hbuf.
  replace (shift S (2 * Z.of_nat (e_off e) + 1) + Z.of_nat (e_off e))
    with (Z.of_nat (e_off e) - 0 + shift S (2 * Z.of_nat (e_off e) + 1)) by lia.
  rewrite bool_decide_eq_true_2 by (split; assumption).
  eexists. split; [reflexivity|]. simpl Buffer. simpl Deltas.
  split; [|split; [|exact Hso]].
  - rewrite rope_replace by lia. exact Hsp.
  - intros i. rewrite getDeltaAt_replace, shift_insert, Hd. reflexivity.
Qed.

(** A sequence of edits that are pairwise apart and apart from the
    sorted edits already made composes into the sorted list of all of
    them. *)
Lemma apply_edits_sorted (text : list ascii) (es : list Edit) : forall S rb,
  sorted_edits 0 (length text) S ->
  Buffer rb = splice 0 text S ->
  (forall i, getDeltaAt (Deltas rb) i = shift S i) ->
  Forall (fun e => (e_off e + e_len e <= length text)%nat) es ->
  pairwise_apart es ->
  Forall (fun e => Forall (apart e) S) es ->
  exists rb',
    apply_edits rb es = Some rb' /\
    Buffer rb' = splice 0 text (foldl (fun S e => insert_edit e S) S es) /\
    (forall i, getDeltaAt (Deltas rb') i
               = shift (foldl (fun S e => insert_edit e S) S es) i) /\
    sorted_edits 0 (length text) (foldl (fun S e => insert_edit e S) S es).
Proof.
  induction es as [|e es IH]; intros S rb Hs Hbuf Hd Hin Hpw Hap.
  - exists rb. simpl. auto.
  - apply Forall_cons in Hin as [Hin1 Hin].
    apply Forall_cons in Hap as [Hap1 Hap].
    destruct Hpw as [Hpw1 Hpw].
    destruct (replace_text_sorted text rb S e Hs Hbuf Hd Hin1 Hap1)
      as (rb1 & H1 & Hbuf1 & Hd1 & Hs1).
    destruct (IH (insert_edit e S) rb1 Hs1 Hbuf1 Hd1 Hin Hpw) as (rb' & Hrun & Hrest).
    + apply Forall_forall. intros e' He'. apply Forall_insert_edit. split.
      * apply apart_sym. rewrite Forall_forall in Hpw1. now apply Hpw1.
      * rewrite Forall_forall in Hap. now apply Hap.
    + exists rb'. rewrite apply_edits_cons, H1. simpl. auto.
Qed.

Lemma foldl_insert_perm (es : list Edit) : forall S,
  foldl (fun S e => insert_edit e S) S es ≡ₚ (S ++ es)%list.
Proof.
  induction es as [|e es IH]; intros S; simpl; [now rewrite app_nil_r|].
  rewrite IH, insert_edit_perm. simpl. apply Permutation_middle.
Qed.

Lemma sort_edits_perm (es : list Edit) : sort_edits es ≡ₚ es.
Proof. unfold sort_edits. now rewrite foldl_insert_perm. Qed.

(** The edits of one file compose into the splice of their sorted list. *)
Lemma apply_edits_splice (text : list ascii) (es : list Edit) :
  edits_ok text es ->
  exists rb',
    apply_edits (Initialize text) es = Some rb' /\
    Buffer rb' = splice 0 text (sort_edits es) /\
    (forall i, getDeltaAt (Deltas rb') i = shift es i) /\
    sorted_edits 0 (length text) (sort_edits es).
Proof.
  intros [Hin Hpw].
  destruct (apply_edits_sorted text es [] (Initialize text)) as (rb' & Hrun & Hb & Hd & Hs);
    try assumption; try reflexivity; try exact I.
  { apply Forall_forall. intros. constructor. }
  exists rb'. repeat split; try assumption.
  intros i. rewrite Hd. apply shift_perm, sort_edits_perm.
Qed.

Lemma shift_none (S : list Edit) (i : Z) :
  Forall (fun e' => i <= 2 * Z.of_nat (e_off e') + 1) S -> shift S i = 0.
Proof.
  induction 1 as [|e' S He _ IH]; simpl; [reflexivity|].
  rewrite IH. destruct (_ <? _) eqn:Hlt; [apply Z.ltb_lt in Hlt; lia | reflexivity].
Qed.

(** In the spliced text the new string of every edit stands at the
    edit's offset moved by the deltas of the edits before it. *)
Lemma splice_at_edit (S : list Edit) : forall c b e,
  sorted_edits c (c + length b) S -> e ∈ S ->
  let r := Z.of_nat (e_off e) - Z.of_nat c + shift S (2 * Z.of_nat (e_off e) + 1) in
  0 <= r /\
  take (String.length (e_new e)) (drop (Z.to_nat r) (splice c b S))
  = list_ascii_of_string (e_new e).
Proof.
  induction S as [|e1 S IH]; intros c b e Hs Hin; cbv zeta; [inversion Hin|].
  destruct Hs as (Hlo1 & Hhi1 & Hlt1 & Hs').
  apply elem_of_cons in Hin as [->|Hin].
  - simpl shift.
    destruct (2 * Z.of_nat (e_off e1) + 1 <? 2 * Z.of_nat (e_off e1) + 1) eqn:Hlt;
      [apply Z.ltb_lt in Hlt; lia|].
    rewrite shift_none
      by (eapply Forall_impl; [exact Hlt1 | simpl; intros; lia]).
    split; [lia|].
    replace (Z.to_nat (Z.of_nat (e_off e1) - Z.of_nat c + (0 + 0)))
      with (e_off e1 - c)%nat by lia.
    simpl splice. rewrite drop_app_length' by (rewrite length_take; lia).
    rewrite take_app_length' by (now rewrite list_of_string_length).
    reflexivity.
  - set (c' := (e_off e1 + e_len e1)%nat).
    set (b' := drop (e_off e1 - c + e_len e1) b).
    assert (Hb' : (c' + length b' = c + length b)%nat)
      by (unfold b', c'; rewrite length_drop; lia).
    assert (Hafter : (e_off e1 < e_off e /\ c' <= e_off e)%nat).
    { split; [rewrite Forall_forall in Hlt1; now apply Hlt1|].
      pose proof (sorted_edits_bounds _ _ _ Hs') as Hb.
      rewrite Forall_forall in Hb. apply (Hb e Hin). }
    destruct (IH c' b' e) as (Hr0 & Htake); [rewrite Hb'; exact Hs' | exact Hin |].
    cbv zeta in Hr0, Htake.
    set (r' := Z.of_nat (e_off e) - Z.of_nat c' + shift S (2 * Z.of_nat (e_off e) + 1)) in *.
    simpl shift.
    destruct (2 * Z.of_nat (e_off e1) + 1 <? 2 * Z.of_nat (e_off e) + 1) eqn:Hlt;
      [|apply Z.ltb_ge in Hlt; lia].
    simpl splice. fold c' b'.
    set (P := (take (e_off e1 - c) b ++ list_ascii_of_string (e_new e1))%list).
    assert (HP : length P = (e_off e1 - c + String.length (e_new e1))%nat).
    { unfold P. rewrite length_app, length_take, list_of_string_length. lia. }
    assert (Hr : Z.to_nat (Z.of_nat (e_off e) - Z.of_nat c
                           + (delta e1 + shift S (2 * Z.of_nat (e_off e) + 1)))
                 = (length P + Z.to_nat r')%nat).
    { rewrite HP. unfold r', delta, c'. lia. }
    rewrite Hr. split; [unfold r', delta, c' in *; lia|].
    replace (take (e_off e1 - c) b ++ list_ascii_of_string (e_new e1)
             ++ splice c' b' S)%list
      with (P ++ splice c' b' S)%list by (unfold P; now rewrite <- app_assoc).
    rewrite drop_app_add. exact Htake.
Qed.

(** A character no edit covers is found at its offset moved by the
    deltas of the edits at or before it. *)
Lemma splice_untouched (S : list Edit) : forall c b p,
  sorted_edits c (c + length b) S -> (c <= p)%nat -> untouched S p ->
  let r := Z.of_nat p - Z.of_nat c + shift S (2 * Z.of_nat p + 2) in
  0 <= r /\ splice c b S !! Z.to_nat r = b !! (p - c)%nat.
Proof.
  induction S as [|e1 S IH]; intros c b p Hs Hp Hun; cbv zeta.
  - simpl. split; [lia|]. f_equal. lia.
  - destruct Hs as (Hlo1 & Hhi1 & Hlt1 & Hs').
    apply Forall_cons in Hun as [Hun1 Hun].
    destruct (decide (p < e_off e1)%nat) as [Hbefore|Hnot].
    + rewrite shift_none.
      2:{ constructor; [lia|]. eapply Forall_impl; [exact Hlt1|]. simpl. intros. lia. }
      split; [lia|].
      replace (Z.to_nat (Z.of_nat p - Z.of_nat c + 0)) with (p - c)%nat by lia.
      simpl splice. rewrite lookup_app_l by (rewrite length_take; lia).
      apply lookup_take_lt. lia.
    + assert (Hafter : (e_off e1 + e_len e1 <= p)%nat) by lia.
      set (c' := (e_off e1 + e_len e1)%nat).
      set (b' := drop (e_off e1 - c + e_len e1) b).
      assert (Hb' : (c' + length b' = c + length b)%nat)
        by (unfold b', c'; rewrite length_drop; lia).
      destruct (IH c' b' p) as (Hr0 & Hlook);
        [rewrite Hb'; exact Hs' | unfold c'; lia | exact Hun |].
      cbv zeta in Hr0, Hlook.
      set (r' := Z.of_nat p - Z.of_nat c' + shift S (2 * Z.of_nat p + 2)) in *.
      simpl shift.
      destruct (2 * Z.of_nat (e_off e1) + 1 <? 2 * Z.of_nat p + 2) eqn:Hlt;
        [|apply Z.ltb_ge in Hlt; lia].
      simpl splice. fold c' b'.
      set (P := (take (e_off e1 - c) b ++ list_ascii_of_string (e_new e1))%list).
      assert (HP : length P = (e_off e1 - c + String.length (e_new e1))%nat).
      { unfold P. rewrite length_app, length_take, list_of_string_length. lia. }
      assert (Hr : Z.to_nat (Z.of_nat p - Z.of_nat c
                             + (delta e1 + shift S (2 * Z.of_nat p + 2)))
                   = (length P + Z.to_nat r')%nat).
      { rewrite HP. unfold r', delta, c'. lia. }
      rewrite Hr. split; [unfold r', delta, c' in *; lia|].
      replace (take (e_off e1 - c) b ++ list_ascii_of_string (e_new e1)
               ++ splice c' b' S)%list
        with (P ++ splice c' b' S)%list by (unfold P; now rewrite <- app_assoc).
      rewrite lookup_app_r by lia.
      replace (length P + Z.to_nat r' - length P)%nat with (Z.to_nat r') by lia.
      rewrite Hlook. unfold b'. rewrite lookup_drop. f_equal. unfold c'. lia.
Qed.

(** ** From the rewriter to the buffers of its files *)

Lemma run_calls_cons (R : Rewriter) (call : SourceLocation * nat * string)
    (calls : list (SourceLocation * nat * string)) :
  run_calls R (call :: calls)
  = match Rewriter_ReplaceText R call.1.1 call.1.2 call.2 with
    | Some res => run_calls res.2 calls
    | None => None
    end.
Proof.
  unfold run_calls. simpl.
  destruct (Rewriter_ReplaceText R _ _ _); [reflexivity|].
  induction calls as [|c calls IH]; simpl; [reflexivity | exact IH].
Qed.

Lemma ReplaceReferences_run_calls {U : UnorderedOrder} (V : Visitor) (R : Rewriter) :
  ReplaceReferences V R = run_calls R (pendingEdits V).
Proof.
  unfold ReplaceReferences, run_calls, pendingEdits.
  generalize (Some R) as acc. generalize (entries (aliases V)) as l.
  induction l as [|entry l IH]; intros acc; [reflexivity|].
  rewrite bind_cons, foldl_app. simpl foldl at 1. rewrite IH. f_equal.
  generalize (default [] (nameLocations V !! entry.1)) as locs.
  intros locs. revert acc.
  induction locs as [|loc locs IHl]; intros acc; [reflexivity|].
  simpl. apply IHl.
Qed.

Lemma getEditBuffer_insert_eq (R : Rewriter) (f : FileID) (rb : RewriteBuffer) :
  getEditBuffer (mkRewriter (SourceMgr R) (<[f := rb]> (RewriteBuffers R))) f = rb.
Proof. unfold getEditBuffer. simpl. now rewrite lookup_insert_eq. Qed.

Lemma getEditBuffer_insert_ne (R : Rewriter) (f f' : FileID) (rb : RewriteBuffer) :
  f <> f' ->
  getEditBuffer (mkRewriter (SourceMgr R) (<[f := rb]> (RewriteBuffers R))) f'
  = getEditBuffer R f'.
Proof. intros Hne. unfold getEditBuffer. simpl. now rewrite lookup_insert_ne. Qed.

Lemma file_edits_cons_file f o l s calls :
  file_edits f ((FileLoc f o, l, s) :: calls) = mkEdit o l s :: file_edits f calls.
Proof. unfold file_edits, edit_of_call. simpl. now rewrite decide_True. Qed.

Lemma file_edits_cons_other f f' o l s calls :
  f' <> f -> file_edits f ((FileLoc f' o, l, s) :: calls) = file_edits f calls.
Proof. intros Hne. unfold file_edits, edit_of_call. simpl. now rewrite decide_False. Qed.

(** Whatever a run of calls leaves in the buffer of a file is what the
    calls on that file make of the buffer alone. *)
Lemma run_calls_project (calls : list (SourceLocation * nat * string)) :
  forall R R', run_calls R calls = Some R' ->
  SourceMgr R' = SourceMgr R /\
  forall f, apply_edits (getEditBuffer R f) (file_edits f calls)
            = Some (getEditBuffer R' f).
Proof.
  induction calls as [|[[loc l] s] calls IH]; intros R R' Hrun.
  - injection Hrun as <-. split; reflexivity.
  - rewrite run_calls_cons in Hrun. simpl in Hrun.
    unfold Rewriter_ReplaceText in Hrun.
    destruct loc as [f0 o|f0 o]; simpl in Hrun.
    + destruct (RewriteBuffer_ReplaceText (getEditBuffer R f0) o l s) as [rb|] eqn:Hrb;
        simpl in Hrun; [|discriminate].
      destruct (IH _ _ Hrun) as [HSM Hf]. split; [exact HSM|].
      intros f. destruct (decide (f0 = f)) as [->|Hne].
      * rewrite file_edits_cons_file, apply_edits_cons. simpl. rewrite Hrb.
        rewrite <- Hf. now rewrite getEditBuffer_insert_eq.
      * rewrite file_edits_cons_other by exact Hne.
        rewrite <- Hf. now rewrite getEditBuffer_insert_ne.
    + destruct (IH _ _ Hrun) as [HSM Hf]. split; [exact HSM|].
      intros f. exact (Hf f).
Qed.

(** The run goes through when the edits of every file do. *)
Lemma run_calls_succeeds (calls : list (SourceLocation * nat * string)) :
  forall R,
  (forall f, is_Some (apply_edits (getEditBuffer R f) (file_edits f calls))) ->
  is_Some (run_calls R calls).
Proof.
  induction calls as [|[[loc l] s] calls IH]; intros R Hall; [now exists R|].
  rewrite run_calls_cons. simpl. unfold Rewriter_ReplaceText.
  destruct loc as [f0 o|f0 o]; simpl.
  - pose proof (Hall f0) as H0.
    rewrite file_edits_cons_file, apply_edits_cons in H0. simpl in H0.
    destruct (RewriteBuffer_ReplaceText (getEditBuffer R f0) o l s) as [rb|] eqn:Hrb;
      [|destruct H0; discriminate].
    simpl. apply IH. intros f. destruct (decide (f0 = f)) as [->|Hne].
    + now rewrite getEditBuffer_insert_eq.
    + rewrite getEditBuffer_insert_ne by exact Hne.
      specialize (Hall f). now rewrite file_edits_cons_other in Hall.
  - apply IH. exact Hall.
Qed.

(** ** The rewritten text *)

Lemma pendingEdits_elem {U : UnorderedOrder} (V : Visitor) call :
  call ∈ pendingEdits V <->
  exists k a loc,
    aliases V !! k = Some a /\ loc ∈ default [] (nameLocations V !! k) /\
    call = (loc, String.length k, a).
Proof.
  unfold pendingEdits. rewrite list_elem_of_bind. split.
  - intros ([k a] & Hin & Hentry). apply entries_lookup in Hentry.
    apply list_elem_of_fmap in Hin as (loc & -> & Hloc). simpl in *. eauto 6.
  - intros (k & a & loc & Hk & Hloc & ->). exists (k, a). split.
    + apply list_elem_of_fmap. exists loc. split; [reflexivity | exact Hloc].
    + now apply entries_lookup.
Qed.

Lemma file_edits_elem (f : FileID) calls (e : Edit) :
  e ∈ file_edits f calls <->
  (FileLoc f (e_off e), e_len e, e_new e) ∈ calls.
Proof.
  unfold file_edits. rewrite list_elem_of_omap. split.
  - intros ([[loc l] s] & Hin & Hedit). unfold edit_of_call in Hedit. simpl in Hedit.
    destruct loc as [f' o|f' o]; [|discriminate].
    destruct (decide (f' = f)) as [->|]; [|discriminate].
    injection Hedit as <-. exact Hin.
  - intros Hin. eexists. split; [exact Hin|].
    unfold edit_of_call. simpl. rewrite decide_True by reflexivity.
    now destruct e.
Qed.

Lemma getEditBuffer_fresh (SM : SourceManager) (f : FileID) :
  getEditBuffer (mkRewriter SM ∅) f = Initialize (getBufferData SM f).
Proof. unfold getEditBuffer. simpl. now rewrite lookup_empty. Qed.

(** When the edits of every file can be composed, the run of
    [ReplaceReferences] goes through and leaves in every file the splice
    of the file's sorted edits. *)
Lemma ReplaceReferences_splice {U : UnorderedOrder} (SM : SourceManager) (V : Visitor) :
  (forall f, edits_ok (getBufferData SM f) (file_edits f (pendingEdits V))) ->
  exists R',
    ReplaceReferences V (mkRewriter SM ∅) = Some R' /\
    SourceMgr R' = SM /\
    forall f,
      Buffer (getEditBuffer R' f)
        = splice 0 (getBufferData SM f) (sort_edits (file_edits f (pendingEdits V))) /\
      (forall i, getDeltaAt (Deltas (getEditBuffer R' f)) i
                 = shift (file_edits f (pendingEdits V)) i) /\
      sorted_edits 0 (length (getBufferData SM f))
        (sort_edits (file_edits f (pendingEdits V))).
Proof.
  intros Hok. rewrite ReplaceReferences_run_calls.
  destruct (run_calls_succeeds (pendingEdits V) (mkRewriter SM ∅)) as [R' HR'].
  { intros f. rewrite getEditBuffer_fresh.
    destruct (apply_edits_splice _ _ (Hok f)) as (rb' & Hrun & _). eauto. }
  exists R'. split; [exact HR'|].
  destruct (run_calls_project _ _ _ HR') as [HSM Hf]. split; [exact HSM|].
  intros f. specialize (Hf f). rewrite getEditBuffer_fresh in Hf.
  destruct (apply_edits_splice _ _ (Hok f)) as (rb' & Hrun & Hbuf & Hd & Hs).
  rewrite Hrun in Hf. injection Hf as <-. auto.
Qed.

Lemma spliced_spans_hold {U : UnorderedOrder} (SM : SourceManager) (V : Visitor)
    (R' : Rewriter) (f : FileID) :
  Buffer (getEditBuffer R' f)
    = splice 0 (getBufferData SM f) (sort_edits (file_edits f (pendingEdits V))) ->
  (forall i, getDeltaAt (Deltas (getEditBuffer R' f)) i
             = shift (file_edits f (pendingEdits V)) i) ->
  sorted_edits 0 (length (getBufferData SM f))
    (sort_edits (file_edits f (pendingEdits V))) ->
  spans_hold_aliases V R' f /\ bytes_outside_unchanged SM V R' f.
Proof.
  intros Hbuf Hd Hs. split.
  - intros k a o Hk Hloc.
    assert (Hin : mkEdit o (String.length k) a
                  ∈ sort_edits (file_edits f (pendingEdits V))).
    { rewrite sort_edits_perm. apply file_edits_elem. simpl.
      apply pendingEdits_elem. eauto 6. }
    destruct (splice_at_edit _ 0 (getBufferData SM f) _ Hs Hin) as [Hr0 Htake].
    cbv zeta in Hr0, Htake. simpl e_off in *. simpl e_new in *.
    unfold mapped_start, getMappedOffset. rewrite Hd, Hbuf.
    rewrite (shift_perm _ _ _ (sort_edits_perm _)) in Htake.
    rewrite <- Htake. do 3 f_equal. simpl. lia.
  - intros p Hp Hout.
    assert (Hun : untouched (sort_edits (file_edits f (pendingEdits V))) p).
    { unfold untouched. rewrite sort_edits_perm. apply Forall_forall.
      intros e He. apply file_edits_elem, pendingEdits_elem in He
        as (k & a & loc & Hk & Hloc & Heq).
      injection Heq as <- Hlen _. rewrite Hlen. now apply (Hout k). }
    destruct (splice_untouched _ 0 (getBufferData SM f) p Hs ltac:(lia) Hun)
      as [Hr0 Hlook].
    cbv zeta in Hr0, Hlook.
    rewrite (shift_perm _ _ _ (sort_edits_perm _)) in Hr0, Hlook.
    unfold mapped_char, getMappedOffset. rewrite Hd, Hbuf.
    replace (2 * (Z.of_nat p + 1) + 0) with (2 * Z.of_nat p + 2) by lia.
    rewrite Nat.sub_0_r in Hlook. rewrite <- Hlook. f_equal. simpl. lia.
Qed.


(** The hypothesis on every file follows from the files that have calls. *)
Lemma edits_ok_by_file (SM : SourceManager) calls :
  Forall (fun f => edits_ok (getBufferData SM f) (file_edits f calls)) (call_files calls) ->
  forall f, edits_ok (getBufferData SM f) (file_edits f calls).
Proof.
  intros Hall f. destruct (decide (f ∈ call_files calls)) as [Hin|Hnot].
  - rewrite Forall_forall in Hall. now apply Hall.
  - assert (Hnil : file_edits f calls = []).
    { destruct (file_edits f calls) as [|e es] eqn:Heq; [reflexivity|].
      exfalso. apply Hnot.
      assert (He : e ∈ file_edits f calls) by (rewrite Heq; left).
      apply file_edits_elem in He. unfold call_files.
      apply list_elem_of_omap. eexists. split; [exact He | reflexivity]. }
    rewrite Hnil. split; [constructor | exact I].
Qed.

Ltac solve_edits_ok :=
  vm_compute;
  repeat match goal with
         | |- _ /\ _ => split
         | |- Forall _ [] => apply Forall_nil
         | |- Forall _ (_ :: _) => apply Forall_cons
         | |- True => exact I
         | |- _ => lia
         end.


(** Any two orders of walking the map make the same calls, up to order. *)
Lemma pendingEdits_perm (U1 U2 : UnorderedOrder) (V : Visitor) :
  @pendingEdits U1 V ≡ₚ @pendingEdits U2 V.
Proof.
  unfold pendingEdits. apply bind_Permutation.
  rewrite (@entries_perm U1), (@entries_perm U2). reflexivity.
Qed.

Lemma file_edits_perm (f : FileID) calls calls' :
  calls ≡ₚ calls' -> file_edits f calls ≡ₚ file_edits f calls'.
Proof. intros H. unfold file_edits. now rewrite H. Qed.




(** ** The sorted list does not depend on the order of the calls *)

Lemma insert_edit_comm (e1 e2 : Edit) (S : list Edit) :
  e_off e1 <> e_off e2 ->
  insert_edit e1 (insert_edit e2 S) = insert_edit e2 (insert_edit e1 S).
Proof.
  intros Hne. induction S as [|e S IH]; simpl.
  - destruct (e_off e1 <? e_off e2)%nat eqn:H12;
      destruct (e_off e2 <? e_off e1)%nat eqn:H21; try reflexivity;
      [apply Nat.ltb_lt in H12, H21; lia | apply Nat.ltb_ge in H12, H21; lia].
  - destruct (e_off e1 <? e_off e)%nat eqn:H1;
      destruct (e_off e2 <? e_off e)%nat eqn:H2; simpl; rewrite ?H1, ?H2.
    + destruct (e_off e1 <? e_off e2)%nat eqn:H12;
        destruct (e_off e2 <? e_off e1)%nat eqn:H21; simpl; rewrite ?H1, ?H2;
        try reflexivity;
        [apply Nat.ltb_lt in H12, H21; lia | apply Nat.ltb_ge in H12, H21; lia].
    + destruct (e_off e2 <? e_off e1)%nat eqn:H21; [|reflexivity].
      apply Nat.ltb_lt in H1, H21. apply Nat.ltb_ge in H2. lia.
    + destruct (e_off e1 <? e_off e2)%nat eqn:H12; [|reflexivity].
      apply Nat.ltb_lt in H2, H12. apply Nat.ltb_ge in H1. lia.
    + now rewrite IH.
Qed.

Lemma foldl_insert_perm_eq (es es' : list Edit) :
  es ≡ₚ es' -> NoDup (e_off <$> es) ->
  forall S, foldl (fun S e => insert_edit e S) S es
            = foldl (fun S e => insert_edit e S) S es'.
Proof.
  induction 1 as [|e l l' Hp IH|e1 e2 l|l1 l2 l3 Hp1 IH1 Hp2 IH2];
    intros Hnd S; simpl.
  - reflexivity.
  - apply IH. now apply NoDup_cons in Hnd as [_ Hnd].
  - f_equal. apply insert_edit_comm.
    simpl in Hnd. apply NoDup_cons in Hnd as [Hnotin _].
    intros Heq. apply Hnotin. rewrite Heq. left.
  - rewrite IH1 by exact Hnd. apply IH2. now rewrite <- Hp1.
Qed.

Lemma pairwise_apart_offsets (es : list Edit) :
  pairwise_apart es -> NoDup (e_off <$> es).
Proof.
  induction es as [|e es IH]; simpl; [constructor|].
  intros [Hall Hpw]. constructor; [|now apply IH].
  intros Hin. apply list_elem_of_fmap in Hin as (e' & Heq & He').
  rewrite Forall_forall in Hall. specialize (Hall e' He').
  unfold apart in Hall. lia.
Qed.

Lemma pairwise_apart_perm (es es' : list Edit) :
  es ≡ₚ es' -> pairwise_apart es -> pairwise_apart es'.
Proof.
  induction 1 as [|e l l' Hp IH|e1 e2 l|l1 l2 l3 Hp1 IH1 Hp2 IH2]; simpl.
  - trivial.
  - intros [Hall Hpw]. split; [now rewrite <- Hp | now apply IH].
  - intros [Hall1 [Hall2 Hpw]]. apply Forall_cons in Hall1 as [H12 Hall1].
    repeat split; try assumption. constructor; [now apply apart_sym | assumption].
  - auto.
Qed.

Lemma edits_ok_perm (text : list ascii) (es es' : list Edit) :
  es ≡ₚ es' -> edits_ok text es -> edits_ok text es'.
Proof.
  intros Hp [Hin Hpw]. split; [now rewrite <- Hp | now apply (pairwise_apart_perm es)].
Qed.

Lemma sort_edits_perm_eq (es es' : list Edit) :
  es ≡ₚ es' -> pairwise_apart es -> sort_edits es = sort_edits es'.
Proof.
  intros Hp Hpw. unfold sort_edits.
  apply foldl_insert_perm_eq; [exact Hp | now apply pairwise_apart_offsets].
Qed.

(** Whatever the order of the walk, when the calls made in the order
    stdpp enumerates the map can be composed, the rewrite goes through
    and every file ends as the same splice. *)
Lemma ReplaceReferences_any_order {U : UnorderedOrder} (SM : SourceManager)
    (V : Visitor) :
  (forall f, edits_ok (getBufferData SM f)
               (file_edits f (@pendingEdits canonical_order V))) ->
  exists R',
    ReplaceReferences V (mkRewriter SM ∅) = Some R' /\
    SourceMgr R' = SM /\
    forall f,
      Buffer (getEditBuffer R' f)
      = splice 0 (getBufferData SM f)
          (sort_edits (file_edits f (@pendingEdits canonical_order V))).
Proof.
  intros Hok.
  assert (Hp : forall f, file_edits f (@pendingEdits canonical_order V)
                         ≡ₚ file_edits f (@pendingEdits U V))
    by (intros f; apply file_edits_perm, pendingEdits_perm).
  destruct (ReplaceReferences_splice SM V) as (R' & Hrun & HSM & Hf).
  { intros f. apply (edits_ok_perm _ _ _ (Hp f)), Hok. }
  exists R'. split; [exact Hrun|]. split; [exact HSM|].
  intros f. destruct (Hf f) as (Hbuf & _). rewrite Hbuf. f_equal.
  symmetry. apply sort_edits_perm_eq; [apply Hp | apply Hok].
Qed.

(** ** The extent of a replacement *)

Lemma file_edits_recorded {U : UnorderedOrder} (V : Visitor) (f : FileID) (e : Edit) :
  e ∈ file_edits f (pendingEdits V) <->
  exists k a,
    aliases V !! k = Some a /\
    FileLoc f (e_off e) ∈ default [] (nameLocations V !! k) /\
    e_len e = String.length k /\ e_new e = a.
Proof.
  rewrite file_edits_elem, pendingEdits_elem. split.
  - intros (k & a & loc & Hk & Hloc & Heq). injection Heq as Hl Hlen Hnew.
    subst loc. exists k, a. auto.
  - intros (k & a & Hk & Hloc & Hlen & Hnew). exists k, a, (FileLoc f (e_off e)).
    rewrite Hlen, Hnew. auto.
Qed.

Lemma pairwise_apart_elem (es : list Edit) (e e' : Edit) :
  pairwise_apart es -> e ∈ es -> e' ∈ es -> e = e' \/ apart e e'.
Proof.
  induction es as [|e1 es IH]; intros Hpw He He'; [inversion He|].
  destruct Hpw as [Hall Hpw]. rewrite Forall_forall in Hall.
  apply elem_of_cons in He as [->|He]; apply elem_of_cons in He' as [->|He'].
  - now left.
  - right. now apply Hall.
  - right. apply apart_sym. now apply Hall.
  - now apply IH.
Qed.

Lemma shift_same (es : list Edit) (o q : nat) :
  (o <= q)%nat ->
  Forall (fun e' => (e_off e' < o \/ q < e_off e')%nat) es ->
  shift es (2 * Z.of_nat q + 2) = shift es (2 * Z.of_nat o + 1).
Proof.
  intros Hoq. induction 1 as [|e' es He' _ IH]; simpl; [reflexivity|].
  rewrite IH. f_equal.
  destruct (Z.ltb_spec (2 * Z.of_nat (e_off e') + 1) (2 * Z.of_nat q + 2));
    destruct (Z.ltb_spec (2 * Z.of_nat (e_off e') + 1) (2 * Z.of_nat o + 1));
    try reflexivity; exfalso; lia.
Qed.

(** Past an edit, up to the next one, the text is moved by what it was
    moved by at the edit, and by the length change of the edit. *)
Lemma shift_past_edit (es : list Edit) (e : Edit) (q : nat) :
  pairwise_apart es -> e ∈ es -> (e_off e <= q)%nat ->
  Forall (fun e' => (e_off e' < e_off e + e_len e \/ q < e_off e')%nat) es ->
  shift es (2 * Z.of_nat q + 2) = shift es (2 * Z.of_nat (e_off e) + 1) + delta e.
Proof.
  intros Hpw He Hq Hall.
  assert (Hothers : forall e', e' ∈ es -> e' <> e ->
                               (e_off e' < e_off e \/ q < e_off e')%nat).
  { intros e' He' Hne. rewrite Forall_forall in Hall. specialize (Hall e' He').
    destruct (pairwise_apart_elem es e e' Hpw He He') as [->|Hap];
      [contradiction|].
    unfold apart in Hap. lia. }
  clear Hall. induction es as [|e1 es IH]; [inversion He|].
  destruct Hpw as [Hall1 Hpw]. simpl.
  apply elem_of_cons in He as [->|He].
  - rewrite (shift_same es (e_off e1) q Hq).
    + destruct (Z.ltb_spec (2 * Z.of_nat (e_off e1) + 1) (2 * Z.of_nat q + 2));
        destruct (Z.ltb_spec (2 * Z.of_nat (e_off e1) + 1) (2 * Z.of_nat (e_off e1) + 1));
        lia.
    + apply Forall_forall. intros e' He'. apply Hothers; [now right|].
      intros ->. rewrite Forall_forall in Hall1. specialize (Hall1 e1 He').
      unfold apart in Hall1. lia.
  - assert (Hne : e1 <> e).
    { intros ->. rewrite Forall_forall in Hall1. specialize (Hall1 e He).
      unfold apart in Hall1. lia. }
    rewrite IH; [|exact Hpw | exact He | intros e' He'; apply Hothers; now right].
    specialize (Hothers e1 ltac:(now left) Hne).
    destruct (Z.ltb_spec (2 * Z.of_nat (e_off e1) + 1) (2 * Z.of_nat q + 2));
      destruct (Z.ltb_spec (2 * Z.of_nat (e_off e1) + 1) (2 * Z.of_nat (e_off e) + 1));
      lia.
Qed.

(** C9, amended: when the spans recorded in each file lie inside the
    file and are pairwise apart, the rewrite goes through and, for
    every occurrence recorded at a file location, the rewritten text
    holds the alias where the occurrence was and, directly after the
    alias, the original characters that followed the first
    key-length characters of the occurrence, as far as no other span
    starts there.  So the extent replaced is the length of the key:
    what a lexeme holds beyond it stays in the text. *)
Theorem replaced_extent_is_key_length {U : UnorderedOrder} (SM : SourceManager)
    (V : Visitor) :
  (forall f, edits_ok (getBufferData SM f) (file_edits f (pendingEdits V))) ->
  exists R',
    ReplaceReferences V (mkRewriter SM ∅) = Some R' /\
    forall f k a o n,
      aliases V !! k = Some a ->
      FileLoc f o ∈ default [] (nameLocations V !! k) ->
      no_span_starts V f (o + String.length k) n ->
      take (String.length a)
           (drop (mapped_start (getEditBuffer R' f) o) (Buffer (getEditBuffer R' f)))
      = list_ascii_of_string a /\
      take n (drop (mapped_start (getEditBuffer R' f) o + String.length a)
                   (Buffer (getEditBuffer R' f)))
      = take n (drop (o + String.length k) (getBufferData SM f)).
Proof.
  intros Hok. destruct (ReplaceReferences_splice SM V Hok) as (R' & Hrun & _ & Hf).
  exists R'. split; [exact Hrun|]. intros f k a o n Hk Hloc Hnone.
  destruct (Hf f) as (Hbuf & Hd & Hs).
  destruct (spliced_spans_hold SM V R' f Hbuf Hd Hs) as [Hspans _].
  split; [exact (Hspans k a o Hk Hloc)|].
  set (es := file_edits f (pendingEdits V)) in *.
  set (e := mkEdit o (String.length k) a).
  assert (He : e ∈ es) by (apply file_edits_recorded; exists k, a; auto).
  destruct (Hok f) as [_ Hpw]. fold es in Hpw.
  assert (HeS : e ∈ sort_edits es) by now rewrite sort_edits_perm.
  destruct (splice_at_edit _ 0 (getBufferData SM f) e Hs HeS) as [Hr0 _].
  cbv zeta in Hr0. rewrite (shift_perm _ _ _ (sort_edits_perm es)) in Hr0.
  simpl e_off in Hr0.
  assert (Hstart : forall e', e' ∈ es ->
            (e_off e' < o + String.length k \/ o + String.length k + n <= e_off e')%nat).
  { intros e' He'. apply file_edits_recorded in He' as (k' & a' & Hk' & Hloc' & _).
    exact (Hnone k' a' (e_off e') Hk' Hloc'). }
  apply list_eq. intros j.
  destruct (decide (j < n)%nat) as [Hj|Hj];
    [|rewrite !lookup_take_ge by lia; reflexivity].
  rewrite !lookup_take_lt by lia. rewrite !lookup_drop.
  set (p := (o + String.length k + j)%nat).
  assert (Hun : untouched (sort_edits es) p).
  { unfold untouched. rewrite sort_edits_perm. apply Forall_forall.
    intros e' He'. specialize (Hstart e' He').
    destruct (pairwise_apart_elem es e e' Hpw He He') as [<-|Hap].
    - right. simpl. lia.
    - unfold apart in Hap. simpl in Hap. lia. }
  destruct (splice_untouched _ 0 (getBufferData SM f) p Hs ltac:(lia) Hun)
    as [_ Hlook].
  cbv zeta in Hlook. rewrite (shift_perm _ _ _ (sort_edits_perm es)) in Hlook.
  rewrite (shift_past_edit es e p Hpw He) in Hlook.
  - rewrite Nat.sub_0_r in Hlook. rewrite <- Hlook, Hbuf. f_equal.
    unfold mapped_start, getMappedOffset. rewrite Hd. fold es.
    unfold delta, p. simpl. lia.
  - unfold p. simpl. lia.
  - apply Forall_forall. intros e' He'. specialize (Hstart e' He').
    unfold p. simpl. lia.
Qed.

Lemma replaced_extent_is_key_length_witness :
  exists R',
    ReplaceReferences operator_call_visitor
      (mkRewriter (sample_context operator_call_text) ∅) = Some R' /\
    forall f k a o n,
      aliases operator_call_visitor !! k = Some a ->
      FileLoc f o ∈ default [] (nameLocations operator_call_visitor !! k) ->
      no_span_starts operator_call_visitor f (o + String.length k) n ->
      take (String.length a)
           (drop (mapped_start (getEditBuffer R' f) o) (Buffer (getEditBuffer R' f)))
      = list_ascii_of_string a /\
      take n (drop (mapped_start (getEditBuffer R' f) o + String.length a)
                   (Buffer (getEditBuffer R' f)))
      = take n (drop (o + String.length k)
                  (getBufferData (sample_context operator_call_text) f)).
Proof.
  apply (replaced_extent_is_key_length (sample_context operator_call_text)
           operator_call_visitor).
  apply edits_ok_by_file. solve_edits_ok.
Defined.

(** In [int y = GET;] the reference that comes out of the macro [GET]
    is recorded, at a macro location, under the key [x], which has an
    alias; in every order of the calls the rewrite goes through and
    leaves [GET], and the [x] of the macro body, as they are: no
    character is replaced for this occurrence. *)
Lemma macro_occurrence_not_replaced :
  nameLocations macro_visitor !! "x" = Some [MacroLoc 1 22] /\
  aliases macro_visitor !! "x" = Some "H4BIPWdk" /\
  (~ exists U : UnorderedOrder,
       ReplaceReferences macro_visitor (mkRewriter (sample_context macro_text) ∅)
       = None) /\
  ~ exists (U : UnorderedOrder) (R' : Rewriter),
      ReplaceReferences macro_visitor (mkRewriter (sample_context macro_text) ∅)
      = Some R' /\
      string_of_list_ascii (Buffer (getEditBuffer R' mainFile))
      <> "#define GET x" +:+ newline +:+ "int DAHOVcjq = GET;".
Proof.
  assert (Hany : forall U : UnorderedOrder, exists R',
            ReplaceReferences macro_visitor (mkRewriter (sample_context macro_text) ∅)
            = Some R' /\
            string_of_list_ascii (Buffer (getEditBuffer R' mainFile))
            = "#define GET x" +:+ newline +:+ "int DAHOVcjq = GET;").
  { intros U.
    destruct (ReplaceReferences_any_order (sample_context macro_text) macro_visitor)
      as (R' & Hrun & _ & Hf).
    { apply edits_ok_by_file. solve_edits_ok. }
    exists R'. split; [exact Hrun|]. rewrite Hf. vm_compute. reflexivity. }
  split; [vm_compute; reflexivity|]. split; [vm_compute; reflexivity|]. split.
  - intros (U & Hnone). destruct (Hany U) as (R' & Hrun & _). congruence.
  - intros (U & R' & Hrun & Hne). destruct (Hany U) as (R'' & Hrun' & Heq).
    rewrite Hrun in Hrun'. injection Hrun' as <-. contradiction.
Qed.

(** [operator+(a,b);]: the reference to [operator+] is filed under
    ["+"], so one character is replaced and [perator+] stays. *)
Example operator_call_rewritten {U : UnorderedOrder} :
  exists R',
    ReplaceReferences operator_call_visitor
      (mkRewriter (sample_context operator_call_text) ∅) = Some R' /\
    string_of_list_ascii (Buffer (getEditBuffer R' mainFile))
    = "DAHOVcjqperator+(H4BIPWdk,Ly5CJQXe);".
Proof.
  destruct (ReplaceReferences_any_order (sample_context operator_call_text)
              operator_call_visitor) as (R' & Hrun & _ & Hf).
  { apply edits_ok_by_file. solve_edits_ok. }
  exists R'. split; [exact Hrun|]. rewrite Hf. vm_compute. reflexivity.
Qed.

(** ** Substituting the definitions back *)

Lemma starts_with_app (s rest : list ascii) : starts_with s (s ++ rest) = true.
Proof.
  induction s as [|c s IH]; simpl; [reflexivity|]. now rewrite Ascii.eqb_refl.
Qed.

Lemma starts_with_same_length (s1 s2 text : list ascii) :
  starts_with s1 text = true -> starts_with s2 text = true ->
  length s1 = length s2 -> s1 = s2.
Proof.
  revert s2 text. induction s1 as [|c1 s1 IH]; intros [|c2 s2] [|d text] H1 H2 Hlen;
    simpl in *; try discriminate; try reflexivity.
  destruct (Ascii.eqb c1 d) eqn:E1; [|discriminate].
  destruct (Ascii.eqb c2 d) eqn:E2; [|discriminate].
  apply Ascii.eqb_eq in E1, E2. subst c1 c2. f_equal.
  apply (IH s2 text); [assumption | assumption | lia].
Qed.

Lemma list_of_string_inj (a b : string) :
  list_ascii_of_string a = list_ascii_of_string b -> a = b.
Proof.
  intros H. apply (f_equal string_of_list_ascii) in H.
  now rewrite !string_of_list_ascii_of_string in H.
Qed.

Lemma find_alias_Some defs text d :
  find_alias defs text = Some d ->
  d ∈ defs /\ (0 < String.length d.2)%nat /\
  starts_with (list_ascii_of_string d.2) text = true.
Proof.
  induction defs as [|d0 defs IH]; simpl; [discriminate|].
  destruct ((0 <? String.length d0.2)%nat
            && starts_with (list_ascii_of_string d0.2) text) eqn:Hc.
  - intros [= <-]. apply andb_true_iff in Hc as [Hlen Hst].
    apply Nat.ltb_lt in Hlen. split; [left | auto].
  - intros H. destruct (IH H) as (Hin & Hrest). split; [now right | exact Hrest].
Qed.

Lemma find_alias_is_Some defs text d :
  d ∈ defs -> (0 < String.length d.2)%nat ->
  starts_with (list_ascii_of_string d.2) text = true ->
  is_Some (find_alias defs text).
Proof.
  intros Hin Hlen Hst. induction defs as [|d0 defs IH]; [inversion Hin|].
  simpl. destruct ((0 <? String.length d0.2)%nat
                   && starts_with (list_ascii_of_string d0.2) text) eqn:Hc; [eauto|].
  apply elem_of_cons in Hin as [->|Hin]; [|now apply IH].
  apply Nat.ltb_lt in Hlen. now rewrite Hlen, Hst in Hc.
Qed.

(** Where an alias stands, the definition found is its own when all
    aliases are as long as it and no other key has it. *)
Lemma find_alias_at_alias defs k a rest :
  (k, a) ∈ defs -> (0 < String.length a)%nat ->
  (forall d, d ∈ defs -> String.length d.2 = String.length a) ->
  (forall k', (k', a) ∈ defs -> k' = k) ->
  find_alias defs (list_ascii_of_string a ++ rest) = Some (k, a).
Proof.
  intros Hin Hlen Hall Hinj.
  destruct (find_alias_is_Some defs (list_ascii_of_string a ++ rest) (k, a))
    as [[k' a'] Hfind]; [exact Hin | exact Hlen | apply starts_with_app|].
  rewrite Hfind. destruct (find_alias_Some _ _ _ Hfind) as (Hin' & _ & Hst').
  simpl in Hst'.
  assert (a' = a) as ->.
  { apply list_of_string_inj.
    apply (starts_with_same_length _ _ (list_ascii_of_string a ++ rest));
      [exact Hst' | apply starts_with_app|].
    rewrite !list_of_string_length. exact (Hall _ Hin'). }
  now rewrite (Hinj k' Hin').
Qed.

Lemma substitute_skip defs (x rest : list ascii) :
  substitute_aliases defs (length x) (x ++ rest) = substitute_aliases defs 0 rest.
Proof.
  induction x as [|c x IH]; simpl; [|exact IH].
  destruct rest; reflexivity.
Qed.

Lemma substitute_alias defs k a rest :
  find_alias defs (list_ascii_of_string a ++ rest) = Some (k, a) ->
  (0 < String.length a)%nat ->
  substitute_aliases defs 0 (list_ascii_of_string a ++ rest)
  = (list_ascii_of_string k ++ substitute_aliases defs 0 rest)%list.
Proof.
  intros Hfind Hlen. destruct a as [|c a]; [simpl in Hlen; lia|].
  simpl list_ascii_of_string in *. simpl app in *.
  simpl substitute_aliases. rewrite Hfind. simpl fst. simpl snd. f_equal.
  replace (String.length (String c a) - 1)%nat
    with (length (list_ascii_of_string a))
    by (rewrite list_of_string_length; simpl; lia).
  apply substitute_skip.
Qed.

Lemma substitute_run defs (pre rest : list ascii) :
  (forall j, (j < length pre)%nat -> find_alias defs (drop j (pre ++ rest)) = None) ->
  substitute_aliases defs 0 (pre ++ rest)
  = (pre ++ substitute_aliases defs 0 rest)%list.
Proof.
  induction pre as [|c pre IH]; intros Hnone; [reflexivity|].
  simpl app. simpl substitute_aliases.
  pose proof (Hnone 0%nat ltac:(simpl; lia)) as H0. simpl in H0. rewrite H0.
  f_equal. apply IH. intros j Hj. apply (Hnone (S j)). simpl. lia.
Qed.

(** Substituting in a splice whose edits put aliases where the keys
    stood, with no alias anywhere else, gives the original text. *)
Lemma substitute_splice defs (text : list ascii) (S : list Edit) : forall c,
  sorted_edits c (length text) S -> (c <= length text)%nat ->
  (forall e, e ∈ S ->
     exists k,
       (forall rest, find_alias defs (list_ascii_of_string (e_new e) ++ rest)
                     = Some (k, e_new e)) /\
       (0 < String.length (e_new e))%nat /\
       take (e_len e) (drop (e_off e) text) = list_ascii_of_string k) ->
  (forall p, (c <= p < length text)%nat -> untouched S p ->
     find_alias defs
       (drop (Z.to_nat (Z.of_nat p - Z.of_nat c + shift S (2 * Z.of_nat p + 2)))
             (splice c (drop c text) S)) = None) ->
  substitute_aliases defs 0 (splice c (drop c text) S) = drop c text.
Proof.
  induction S as [|e1 S IH]; intros c Hs Hc Hed Hstray.
  - simpl splice. rewrite <- (app_nil_r (drop c text)) at 1.
    rewrite substitute_run; [simpl; now rewrite app_nil_r|].
    intros j Hj. rewrite length_drop in Hj. rewrite app_nil_r.
    specialize (Hstray (c + j)%nat ltac:(lia) ltac:(constructor)).
    simpl in Hstray.
    replace (Z.to_nat (Z.of_nat (c + j) - Z.of_nat c + 0)) with j in Hstray by lia.
    exact Hstray.
  - destruct Hs as (Hlo1 & Hhi1 & Hlt1 & Hs').
    set (c' := (e_off e1 + e_len e1)%nat).
    assert (Hb : length (drop c text) = (length text - c)%nat) by apply length_drop.
    assert (Hdrop : drop (e_off e1 - c + e_len e1) (drop c text) = drop c' text).
    { rewrite drop_drop. f_equal. unfold c'. lia. }
    assert (Hsorted : sorted_edits c (c + length (drop c text)) (e1 :: S)).
    { rewrite Hb. replace (c + (length text - c))%nat with (length text) by lia.
      simpl. auto. }
    simpl splice. rewrite Hdrop.
    set (pre := take (e_off e1 - c) (drop c text)).
    set (T := splice (e_off e1 + e_len e1) (drop c' text) S).
    assert (Hpre : length pre = (e_off e1 - c)%nat)
      by (unfold pre; rewrite length_take; lia).
    rewrite substitute_run.
    2:{ intros j Hj. rewrite Hpre in Hj.
        assert (Hun : untouched (e1 :: S) (c + j)).
        { constructor; [lia|]. eapply Forall_impl; [exact Hlt1|]. simpl. intros. lia. }
        specialize (Hstray (c + j)%nat ltac:(lia) Hun).
        rewrite shift_none in Hstray.
        2:{ constructor; [lia|]. eapply Forall_impl; [exact Hlt1|]. simpl. intros. lia. }
        simpl splice in Hstray. rewrite Hdrop in Hstray.
        replace (Z.to_nat (Z.of_nat (c + j) - Z.of_nat c + 0)) with j in Hstray by lia.
        exact Hstray. }
    destruct (Hed e1 ltac:(left)) as (k1 & Hfind & Hlen & Hkey).
    rewrite (substitute_alias defs k1) by (auto).
    assert (HT : substitute_aliases defs 0 T = drop c' text).
    2:{ rewrite HT, <- Hkey. unfold pre, c'.
        rewrite <- (take_drop (e_off e1 - c) (drop c text)) at 2. f_equal.
        rewrite drop_drop. replace (c + (e_off e1 - c))%nat with (e_off e1) by lia.
        rewrite <- (take_drop (e_len e1) (drop (e_off e1) text)) at 2. f_equal.
        now rewrite drop_drop. }
    unfold T. apply IH.
    + exact Hs'.
    + unfold c'. lia.
    + intros e He. apply Hed. now right.
    + intros p Hp Hunp.
      assert (Hun : untouched (e1 :: S) p) by (constructor; [unfold c' in Hp; lia | exact Hunp]).
      specialize (Hstray p ltac:(unfold c' in Hp; lia) Hun).
      destruct (splice_untouched S c' (drop c' text) p) as [Hr0 _];
        [|lia|exact Hunp|].
      { rewrite length_drop.
        replace (c' + (length text - c'))%nat with (length text) by (unfold c'; lia).
        exact Hs'. }
      cbv zeta in Hr0.
      set (r' := Z.of_nat p - Z.of_nat c' + shift S (2 * Z.of_nat p + 2)) in *.
      simpl shift in Hstray.
      destruct (2 * Z.of_nat (e_off e1) + 1 <? 2 * Z.of_nat p + 2) eqn:Hlt;
        [|apply Z.ltb_ge in Hlt; unfold c' in Hp; lia].
      simpl splice in Hstray. rewrite Hdrop in Hstray. fold pre T in Hstray.
      set (P := (pre ++ list_ascii_of_string (e_new e1))%list) in *.
      assert (HP : length P = (e_off e1 - c + String.length (e_new e1))%nat).
      { unfold P. rewrite length_app, Hpre, list_of_string_length. lia. }
      replace (pre ++ list_ascii_of_string (e_new e1) ++ T)%list
        with (P ++ T)%list in Hstray by (unfold P; now rewrite <- app_assoc).
      replace (Z.to_nat (Z.of_nat p - Z.of_nat c
                         + (delta e1 + shift S (2 * Z.of_nat p + 2))))
        with (length P + Z.to_nat r')%nat in Hstray
        by (rewrite HP; unfold r', delta, c' in *; lia).
      rewrite drop_app_add in Hstray. exact Hstray.
Qed.

Lemma alias_shape_length (a : string) : alias_shape a -> String.length a = 8%nat.
Proof.
  destruct a as [|c rest]; simpl; [tauto|]. intros (_ & Hlen & _). now rewrite Hlen.
Qed.

Lemma recordOccurrence_locations_dom key loc V :
  (forall k, is_Some (nameLocations V !! k) -> is_Some (aliases V !! k)) ->
  forall k, is_Some (nameLocations (recordOccurrence key loc V) !! k) ->
            is_Some (aliases (recordOccurrence key loc V) !! k).
Proof.
  intros HV k Hk. apply recordOccurrence_aliases_dom.
  destruct (decide (key = k)) as [->|Hne]; [now left|]. right. apply HV.
  now rewrite recordOccurrence_locations_ne in Hk.
Qed.

Lemma traverse_locations_dom Context nodes : forall V,
  (forall k, is_Some (nameLocations V !! k) -> is_Some (aliases V !! k)) ->
  forall k, is_Some (nameLocations (foldl (visit_step Context) V nodes) !! k) ->
            is_Some (aliases (foldl (visit_step Context) V nodes) !! k).
Proof.
  induction nodes as [|n nodes IH]; intros V HV; simpl; [exact HV|].
  apply IH. rewrite visit_step_classify.
  destruct (classify Context n) as [[key loc]|]; [|exact HV].
  now apply recordOccurrence_locations_dom.
Qed.

(** C2, amended: when the spans recorded in each file lie inside the
    file and are pairwise apart, the main file holds at every recorded
    location the key it is recorded under, and no two keys share an
    alias, then the rewrite goes through, and if no alias stands in the
    rewritten main file at a character that was outside all spans,
    replacing every alias in it by the key of its definition gives the
    original text. *)
Theorem substitution_restores_source {U : UnorderedOrder} (Context : SourceManager)
    (nodes : list ASTNode) (r : RandState) :
  let V := (TraverseDecl Context nodes (mkVisitor ∅ ∅ r)).2 in
  let f := MainFileID Context in
  (forall f', edits_ok (getBufferData Context f') (file_edits f' (pendingEdits V))) ->
  spans_hold_keys Context V f ->
  aliases_pairwise_distinct V ->
  exists R',
    ReplaceReferences V (mkRewriter Context ∅) = Some R' /\
    (no_stray_alias Context V R' f ->
     substitute_aliases (entries (aliases V)) 0 (Buffer (getEditBuffer R' f))
     = getBufferData Context f).
Proof.
  intros V f Hok Hkeys Hdist.
  destruct (ReplaceReferences_splice Context V Hok) as (R' & Hrun & _ & Hf).
  exists R'. split; [exact Hrun|]. intros Hstray.
  destruct (Hf f) as (Hbuf & Hd & Hs). rewrite Hbuf.
  assert (Hshape : map_Forall (fun _ a => alias_shape a) (aliases V)).
  { unfold V. rewrite TraverseDecl_foldl. simpl.
    apply traverse_shapes. apply map_Forall_empty. }
  assert (Hdom : forall k, is_Some (nameLocations V !! k) -> is_Some (aliases V !! k)).
  { unfold V. rewrite TraverseDecl_foldl. simpl.
    apply traverse_locations_dom. simpl. intros k [x Hx].
    rewrite lookup_empty in Hx. discriminate. }
  apply (substitute_splice (entries (aliases V)) (getBufferData Context f)
           (sort_edits (file_edits f (pendingEdits V))) 0%nat); [exact Hs | lia | |].
  - intros e He. rewrite sort_edits_perm in He.
    apply file_edits_recorded in He as (k & a & Hk & Hloc & Hlen & Hnew).
    exists k. rewrite Hnew, Hlen.
    pose proof (alias_shape_length _ (Hshape k a Hk)) as Ha8.
    split; [|split; [lia | now apply Hkeys]].
    intros rest. apply find_alias_at_alias.
    + now apply entries_lookup.
    + lia.
    + intros [k' a'] Hin. apply entries_lookup in Hin. simpl.
      rewrite Ha8. apply alias_shape_length. exact (Hshape k' a' Hin).
    + intros k' Hin. apply entries_lookup in Hin.
      destruct (decide (k' = k)) as [->|Hne]; [reflexivity|].
      exfalso. exact (Hdist k' k a Hne Hin Hk).
  - intros p Hp Hun.
    assert (Hout : outside_spans V f p).
    { intros k o Hloc.
      assert (Hsome : is_Some (aliases V !! k)).
      { apply Hdom. destruct (nameLocations V !! k); [eauto | inversion Hloc]. }
      destruct Hsome as [a Hk].
      assert (He : mkEdit o (String.length k) a
                   ∈ sort_edits (file_edits f (pendingEdits V))).
      { rewrite sort_edits_perm. apply file_edits_recorded. simpl.
        exists k, a. auto. }
      unfold untouched in Hun. rewrite Forall_forall in Hun.
      exact (Hun _ He). }
    specialize (Hstray p ltac:(lia) Hout).
    unfold mapped_char, getMappedOffset in Hstray. rewrite Hd, Hbuf in Hstray.
    rewrite (shift_perm _ _ _ (sort_edits_perm _)).
    change (drop 0 (getBufferData Context f)) with (getBufferData Context f).
    rewrite <- Hstray. do 2 f_equal.
    replace (2 * (Z.of_nat p + 1) + 0) with (2 * Z.of_nat p + 2) by lia.
    simpl. lia.
Qed.

Lemma spans_hold_keys_checked (SM : SourceManager) (V : Visitor) (f : FileID) :
  spans_hold_keys_check SM V f = true -> spans_hold_keys SM V f.
Proof.
  unfold spans_hold_keys_check. rewrite forallb_forall.
  intros Hall k o Hloc.
  destruct (nameLocations V !! k) as [locs|] eqn:Hk; [|inversion Hloc].
  simpl in Hloc.
  specialize (Hall (k, locs)). rewrite <- list_elem_of_In in Hall.
  specialize (Hall ltac:(now apply elem_of_map_to_list)).
  rewrite forallb_forall in Hall. specialize (Hall (FileLoc f o)).
  rewrite <- list_elem_of_In in Hall. specialize (Hall Hloc). simpl in Hall.
  rewrite decide_True in Hall by reflexivity.
  now apply bool_decide_eq_true in Hall.
Qed.

Lemma aliases_distinct_checked (V : Visitor) :
  aliases_distinct_check V = true -> aliases_pairwise_distinct V.
Proof.
  unfold aliases_distinct_check. rewrite bool_decide_eq_true.
  intros Hnd k1 k2 a Hne H1 H2.
  apply elem_of_map_to_list in H1, H2.
  apply list_elem_of_lookup in H1 as [i1 Hi1], H2 as [i2 Hi2].
  assert (Heq : i1 = i2).
  { eapply NoDup_lookup; [exact Hnd | |];
      rewrite list_lookup_fmap; [rewrite Hi1 | rewrite Hi2]; reflexivity. }
  subst i2. rewrite Hi1 in Hi2. congruence.
Qed.

Lemma substitution_restores_source_witness :
  exists R',
    ReplaceReferences decl_x_5_visitor (mkRewriter (sample_context "int x = 5;") ∅)
      = Some R' /\
    (no_stray_alias (sample_context "int x = 5;") decl_x_5_visitor R' mainFile ->
     substitute_aliases (entries (aliases decl_x_5_visitor)) 0
       (Buffer (getEditBuffer R' mainFile))
     = getBufferData (sample_context "int x = 5;") mainFile).
Proof.
  apply (substitution_restores_source (sample_context "int x = 5;") decl_x_5
           counting_rand).
  - apply edits_ok_by_file. solve_edits_ok.
  - apply spans_hold_keys_checked. vm_compute. reflexivity.
  - apply aliases_distinct_checked. vm_compute. reflexivity.
Defined.

(** [int x = 5;] is rewritten and restored. *)
Example decl_x_5_round_trip :
  exists R',
    ReplaceReferences decl_x_5_visitor (mkRewriter (sample_context "int x = 5;") ∅)
      = Some R' /\
    string_of_list_ascii (Buffer (getEditBuffer R' mainFile))
      = "int DAHOVcjq = H4BIPWdk;" /\
    substitute_aliases (entries (aliases decl_x_5_visitor)) 0
      (Buffer (getEditBuffer R' mainFile))
    = list_ascii_of_string "int x = 5;".
Proof.
  eexists. split; [vm_compute; reflexivity|]. split; vm_compute; reflexivity.
Qed.

(** [int x = 0x10;]: the literal is filed under ["16"], so two of its
    four characters are replaced and the definition puts [16] in front
    of the two that stay, whatever the order of the walk. *)
Lemma hex_literal_not_restored :
  ~ exists (U : UnorderedOrder) (R' : Rewriter),
      ReplaceReferences decl_x_hex_visitor
        (mkRewriter (sample_context "int x = 0x10;") ∅) = Some R' /\
      substitute_aliases (entries (aliases decl_x_hex_visitor)) 0
        (Buffer (getEditBuffer R' mainFile))
      = list_ascii_of_string "int x = 0x10;".
Proof.
  intros (U & R' & Hrun & Hsub).
  destruct (ReplaceReferences_any_order (sample_context "int x = 0x10;")
              decl_x_hex_visitor) as (R'' & Hrun' & _ & Hf).
  { apply edits_ok_by_file. solve_edits_ok. }
  rewrite Hrun in Hrun'. injection Hrun' as <-. rewrite Hf in Hsub.
  pose proof (entries_perm (aliases decl_x_hex_visitor)) as Hp.
  assert (Hl : map_to_list (aliases decl_x_hex_visitor)
               = [("16", "H4BIPWdk"); ("x", "DAHOVcjq")])
    by (vm_compute; reflexivity).
  rewrite Hl in Hp. symmetry in Hp.
  apply Permutation_length_2_inv in Hp as [Hp|Hp];
    rewrite Hp in Hsub; vm_compute in Hsub; discriminate Hsub.
Qed.

(** ** The driver *)

Lemma entries_singleton {U : UnorderedOrder} (m : gmap string string) k a :
  map_to_list m = [(k, a)] -> entries m = [(k, a)].
Proof.
  intros Hm. pose proof (entries_perm m) as Hp. rewrite Hm in Hp.
  symmetry in Hp. now apply Permutation_length_1_inv in Hp.
Qed.

(** [main] does not look at what [runToolOnCode] returns: with three
    arguments and both files open it ends the same way whether or not
    an error was diagnosed, and when it exits it exits with 0 after
    writing the output. *)
Lemma main_ignores_parse_errors {U : UnorderedOrder}
    (parse : list ascii -> ParsedUnit) (code : list ascii) (r : RandState) :
  let failing := fun c =>
    mkParsedUnit (TUNodes (parse c)) (IncludedFiles (parse c)) true in
  main 3 (Some code) false failing r = main 3 (Some code) false parse r /\
  (forall c w, main 3 (Some code) false failing r = Exit c w -> c = 0 /\ is_Some w).
Proof.
  cbv zeta. unfold main, runToolOnCode. simpl.
  destruct (HandleTranslationUnit _ _ _ _ _) as [res|]; simpl.
  - split; [reflexivity|]. intros c w [= <- <-]. eauto.
  - split; [reflexivity|]. discriminate.
Qed.

(** C6: run on [int x = ;], which Clang rejects, the program writes the
    definition of an alias for [x] and the rewritten text and exits
    with 0. *)
Theorem broken_source_is_aliased {U : UnorderedOrder} :
  hasErrorOccurred (broken_parse (list_ascii_of_string broken_text)) = true /\
  main 3 (Some (list_ascii_of_string broken_text)) false broken_parse counting_rand
  = Exit 0 (Some ("#define DAHOVcjq x" +:+ newline +:+ "int DAHOVcjq = ;")).
Proof.
  split; [reflexivity|].
  unfold main, runToolOnCode, HandleTranslationUnit. simpl bool_decide. cbv iota.
  set (SM := mkSM mainFile _).
  set (V := (TraverseDecl SM _ _).2).
  destruct (ReplaceReferences_any_order SM V) as (R' & Hrun & HSM & Hf).
  { apply edits_ok_by_file. solve_edits_ok. }
  rewrite Hrun. simpl. unfold EndSourceFileAction. simpl.
  rewrite HSM, Hf, InsertAliases_lines.
  rewrite (entries_singleton (aliases V) "x" "DAHOVcjq") by (vm_compute; reflexivity).
  vm_compute. reflexivity.
Qed.

Lemma operator_reference_key_witness :
  let E := mkDeclRefExpr "operator+" (FileLoc 1 0) in
  let V := mkVisitor ∅ ∅ counting_rand in
  let V' := (Visit (sample_context operator_call_text) (Node_DeclRefExpr E) V).2 in
  V' = recordOccurrence "+" (FileLoc 1 0) V /\
  nameLocations V' !! "+"
    = Some (default [] (nameLocations V !! "+") ++ [FileLoc 1 0])%list /\
  (forall a, aliases V !! "+" = Some a -> aliases V' !! "+" = Some a) /\
  (forall k, k <> "+" ->
     aliases V' !! k = aliases V !! k /\ nameLocations V' !! k = nameLocations V !! k) /\
  nameLocations V' !! ("operator" +:+ "+") = nameLocations V !! ("operator" +:+ "+").
Proof.
  apply (operator_reference_key (sample_context operator_call_text)
           (mkDeclRefExpr "operator+" (FileLoc 1 0))
           (mkVisitor ∅ ∅ counting_rand) "+").
  - reflexivity.
  - vm_compute. reflexivity.
Defined.

Lemma allow_list_for_references_only_witness :
  Visit (sample_context "int x = 5;") foreign_cout decl_x_5_visitor
  = (true, decl_x_5_visitor).
Proof.
  apply (proj1 (proj2 (allow_list_for_references_only
                         (sample_context "int x = 5;") decl_x_5_visitor))).
  - reflexivity.
  - vm_compute. reflexivity.
Defined.

Lemma alias_entry_created_once_witness :
  aliases (TraverseDecl (sample_context "int x = 5;") more_nodes decl_x_5_visitor).2
    !! "x" = Some "DAHOVcjq".
Proof.
  apply (proj1 (alias_entry_created_once (sample_context "int x = 5;") more_nodes
                  decl_x_5_visitor)).
  vm_compute. reflexivity.
Defined.

(** * Further properties *)

(** ** The alias generator, character by character *)

Lemma string_get_append_l (a b : string) (i : nat) :
  (i < String.length a)%nat -> String.get i (a +:+ b) = String.get i a.
Proof. intros Hi. symmetry. now apply append_correct1. Qed.

Lemma string_get_push_last (a : string) (c : ascii) :
  String.get (String.length a) (push_char a c) = Some c.
Proof.
  unfold push_char.
  pose proof (append_correct2 a (String c "") 0) as H. simpl in H. now rewrite <- H.
Qed.

Lemma string_get_ge (s : string) : forall n,
  (String.length s <= n)%nat -> String.get n s = None.
Proof.
  induction s as [|c s IH]; intros n Hn; [reflexivity|].
  simpl in *. destruct n as [|n]; [lia|]. apply IH. lia.
Qed.

Lemma alias_loop_seq (n : nat) : forall alias r,
  rand_seq (alias_loop n alias r).2 = rand_seq r.
Proof.
  induction n as [|n IH]; intros alias r; simpl; [reflexivity|]. now rewrite IH.
Qed.

Lemma alias_loop_chars (n : nat) : forall alias r,
  String.length (alias_loop n alias r).1 = (String.length alias + n)%nat /\
  (forall i, (i < String.length alias)%nat ->
     String.get i (alias_loop n alias r).1 = String.get i alias) /\
  (forall j, (j < n)%nat ->
     String.get (String.length alias + j) (alias_loop n alias r).1
     = Some (char_at alphanum
               (to_size_t (rand_seq r (rand_pos r + j)) mod (sizeof alphanum - 1)))).
Proof.
  induction n as [|n IH]; intros alias r.
  - simpl. split; [lia|]. split; [reflexivity | intros j Hj; lia].
  - simpl alias_loop.
    set (c := char_at alphanum (to_size_t (rand_seq r (rand_pos r))
                                  mod (sizeof alphanum - 1))).
    destruct (IH (push_char alias c) (mkRand (rand_seq r) (S (rand_pos r))))
      as (Hlen & Hold & Hnew).
    assert (Hpl : String.length (push_char alias c) = S (String.length alias)).
    { unfold push_char. rewrite string_app_length. simpl. lia. }
    split; [rewrite Hlen, Hpl; lia|]. split.
    + intros i Hi. rewrite Hold by lia. unfold push_char.
      now apply string_get_append_l.
    + intros j Hj. destruct j as [|j].
      * rewrite Nat.add_0_r, Hold by lia.
        rewrite string_get_push_last. simpl. now rewrite Nat.add_0_r.
      * specialize (Hnew j ltac:(lia)). rewrite Hpl in Hnew. simpl in Hnew.
        replace (String.length alias + S j)%nat with (S (String.length alias + j)) by lia.
        rewrite Hnew.
        now replace (rand_pos r + S j)%nat with (S (rand_pos r + j)) by lia.
Qed.

(** X1: the alias is made of the next eight values of [rand()] and of
    nothing else: the first value, reduced modulo 52, picks the letter,
    each of the following seven, reduced modulo 62, picks one
    alphanumeric character, and the generator is left eight calls
    further. *)
Theorem generateRandomAlias_chars (r : RandState) :
  let alias := (generateRandomAlias r).1 in
  String.get 0 alias
    = Some (char_at letters (to_size_t (rand_seq r (rand_pos r)) mod 52)) /\
  (forall i, (1 <= i < 8)%nat ->
     String.get i alias
     = Some (char_at alphanum (to_size_t (rand_seq r (rand_pos r + i)) mod 62))) /\
  String.get 8 alias = None /\
  (generateRandomAlias r).2 = rand_after r 8.
Proof.
  cbv zeta. unfold generateRandomAlias, rand. cbv zeta.
  set (a0 := push_char "" _).
  set (r1 := mkRand (rand_seq r) (S (rand_pos r))).
  destruct (alias_loop_chars (8 - 1) a0 r1) as (Hlen & Hold & Hnew).
  assert (Ha0 : String.length a0 = 1%nat) by reflexivity.
  split; [|split; [|split]].
  - rewrite Hold by (rewrite Ha0; lia). reflexivity.
  - intros i Hi. specialize (Hnew (i - 1)%nat ltac:(lia)).
    rewrite Ha0 in Hnew. replace (1 + (i - 1))%nat with i in Hnew by lia.
    rewrite Hnew. unfold r1. simpl.
    now replace (S (rand_pos r + (i - 1))) with (rand_pos r + i)%nat by lia.
  - apply string_get_ge. rewrite Hlen, Ha0. simpl. lia.
  - unfold rand_after.
    pose proof (alias_loop_pos (8 - 1) a0 r1) as Hp.
    pose proof (alias_loop_seq (8 - 1) a0 r1) as Hs.
    destruct (alias_loop (8 - 1) a0 r1).2 as [seq pos]. simpl in *.
    subst seq. f_equal. lia.
Qed.

(** ** The keys of literals *)

Lemma quoted_inj (s1 s2 : string) : quoted s1 = quoted s2 -> s1 = s2.
Proof.
  unfold quoted. rewrite !append_cons, !append_nil_l. intros [= H].
  revert s2 H. induction s1 as [|c s1 IH]; intros [|d s2] H.
  - reflexivity.
  - rewrite append_nil_l, append_cons in H. injection H as _ H.
    destruct s2; discriminate.
  - rewrite append_nil_l, append_cons in H. injection H as _ H.
    destruct s1; discriminate.
  - rewrite !append_cons in H. injection H as -> H. f_equal. now apply IH.
Qed.

Lemma digit_char_not_quote (N : Z) :
  0 <= N -> digit_char (N mod 10) <> dquote.
Proof.
  intros HN. pose proof (Z.mod_pos_bound N 10 ltac:(lia)) as Hd.
  assert (H : N mod 10 = 0 \/ N mod 10 = 1 \/ N mod 10 = 2 \/ N mod 10 = 3 \/
              N mod 10 = 4 \/ N mod 10 = 5 \/ N mod 10 = 6 \/ N mod 10 = 7 \/
              N mod 10 = 8 \/ N mod 10 = 9) by lia.
  repeat (destruct H as [->|H]; [discriminate|]). rewrite H. discriminate.
Qed.

Lemma digit_loop_head (fuel : nat) : forall N buf,
  0 <= N ->
  (forall rest, buf <> String dquote rest) ->
  forall rest, digit_loop fuel N 10 buf <> String dquote rest.
Proof.
  induction fuel as [|fuel IH]; intros N buf HN Hbuf; simpl; [exact Hbuf|].
  destruct (N =? 0); [exact Hbuf|].
  apply IH; [apply Z.div_pos; lia|].
  intros rest [= Hc _]. now apply (digit_char_not_quote N).
Qed.

Lemma digit_char_mod_not_quote (N : Z) : digit_char (N mod 10) <> dquote.
Proof.
  pose proof (Z.mod_pos_bound N 10 ltac:(lia)) as Hd.
  assert (H : N mod 10 = 0 \/ N mod 10 = 1 \/ N mod 10 = 2 \/ N mod 10 = 3 \/
              N mod 10 = 4 \/ N mod 10 = 5 \/ N mod 10 = 6 \/ N mod 10 = 7 \/
              N mod 10 = 8 \/ N mod 10 = 9) by lia.
  repeat (destruct H as [->|H]; [discriminate|]). rewrite H. discriminate.
Qed.

Lemma udiv_loop_no_quote (fuel : nat) : forall Tmp Str,
  Forall (fun c => c <> dquote) Str ->
  Forall (fun c => c <> dquote) (udiv_loop fuel Tmp 10 Str).
Proof.
  induction fuel as [|fuel IH]; intros Tmp Str HStr; simpl; [exact HStr|].
  destruct (getBoolValue Tmp); [|exact HStr].
  apply IH, Forall_app. split; [exact HStr|].
  constructor; [apply digit_char_mod_not_quote | constructor].
Qed.

Lemma reverse_head_no_quote (l : list ascii) (rest : string) :
  Forall (fun c => c <> dquote) l ->
  string_of_list_ascii (reverse l) <> String dquote rest.
Proof.
  intros Hl. apply Forall_reverse in Hl.
  destruct (reverse l) as [|c l']; simpl; [discriminate|].
  apply Forall_cons in Hl as [Hc _]. intros [= Heq _]. contradiction.
Qed.

Lemma toString_not_quoted (a : APInt) (s : string) :
  toString a 10 true <> quoted s.
Proof.
  unfold toString, quoted. rewrite append_cons, append_nil_l.
  destruct (isZero a); [discriminate|].
  destruct (isSingleWord a).
  - destruct (0 <=? getSExtValue a) eqn:Hs.
    + rewrite append_nil_l. apply Z.leb_le in Hs.
      apply digit_loop_head; [exact Hs | discriminate].
    + rewrite append_cons. discriminate.
  - cbn [andb]. destruct (isNegative a).
    + rewrite append_cons. discriminate.
    + rewrite append_nil_l. apply reverse_head_no_quote, udiv_loop_no_quote.
      constructor.
Qed.

(** X2: a string literal is filed, at its begin location and only when
    that lies in the main file, under its content between two double
    quotes: the key is two characters longer than the content, two
    string literals share a key exactly when their contents are equal,
    and no string literal shares a key with an integer literal. *)
Theorem string_literal_key (Context : SourceManager) (L : StringLiteral)
    (V : Visitor) :
  let key := quoted (StringLiteral_getString L) in
  Visit Context (Node_StringLiteral L) V
    = (true, if isInMainFile Context (StringLiteral_getBeginLoc L)
             then recordOccurrence key (StringLiteral_getBeginLoc L) V
             else V) /\
  String.length key = (String.length (StringLiteral_getString L) + 2)%nat /\
  (forall L', quoted (StringLiteral_getString L') = key <->
              StringLiteral_getString L' = StringLiteral_getString L) /\
  (forall a, toString a 10 true <> key).
Proof.
  cbv zeta. split; [|split; [|split]].
  - rewrite Visit_classify. simpl. now destruct (isInMainFile _ _).
  - unfold quoted. rewrite !string_app_length. simpl. lia.
  - intros L'. split; [apply quoted_inj | now intros ->].
  - intros a. apply toString_not_quoted.
Qed.

Lemma toString_of_signed (a : APInt) :
  literal_value_ok a ->
  toString a 10 true
  = if getSExtValue a =? 0 then "0"
    else (if 0 <=? getSExtValue a then "" else "-")
         +:+ digit_loop 64 (if 0 <=? getSExtValue a then getSExtValue a
                            else (- getSExtValue a) mod 2 ^ 64) 10 "".
Proof.
  intros [Hw Hv]. unfold toString, isZero.
  rewrite (bool_decide_eq_true_2 _ (proj2 Hw) : isSingleWord a = true).
  assert (Hz : (VAL a =? 0) = (getSExtValue a =? 0)).
  { unfold getSExtValue. destruct (isNegative a) eqn:Hn; [|reflexivity].
    apply (isNegative_range a ltac:(lia) Hv) in Hn.
    assert (0 < 2 ^ (Z.of_nat (BitWidth a) - 1)) by (apply Z.pow_pos_nonneg; lia).
    destruct (VAL a =? 0) eqn:E1; destruct (VAL a - 2 ^ Z.of_nat (BitWidth a) =? 0) eqn:E2;
      try reflexivity;
      [apply Z.eqb_eq in E1; lia | apply Z.eqb_eq in E2; lia]. }
  rewrite Hz. destruct (getSExtValue a =? 0); [reflexivity|].
  now destruct (0 <=? getSExtValue a).
Qed.

Lemma signed_value_of_key (a : APInt) :
  literal_value_ok a ->
  (0 <= getSExtValue a /\ decimal_numeral (toString a 10 true) (getSExtValue a)) \/
  (getSExtValue a < 0 /\
   exists m, toString a 10 true = "-" +:+ m /\ decimal_numeral m (- getSExtValue a)).
Proof.
  intros [Hw Hv].
  destruct (toString_signed_decimal a Hw Hv) as [Hpos Hneg].
  pose proof (isNegative_range a ltac:(lia) Hv) as Hrange.
  unfold getSExtValue.
  destruct (isNegative a) eqn:Hn.
  - right. pose proof (proj1 Hrange eq_refl) as Hbig. split; [lia|].
    destruct (Hneg Hbig) as (m & Hm & Hnum). exists m. split; [exact Hm|].
    now replace (- (VAL a - 2 ^ Z.of_nat (BitWidth a)))
      with (2 ^ Z.of_nat (BitWidth a) - VAL a) by lia.
  - left. split; [lia|]. apply Hpos.
    destruct (Z_lt_le_dec (VAL a) (2 ^ (Z.of_nat (BitWidth a) - 1))) as [Hlt|Hge];
      [exact Hlt|].
    pose proof (proj2 Hrange Hge). discriminate.
Qed.

Lemma numeral_not_minus (m : string) (n : Z) : ~ decimal_numeral ("-" +:+ m) n.
Proof. intros (_ & Hval & _). discriminate Hval. Qed.

Lemma toString_same_key (a b : APInt) :
  literal_value_ok a -> literal_value_ok b ->
  toString a 10 true = toString b 10 true <-> getSExtValue a = getSExtValue b.
Proof.
  intros Ha Hb. split.
  - intros Heq.
    destruct (signed_value_of_key a Ha) as [[Ha0 Hna]|(Ha0 & ma & Hma & Hna)];
      destruct (signed_value_of_key b Hb) as [[Hb0 Hnb]|(Hb0 & mb & Hmb & Hnb)].
    + rewrite Heq in Hna. destruct Hna as (_ & H1 & _), Hnb as (_ & H2 & _). congruence.
    + rewrite Heq, Hmb in Hna. now apply numeral_not_minus in Hna.
    + rewrite <- Heq, Hma in Hnb. now apply numeral_not_minus in Hnb.
    + rewrite Hma, Hmb in Heq. rewrite !append_cons, !append_nil_l in Heq.
      injection Heq as ->. destruct Hna as (_ & H1 & _), Hnb as (_ & H2 & _).
      rewrite H1 in H2. injection H2 as H2. lia.
  - intros Heq. rewrite !toString_of_signed by assumption. now rewrite Heq.
Qed.

(** X3: two integer literals of the main file are filed under the same
    key, and so share one alias, exactly when their bit patterns read
    as signed numbers of their own widths are equal, whatever their
    types and spellings. *)
Theorem integer_literals_same_key (Context : SourceManager)
    (L1 L2 : IntegerLiteral) (V : Visitor) :
  literal_value_ok (IntegerLiteral_getValue L1) ->
  literal_value_ok (IntegerLiteral_getValue L2) ->
  isInMainFile Context (IntegerLiteral_getLocation L1) = true ->
  isInMainFile Context (IntegerLiteral_getLocation L2) = true ->
  exists k1 k2,
    (Visit Context (Node_IntegerLiteral L1) V).2
      = recordOccurrence k1 (IntegerLiteral_getLocation L1) V /\
    (Visit Context (Node_IntegerLiteral L2) V).2
      = recordOccurrence k2 (IntegerLiteral_getLocation L2) V /\
    (k1 = k2 <-> getSExtValue (IntegerLiteral_getValue L1)
                 = getSExtValue (IntegerLiteral_getValue L2)).
Proof.
  intros Hok1 Hok2 Hm1 Hm2.
  exists (toString (IntegerLiteral_getValue L1) 10 true),
         (toString (IntegerLiteral_getValue L2) 10 true).
  rewrite !Visit_classify. simpl. rewrite Hm1, Hm2.
  split; [reflexivity|]. split; [reflexivity|].
  now apply toString_same_key.
Qed.

Lemma integer_literals_same_key_witness :
  exists k1 k2,
    (Visit (sample_context "unsigned x = 0xFFFFFFFF;")
       (Node_IntegerLiteral literal_all_ones) (mkVisitor ∅ ∅ counting_rand)).2
      = recordOccurrence k1 (FileLoc 1 13) (mkVisitor ∅ ∅ counting_rand) /\
    (Visit (sample_context "unsigned x = 0xFFFFFFFF;")
       (Node_IntegerLiteral literal_all_ones_64) (mkVisitor ∅ ∅ counting_rand)).2
      = recordOccurrence k2 (FileLoc 1 30) (mkVisitor ∅ ∅ counting_rand) /\
    (k1 = k2 <-> getSExtValue (mkAPInt 32 4294967295)
                 = getSExtValue (mkAPInt 64 18446744073709551615)).
Proof.
  apply (integer_literals_same_key (sample_context "unsigned x = 0xFFFFFFFF;")
           literal_all_ones literal_all_ones_64 (mkVisitor ∅ ∅ counting_rand)).
  - unfold literal_value_ok. simpl. lia.
  - unfold literal_value_ok. simpl. lia.
  - vm_compute. reflexivity.
  - vm_compute. reflexivity.
Defined.

(** ** Names that start with "operator" *)

Lemma substring_0_cons (n : nat) (c : ascii) (s : string) :
  String.substring 0 (S n) (String c s) = String c (String.substring 0 n s).
Proof. reflexivity. Qed.

Lemma substring_prefix_split (p : string) : forall s,
  String.substring 0 (String.length p) s = p ->
  s = p +:+ substr (String.length p) s.
Proof.
  induction p as [|c p IH]; intros s Hs.
  - rewrite append_nil_l. unfold substr. simpl String.length.
    rewrite Nat.sub_0_r. symmetry. apply substring_all.
  - destruct s as [|d s]; [discriminate|].
    simpl String.length in Hs. rewrite substring_0_cons in Hs.
    injection Hs as -> Hs. rewrite append_cons. f_equal.
    rewrite (IH s Hs) at 1. f_equal.
Qed.

Lemma isOperator_iff (name : string) :
  isOperator name = true <-> exists s, name = "operator" +:+ s.
Proof.
  split.
  - intros H. unfold isOperator in H. apply bool_decide_eq_true in H.
    apply index_correct1 in H. exists (substr 8 name).
    now apply (substring_prefix_split "operator").
  - intros [s ->]. apply isOperator_prefix.
Qed.

(** X4: a reference in the main file is filed under the name itself,
    as the declaration of that name is, exactly when the name does not
    start with ["operator"]; a name that does is a reference filed
    under what follows these eight characters, which is never the key
    its declaration is filed under. *)
Theorem reference_key_and_declaration_key (Context : SourceManager)
    (D : VarDecl) (E : DeclRefExpr) (V : Visitor) :
  VarDecl_getNameAsString D = DeclRefExpr_getNameInfo_getAsString E ->
  isInMainFile Context (VarDecl_getLocation D) = true ->
  isInMainFile Context (DeclRefExpr_getLocation E) = true ->
  let name := VarDecl_getNameAsString D in
  exists kD kE,
    (Visit Context (Node_VarDecl D) V).2
      = recordOccurrence kD (VarDecl_getLocation D) V /\
    (Visit Context (Node_DeclRefExpr E) V).2
      = recordOccurrence kE (DeclRefExpr_getLocation E) V /\
    kD = name /\
    (kE = kD <-> isOperator name = false) /\
    (isOperator name = true <-> name = "operator" +:+ kE /\ kE <> name).
Proof.
  intros Hname HmD HmE name.
  exists name, (if isOperator name then substr 8 name else name).
  rewrite !Visit_classify. simpl. rewrite HmD, HmE. simpl.
  fold name. rewrite <- Hname. fold name.
  split; [reflexivity|]. split; [reflexivity|]. split; [reflexivity|].
  destruct (isOperator name) eqn:Hop.
  - apply isOperator_iff in Hop as [s Hs].
    rewrite Hs, substr_operator.
    assert (Hne : s <> "operator" +:+ s)
      by (intros H; exact (operator_name_longer s (eq_sym H))).
    split; [split; [intros H; contradiction | discriminate]|].
    split; [auto | reflexivity].
  - split; [tauto|]. split; [discriminate|].
    intros [Hs _]. assert (isOperator name = true); [|congruence].
    apply isOperator_iff. eauto.
Qed.

Lemma reference_key_and_declaration_key_witness :
  exists kD kE,
    (Visit (sample_context "int operators = 5; operators++;")
       (Node_VarDecl (mkVarDecl "operators" (FileLoc 1 4)))
       (mkVisitor ∅ ∅ counting_rand)).2
      = recordOccurrence kD (FileLoc 1 4) (mkVisitor ∅ ∅ counting_rand) /\
    (Visit (sample_context "int operators = 5; operators++;")
       (Node_DeclRefExpr (mkDeclRefExpr "operators" (FileLoc 1 19)))
       (mkVisitor ∅ ∅ counting_rand)).2
      = recordOccurrence kE (FileLoc 1 19) (mkVisitor ∅ ∅ counting_rand) /\
    kD = "operators" /\
    (kE = kD <-> isOperator "operators" = false) /\
    (isOperator "operators" = true <->
     "operators" = "operator" +:+ kE /\ kE <> "operators").
Proof.
  apply (reference_key_and_declaration_key (sample_context "int operators = 5; operators++;")
           (mkVarDecl "operators" (FileLoc 1 4))
           (mkDeclRefExpr "operators" (FileLoc 1 19))
           (mkVisitor ∅ ∅ counting_rand)).
  - reflexivity.
  - vm_compute. reflexivity.
  - vm_compute. reflexivity.
Defined.

(** ** The walk as a whole *)

Lemma occurrences_app Context (pre post : list ASTNode) :
  occurrences Context (pre ++ post)
  = (occurrences Context pre ++ occurrences Context post)%list.
Proof. unfold occurrences. apply omap_app. Qed.

Lemma traverse_fold_occurrences Context nodes : forall V,
  foldl (visit_step Context) V nodes
  = foldl (fun V o => recordOccurrence o.1 o.2 V) V (occurrences Context nodes).
Proof.
  induction nodes as [|n nodes IH]; intros V; simpl; [reflexivity|].
  rewrite IH, visit_step_classify. unfold occurrences. simpl.
  now destruct (classify Context n) as [[k loc]|].
Qed.

(** X5: no callback ever stops the walk.  [TraverseDecl] reports
    success, walking a list of nodes is walking its second part from
    where the first part ended, and the visitor it leaves is the one
    obtained by recording the eligible occurrences one after the other,
    nodes that are not eligible leaving no trace. *)
Theorem traversal_visits_every_node (Context : SourceManager)
    (pre post : list ASTNode) (V : Visitor) :
  (TraverseDecl Context (pre ++ post) V).1 = true /\
  TraverseDecl Context (pre ++ post) V
    = TraverseDecl Context post (TraverseDecl Context pre V).2 /\
  (TraverseDecl Context (pre ++ post) V).2
    = foldl (fun V o => recordOccurrence o.1 o.2 V) V
        (occurrences Context pre ++ occurrences Context post).
Proof.
  rewrite !TraverseDecl_foldl. simpl. split; [reflexivity|]. split.
  - now rewrite foldl_app.
  - now rewrite traverse_fold_occurrences, occurrences_app.
Qed.

Lemma locations_of_cons Context n nodes k :
  locations_of Context (n :: nodes) k
  = (match classify Context n with
     | Some (k', loc) => if decide (k' = k) then [loc] else []
     | None => []
     end ++ locations_of Context nodes k)%list.
Proof.
  unfold locations_of, occurrences. simpl.
  destruct (classify Context n) as [[k' loc]|]; [|reflexivity].
  rewrite filter_cons. simpl. now destruct (decide (k' = k)).
Qed.

Lemma traverse_locations Context nodes : forall V k,
  default [] (nameLocations (foldl (visit_step Context) V nodes) !! k)
  = (default [] (nameLocations V !! k) ++ locations_of Context nodes k)%list.
Proof.
  induction nodes as [|n nodes IH]; intros V k; simpl.
  - unfold locations_of, occurrences. simpl. now rewrite app_nil_r.
  - rewrite IH, locations_of_cons, visit_step_classify, app_assoc. f_equal.
    destruct (classify Context n) as [[k' loc]|]; [|now rewrite app_nil_r].
    destruct (decide (k' = k)) as [->|Hne].
    + now rewrite recordOccurrence_locations.
    + rewrite recordOccurrence_locations_ne by exact Hne. now rewrite app_nil_r.
Qed.

Lemma locations_of_nil_iff Context nodes k :
  locations_of Context nodes k = [] <-> k ∉ observed_keys Context nodes.
Proof.
  induction nodes as [|n nodes IH].
  - unfold observed_keys. simpl. rewrite elem_of_empty. split; [tauto | reflexivity].
  - rewrite locations_of_cons, observed_keys_cons.
    destruct (classify Context n) as [[k' loc]|].
    + destruct (decide (k' = k)) as [->|Hne].
      * split; [discriminate | intros H; exfalso; apply H; left; eauto].
      * simpl. rewrite IH. split.
        -- intros Hn [[loc' Heq]|H]; [congruence | contradiction].
        -- intros Hn H. apply Hn. now right.
    + simpl. rewrite IH. split.
      * intros Hn [[loc' Heq]|H]; [discriminate | contradiction].
      * intros Hn H. apply Hn. now right.
Qed.

(** X6: after a walk from the empty visitor, the vector of a key holds
    the locations of the eligible occurrences with that key, each once
    and in the order of the walk; a key has a vector exactly when it
    has an alias, and no vector is empty. *)
Theorem locations_in_walk_order (Context : SourceManager)
    (nodes : list ASTNode) (r : RandState) (k : string) :
  let V := (TraverseDecl Context nodes (mkVisitor ∅ ∅ r)).2 in
  default [] (nameLocations V !! k) = locations_of Context nodes k /\
  (is_Some (nameLocations V !! k) <-> is_Some (aliases V !! k)) /\
  nameLocations V !! k <> Some [].
Proof.
  cbv zeta. rewrite TraverseDecl_foldl. simpl.
  set (V := foldl (visit_step Context) (mkVisitor ∅ ∅ r) nodes).
  assert (Hlocs : default [] (nameLocations V !! k) = locations_of Context nodes k).
  { unfold V. rewrite traverse_locations. simpl. now rewrite lookup_empty. }
  assert (Hdom : forall k', is_Some (nameLocations V !! k') -> is_Some (aliases V !! k')).
  { apply traverse_locations_dom. simpl. intros k' [x Hx].
    rewrite lookup_empty in Hx. discriminate. }
  assert (Hal : is_Some (aliases V !! k) <-> k ∈ observed_keys Context nodes).
  { unfold V. rewrite traverse_aliases_dom. simpl. rewrite lookup_empty.
    split; [intros [[x Hx]|H]; [discriminate | exact H] | now right]. }
  split; [exact Hlocs|]. split; [split; [apply Hdom|]|].
  - intros Hk. apply Hal in Hk.
    destruct (nameLocations V !! k) eqn:Hn; [eauto|].
    simpl in Hlocs. symmetry in Hlocs. apply locations_of_nil_iff in Hlocs.
    contradiction.
  - intros Hn. rewrite Hn in Hlocs. simpl in Hlocs. symmetry in Hlocs.
    apply locations_of_nil_iff in Hlocs. apply Hlocs, Hal, Hdom.
    rewrite Hn. eauto.
Qed.

(** ** Which alias a key gets *)

Lemma generateRandomAlias_seq (r : RandState) :
  rand_seq (generateRandomAlias r).2 = rand_seq r.
Proof. unfold generateRandomAlias, rand. cbv zeta. now rewrite alias_loop_seq. Qed.

Lemma recordOccurrence_seq key loc V :
  rand_seq (randState (recordOccurrence key loc V)) = rand_seq (randState V).
Proof.
  destruct (aliases V !! key) as [a|] eqn:Hk.
  - now rewrite (recordOccurrence_seen _ _ _ _ Hk).
  - rewrite recordOccurrence_fresh by exact Hk. cbn [randState].
    apply generateRandomAlias_seq.
Qed.

Lemma traverse_seq Context nodes : forall V,
  rand_seq (randState (foldl (visit_step Context) V nodes)) = rand_seq (randState V).
Proof.
  induction nodes as [|n nodes IH]; intros V; simpl; [reflexivity|].
  rewrite IH, visit_step_classify.
  destruct (classify Context n) as [[key loc]|]; [|reflexivity].
  apply recordOccurrence_seq.
Qed.

Lemma traverse_rand_state Context nodes r :
  randState (foldl (visit_step Context) (mkVisitor ∅ ∅ r) nodes)
  = rand_after r (8 * size (observed_keys Context nodes)).
Proof.
  pose proof (traverse_seq Context nodes (mkVisitor ∅ ∅ r)) as Hs.
  pose proof (traverse_draws Context nodes (mkVisitor ∅ ∅ r)) as Hp.
  rewrite <- (traverse_dom Context nodes r), size_dom.
  simpl in Hs, Hp. rewrite map_size_empty in Hp. unfold rand_after.
  destruct (randState _) as [seq pos]. simpl in *. subst seq. f_equal. lia.
Qed.

(** X7: the alias of a key is the one generated at the key's first
    occurrence, from the values of [rand()] that follow the eight
    values drawn for each of the distinct keys observed before; it
    depends neither on the key nor on what the walk meets afterwards. *)
Theorem alias_by_first_occurrence (Context : SourceManager)
    (pre post : list ASTNode) (n : ASTNode) (k : string) (loc : SourceLocation)
    (r : RandState) :
  classify Context n = Some (k, loc) ->
  k ∉ observed_keys Context pre ->
  aliases (TraverseDecl Context (pre ++ n :: post) (mkVisitor ∅ ∅ r)).2 !! k
  = Some (generateRandomAlias
            (rand_after r (8 * size (observed_keys Context pre)))).1.
Proof.
  intros Hc Hnew. rewrite TraverseDecl_foldl. simpl.
  rewrite foldl_app. simpl. apply traverse_aliases_old.
  rewrite visit_step_classify, Hc.
  set (V1 := foldl (visit_step Context) (mkVisitor ∅ ∅ r) pre).
  assert (Hk : aliases V1 !! k = None).
  { destruct (aliases V1 !! k) eqn:E; [|reflexivity]. exfalso. apply Hnew.
    rewrite <- (traverse_dom Context pre r). apply elem_of_dom. fold V1. eauto. }
  rewrite recordOccurrence_fresh by exact Hk. cbn [aliases].
  rewrite lookup_insert_eq. unfold V1. now rewrite traverse_rand_state.
Qed.

Lemma alias_by_first_occurrence_witness :
  aliases (TraverseDecl (sample_context "int x = 5;")
             ([Node_VarDecl (mkVarDecl "x" (FileLoc 1 4))]
              ++ Node_IntegerLiteral (mkIntegerLiteral (mkAPInt 32 5) (FileLoc 1 8))
                 :: more_nodes)
             (mkVisitor ∅ ∅ counting_rand)).2 !! "5"
  = Some (generateRandomAlias
            (rand_after counting_rand
               (8 * size (observed_keys (sample_context "int x = 5;")
                            [Node_VarDecl (mkVarDecl "x" (FileLoc 1 4))])))).1.
Proof.
  apply (alias_by_first_occurrence (sample_context "int x = 5;")
           [Node_VarDecl (mkVarDecl "x" (FileLoc 1 4))] more_nodes
           (Node_IntegerLiteral (mkIntegerLiteral (mkAPInt 32 5) (FileLoc 1 8)))
           "5" (FileLoc 1 8) counting_rand).
  - vm_compute. reflexivity.
  - vm_compute. intros H. discriminate H.
Defined.

(** ** One replacement for each eligible occurrence *)

Lemma length_list_bind {A B} (f : A -> list B) (l : list A) :
  length (l ≫= f) = sum_list (length ∘ f <$> l).
Proof.
  induction l as [|x l IH]; [reflexivity|].
  rewrite bind_cons, length_app, IH. csimpl. reflexivity.
Qed.

Lemma sum_list_fmap_add {A} (f g : A -> nat) (l : list A) :
  sum_list ((fun x => f x + g x)%nat <$> l)
  = (sum_list (f <$> l) + sum_list (g <$> l))%nat.
Proof. induction l as [|x l IH]; csimpl; [reflexivity | rewrite IH; lia]. Qed.

Lemma sum_list_indicator (k0 : string) (ks : list string) :
  NoDup ks -> k0 ∈ ks ->
  sum_list ((fun k => if decide (k0 = k) then 1 else 0)%nat <$> ks) = 1%nat.
Proof.
  induction 1 as [|k ks Hnotin Hnd IH]; intros Hin; [inversion Hin|].
  csimpl. destruct (decide (k0 = k)) as [->|Hne].
  - assert (Hz : sum_list ((fun k' => if decide (k = k') then 1 else 0)%nat <$> ks) = 0%nat).
    { clear IH Hin Hnd. induction ks as [|k' ks IH]; [reflexivity|]. csimpl.
      destruct (decide (k = k')) as [->|_].
      - exfalso. apply Hnotin. left.
      - apply IH. intros H. apply Hnotin. now right. }
    rewrite Hz. reflexivity.
  - apply elem_of_cons in Hin as [->|Hin]; [contradiction|]. now rewrite IH.
Qed.

Lemma sum_by_key {X} (os : list (string * X)) (ks : list string) :
  NoDup ks -> (forall o, o ∈ os -> o.1 ∈ ks) ->
  sum_list ((fun k => length (filter (fun o => o.1 = k) os)) <$> ks) = length os.
Proof.
  intros Hnd. induction os as [|o os IH]; intros Hin.
  - clear Hnd Hin. induction ks as [|k ks IHk]; csimpl; [reflexivity | exact IHk].
  - transitivity
      (sum_list ((fun k => (if decide (o.1 = k) then 1 else 0)
                           + length (filter (fun o => o.1 = k) os))%nat <$> ks)).
    + f_equal. apply list_fmap_ext. intros _ k _. rewrite filter_cons.
      now destruct (decide (o.1 = k)).
    + rewrite sum_list_fmap_add, sum_list_indicator, IH; simpl; auto.
      * intros o' Ho'. apply Hin. now right.
      * apply Hin. left.
Qed.

(** X8: [ReplaceReferences] makes exactly one call of [ReplaceText] for
    each eligible occurrence of the walk, none for any other node: the
    calls are as many as the occurrences, and each is made at the
    location of an occurrence, over the length of its key, with the
    alias of its key. *)
Theorem one_call_per_occurrence {U : UnorderedOrder} (Context : SourceManager)
    (nodes : list ASTNode) (r : RandState) :
  let V := (TraverseDecl Context nodes (mkVisitor ∅ ∅ r)).2 in
  length (pendingEdits V) = length (occurrences Context nodes) /\
  (forall R, ReplaceReferences V R = run_calls R (pendingEdits V)) /\
  (forall call,
     call ∈ pendingEdits V <->
     exists k loc a,
       (k, loc) ∈ occurrences Context nodes /\ aliases V !! k = Some a /\
       call = (loc, String.length k, a)).
Proof.
  cbv zeta. rewrite TraverseDecl_foldl. simpl.
  set (V := foldl (visit_step Context) (mkVisitor ∅ ∅ r) nodes).
  assert (Hlocs : forall k, default [] (nameLocations V !! k) = locations_of Context nodes k).
  { intros k. unfold V. rewrite traverse_locations. simpl. now rewrite lookup_empty. }
  assert (Hin : forall k loc, loc ∈ locations_of Context nodes k
                              <-> (k, loc) ∈ occurrences Context nodes).
  { intros k loc. unfold locations_of. rewrite list_elem_of_fmap. split.
    - intros ([k' loc'] & -> & Ho). apply list_elem_of_filter in Ho as [Hk Ho].
      simpl in Hk. now subst k'.
    - intros Ho. exists (k, loc). split; [reflexivity|].
      apply list_elem_of_filter. now split. }
  split; [|split].
  - unfold pendingEdits. rewrite length_list_bind.
    rewrite <- (sum_by_key (occurrences Context nodes) (entries (aliases V)).*1).
    + rewrite <- list_fmap_compose. f_equal. apply list_fmap_ext.
      intros _ [k a] _. simpl. rewrite length_fmap, Hlocs.
      unfold locations_of. now rewrite length_fmap.
    + apply entries_NoDup_keys.
    + intros [k loc] Ho. simpl. apply entries_keys.
      unfold V. apply traverse_aliases_dom. right.
      unfold observed_keys. apply elem_of_list_to_set.
      unfold occurrences in Ho. apply list_elem_of_omap in Ho as (n & Hn & Hc).
      apply list_elem_of_omap. exists n. split; [exact Hn|]. now rewrite Hc.
  - intros R. apply ReplaceReferences_run_calls.
  - intros call. rewrite pendingEdits_elem. split.
    + intros (k & a & loc & Hk & Hloc & ->). rewrite Hlocs in Hloc.
      exists k, loc, a. split; [now apply Hin | auto].
    + intros (k & loc & a & Ho & Hk & ->). exists k, a, loc.
      split; [exact Hk|]. split; [|reflexivity]. rewrite Hlocs. now apply Hin.
Qed.

(** ** The rewritten text: length, frame, order, bounds *)

Lemma replace_text_length (rb rb' : RewriteBuffer) (e : Edit) :
  RewriteBuffer_ReplaceText rb (e_off e) (e_len e) (e_new e) = Some rb' ->
  Z.of_nat (length (Buffer rb')) = Z.of_nat (length (Buffer rb)) + delta e.
Proof.
  unfold RewriteBuffer_ReplaceText. case_bool_decide as Hin; [|discriminate].
  intros [= <-]. simpl Buffer. destruct Hin as [H0 H1].
  rewrite rope_replace by lia.
  rewrite !length_app, length_take, length_drop, list_of_string_length.
  unfold delta. lia.
Qed.

Lemma apply_edits_length (es : list Edit) : forall rb rb',
  apply_edits rb es = Some rb' ->
  Z.of_nat (length (Buffer rb')) = Z.of_nat (length (Buffer rb)) + total_delta es.
Proof.
  induction es as [|e es IH]; intros rb rb' Hrun.
  - injection Hrun as <-. simpl. lia.
  - rewrite apply_edits_cons in Hrun.
    destruct (RewriteBuffer_ReplaceText rb _ _ _) as [rb1|] eqn:H1; [|discriminate].
    rewrite (IH _ _ Hrun), (replace_text_length _ _ _ H1). simpl. lia.
Qed.

(** X9: whenever [ReplaceReferences] goes through, overlapping spans or
    not, the text of every file has grown by the sum, over the calls
    made on that file, of the length of the alias minus the length of
    the key; after a walk from the empty visitor that is 8 minus the
    length of the key for each call. *)
Theorem rewritten_length {U : UnorderedOrder} (Context : SourceManager)
    (nodes : list ASTNode) (r : RandState) (R' : Rewriter) :
  let V := (TraverseDecl Context nodes (mkVisitor ∅ ∅ r)).2 in
  ReplaceReferences V (mkRewriter Context ∅) = Some R' ->
  forall f,
    Z.of_nat (length (Buffer (getEditBuffer R' f)))
    = Z.of_nat (length (getBufferData Context f))
      + total_delta (file_edits f (pendingEdits V)) /\
    Forall (fun e => delta e = 8 - Z.of_nat (e_len e)) (file_edits f (pendingEdits V)).
Proof.
  intros V Hrun f. rewrite ReplaceReferences_run_calls in Hrun.
  destruct (run_calls_project _ _ _ Hrun) as [_ Hf]. specialize (Hf f).
  rewrite getEditBuffer_fresh in Hf. split.
  - now rewrite (apply_edits_length _ _ _ Hf).
  - apply Forall_forall. intros e He.
    apply file_edits_recorded in He as (k & a & Hk & _ & _ & Hnew).
    assert (Hshape : map_Forall (fun _ a => alias_shape a) (aliases V)).
    { unfold V. rewrite TraverseDecl_foldl. simpl.
      apply traverse_shapes. apply map_Forall_empty. }
    unfold delta. rewrite Hnew, (alias_shape_length _ (Hshape k a Hk)). lia.
Qed.

Lemma rewritten_length_witness :
  exists R',
    ReplaceReferences
      (TraverseDecl (sample_context subscript_text) subscript_nodes
         (mkVisitor ∅ ∅ counting_rand)).2
      (mkRewriter (sample_context subscript_text) ∅) = Some R' /\
    forall f,
      Z.of_nat (length (Buffer (getEditBuffer R' f)))
      = Z.of_nat (length (getBufferData (sample_context subscript_text) f))
        + total_delta
            (file_edits f
               (pendingEdits
                  (TraverseDecl (sample_context subscript_text) subscript_nodes
                     (mkVisitor ∅ ∅ counting_rand)).2)) /\
      Forall (fun e => delta e = 8 - Z.of_nat (e_len e))
        (file_edits f
           (pendingEdits
              (TraverseDecl (sample_context subscript_text) subscript_nodes
                 (mkVisitor ∅ ∅ counting_rand)).2)).
Proof.
  assert (H : is_Some (ReplaceReferences
                         (TraverseDecl (sample_context subscript_text) subscript_nodes
                            (mkVisitor ∅ ∅ counting_rand)).2
                         (mkRewriter (sample_context subscript_text) ∅)))
    by (vm_compute; eexists; reflexivity).
  destruct H as [R' HR']. exists R'. split; [exact HR'|].
  exact (rewritten_length (sample_context subscript_text) subscript_nodes
           counting_rand R' HR').
Defined.
(** X10: a file in which no file location is recorded under a key that
    has an alias comes out of [ReplaceReferences] as it went in:
    occurrences recorded in other files, or at locations inside macro
    expansions, change nothing in it. *)
Theorem unrecorded_file_unchanged {U : UnorderedOrder} (SM : SourceManager)
    (V : Visitor) (R' : Rewriter) (f : FileID) :
  ReplaceReferences V (mkRewriter SM ∅) = Some R' ->
  (forall k a o, aliases V !! k = Some a ->
                 FileLoc f o ∉ default [] (nameLocations V !! k)) ->
  Buffer (getEditBuffer R' f) = getBufferData SM f.
Proof.
  intros Hrun Hnone. rewrite ReplaceReferences_run_calls in Hrun.
  destruct (run_calls_project _ _ _ Hrun) as [_ Hf]. specialize (Hf f).
  rewrite getEditBuffer_fresh in Hf.
  assert (Hnil : file_edits f (pendingEdits V) = []).
  { destruct (file_edits f (pendingEdits V)) as [|e es] eqn:Heq; [reflexivity|].
    assert (He : e ∈ file_edits f (pendingEdits V)) by (rewrite Heq; left).
    apply file_edits_recorded in He as (k & a & Hk & Hloc & _).
    exfalso. exact (Hnone k a _ Hk Hloc). }
  rewrite Hnil in Hf. injection Hf as <-. reflexivity.
Qed.

Lemma unrecorded_file_unchanged_witness :
  exists R',
    ReplaceReferences header_visitor (mkRewriter including_context ∅) = Some R' /\
    Buffer (getEditBuffer R' mainFile) = getBufferData including_context mainFile.
Proof.
  assert (H : is_Some (ReplaceReferences header_visitor
                         (mkRewriter including_context ∅)))
    by (vm_compute; eauto).
  destruct H as [R' HR']. exists R'. split; [exact HR'|].
  apply (unrecorded_file_unchanged including_context header_visitor R' mainFile HR').
  intros k a o Hk Hloc.
  destruct (decide (k = "cout")) as [->|Hne].
  - vm_compute in Hloc. apply list_elem_of_singleton in Hloc. discriminate Hloc.
  - assert (Hnone : nameLocations header_visitor !! k = None).
    { unfold header_visitor. rewrite TraverseDecl_foldl. simpl.
      rewrite visit_step_classify.
      replace (classify including_context
                 (Node_DeclRefExpr (mkDeclRefExpr "cout" (FileLoc 2 11))))
        with (Some ("cout", FileLoc 2 11)) by (vm_compute; reflexivity).
      rewrite recordOccurrence_locations_ne by congruence. apply lookup_empty. }
    rewrite Hnone in Hloc. inversion Hloc.
Defined.

(** X11: when the edits of every file can be composed, the rewritten
    text of every file is the same for any two orders in which the
    hash map may be walked, and the two definitions blocks hold the
    same lines, possibly in different order. *)
Theorem output_independent_of_map_order (U1 U2 : UnorderedOrder)
    (SM : SourceManager) (V : Visitor) :
  (forall f, edits_ok (getBufferData SM f) (file_edits f (@pendingEdits U1 V))) ->
  exists R1 R2,
    @ReplaceReferences U1 V (mkRewriter SM ∅) = Some R1 /\
    @ReplaceReferences U2 V (mkRewriter SM ∅) = Some R2 /\
    (forall f, Buffer (getEditBuffer R1 f) = Buffer (getEditBuffer R2 f)) /\
    define_line <$> @entries U1 (aliases V) ≡ₚ define_line <$> @entries U2 (aliases V).
Proof.
  intros Hok.
  assert (Hp : forall f, file_edits f (@pendingEdits U1 V)
                         ≡ₚ file_edits f (@pendingEdits U2 V))
    by (intros f; apply file_edits_perm, pendingEdits_perm).
  destruct (@ReplaceReferences_splice U1 SM V Hok) as (R1 & Hrun1 & _ & Hf1).
  destruct (@ReplaceReferences_splice U2 SM V) as (R2 & Hrun2 & _ & Hf2).
  { intros f. apply (edits_ok_perm _ _ _ (Hp f)), Hok. }
  exists R1, R2. split; [exact Hrun1|]. split; [exact Hrun2|]. split.
  - intros f. destruct (Hf1 f) as (-> & _), (Hf2 f) as (-> & _). f_equal.
    apply sort_edits_perm_eq; [apply Hp | apply Hok].
  - apply fmap_Permutation.
    rewrite (@entries_perm U1), (@entries_perm U2). reflexivity.
Qed.

Lemma output_independent_of_map_order_witness :
  exists R1 R2,
    @ReplaceReferences canonical_order decl_x_5_visitor
      (mkRewriter (sample_context "int x = 5;") ∅) = Some R1 /\
    @ReplaceReferences reversed_order decl_x_5_visitor
      (mkRewriter (sample_context "int x = 5;") ∅) = Some R2 /\
    (forall f, Buffer (getEditBuffer R1 f) = Buffer (getEditBuffer R2 f)) /\
    define_line <$> @entries canonical_order (aliases decl_x_5_visitor)
      ≡ₚ define_line <$> @entries reversed_order (aliases decl_x_5_visitor).
Proof.
  apply (output_independent_of_map_order canonical_order reversed_order
           (sample_context "int x = 5;") decl_x_5_visitor).
  apply edits_ok_by_file. solve_edits_ok.
Defined.

Lemma splice_total_length (S : list Edit) : forall c b,
  sorted_edits c (c + length b) S ->
  Z.of_nat (length (splice c b S)) = Z.of_nat (length b) + total_delta S.
Proof.
  induction S as [|e1 S IH]; intros c b Hs; simpl; [lia|].
  destruct Hs as (Hlo1 & Hhi1 & _ & Hs').
  rewrite !length_app, !Nat2Z.inj_add, length_take, list_of_string_length.
  rewrite (IH (e_off e1 + e_len e1)%nat).
  - rewrite length_drop. unfold delta. lia.
  - rewrite length_drop.
    replace (e_off e1 + e_len e1 + (length b - (e_off e1 - c + e_len e1)))%nat
      with (c + length b)%nat by lia.
    exact Hs'.
Qed.

Lemma shift_all_before (S : list Edit) (o : nat) :
  Forall (fun s => (e_off s < o)%nat) S ->
  shift S (2 * Z.of_nat o + 1) = total_delta S.
Proof.
  induction 1 as [|s S Hs _ IH]; simpl; [reflexivity|].
  rewrite IH. destruct (_ <? _) eqn:Hlt; [reflexivity | apply Z.ltb_ge in Hlt; lia].
Qed.

(** An edit that runs past the end of the text, apart from the sorted
    edits already made, is outside the range the rope accepts. *)
Lemma replace_text_past_end (text : list ascii) (rb : RewriteBuffer) (S : list Edit)
    (e : Edit) :
  sorted_edits 0 (length text) S ->
  Buffer rb = splice 0 text S ->
  (forall i, getDeltaAt (Deltas rb) i = shift S i) ->
  (length text < e_off e + e_len e)%nat ->
  Forall (apart e) S ->
  RewriteBuffer_ReplaceText rb (e_off e) (e_len e) (e_new e) = None.
Proof.
  intros Hs Hbuf Hd Hout Hap.
  pose proof (sorted_edits_bounds _ _ _ Hs) as Hb.
  assert (Hbefore : Forall (fun s => (e_off s < e_off e)%nat) S).
  { apply Forall_forall. intros s Hin. rewrite Forall_forall in Hap, Hb.
    specialize (Hap s Hin). specialize (Hb s Hin). unfold apart in Hap. lia. }
  unfold RewriteBuffer_ReplaceText, getMappedOffset.
  rewrite Hd, Hbuf, (shift_all_before _ _ Hbefore).
  pose proof (splice_total_length S 0 text Hs) as Hlen.
  rewrite bool_decide_eq_false_2; [reflexivity|]. lia.
Qed.

Lemma apply_edits_past_end (text : list ascii) (es : list Edit) : forall S rb,
  sorted_edits 0 (length text) S ->
  Buffer rb = splice 0 text S ->
  (forall i, getDeltaAt (Deltas rb) i = shift S i) ->
  pairwise_apart es ->
  Forall (fun e => Forall (apart e) S) es ->
  Exists (fun e => (length text < e_off e + e_len e)%nat) es ->
  apply_edits rb es = None.
Proof.
  induction es as [|e es IH]; intros S rb Hs Hbuf Hd Hpw Hap Hex;
    [inversion Hex|].
  apply Forall_cons in Hap as [Hap1 Hap]. destruct Hpw as [Hpw1 Hpw].
  rewrite apply_edits_cons.
  destruct (decide (length text < e_off e + e_len e)%nat) as [Hout|Hin].
  - now rewrite (replace_text_past_end text rb S e).
  - destruct (replace_text_sorted text rb S e Hs Hbuf Hd ltac:(lia) Hap1)
      as (rb1 & H1 & Hbuf1 & Hd1 & Hs1).
    rewrite H1. apply (IH (insert_edit e S)); try assumption.
    + apply Forall_forall. intros e' He'. apply Forall_insert_edit. split.
      * apply apart_sym. rewrite Forall_forall in Hpw1. now apply Hpw1.
      * rewrite Forall_forall in Hap. now apply Hap.
    + apply Exists_cons in Hex as [Hex|Hex]; [contradiction | exact Hex].
Qed.

Lemma run_calls_past_end {U : UnorderedOrder} (SM : SourceManager)
    (V : Visitor) (f : FileID) :
  pairwise_apart (file_edits f (pendingEdits V)) ->
  Exists (fun e => (length (getBufferData SM f) < e_off e + e_len e)%nat)
         (file_edits f (pendingEdits V)) ->
  run_calls (mkRewriter SM ∅) (pendingEdits V) = None.
Proof.
  intros Hpw Hex.
  destruct (run_calls (mkRewriter SM ∅) (pendingEdits V)) as [R'|] eqn:Hrun;
    [|reflexivity].
  destruct (run_calls_project _ _ _ Hrun) as [_ Hf]. specialize (Hf f).
  rewrite getEditBuffer_fresh in Hf.
  rewrite (apply_edits_past_end (getBufferData SM f) _ [] (Initialize (getBufferData SM f)))
    in Hf; try assumption; try reflexivity; try exact I; [discriminate|].
  apply Forall_forall. intros. constructor.
Qed.

(** A sequence of calls without a result has a first call without one,
    made on the rewriter the calls before it leave. *)
Lemma run_calls_first_failure calls : forall R,
  run_calls R calls = None ->
  exists calls1 call calls2 R1,
    calls = (calls1 ++ call :: calls2)%list /\
    run_calls R calls1 = Some R1 /\
    Rewriter_ReplaceText R1 call.1.1 call.1.2 call.2 = None.
Proof.
  induction calls as [|c calls IH]; intros R Hrun; [discriminate|].
  rewrite run_calls_cons in Hrun.
  destruct (Rewriter_ReplaceText R c.1.1 c.1.2 c.2) as [res|] eqn:Hc.
  - destruct (IH _ Hrun) as (calls1 & call & calls2 & R1 & -> & Hpre & Hcall).
    exists (c :: calls1), call, calls2, R1. split; [reflexivity|].
    split; [|exact Hcall]. now rewrite run_calls_cons, Hc.
  - exists [], c, calls, R. auto.
Qed.

Lemma ReplaceText_out_of_range (R : Rewriter) (loc : SourceLocation) (len : nat)
    (a : string) :
  Rewriter_ReplaceText R loc len a = None ->
  exists f o,
    loc = FileLoc f o /\
    ~ (0 <= getMappedOffset (getEditBuffer R f) (Z.of_nat o) true /\
       getMappedOffset (getEditBuffer R f) (Z.of_nat o) true + Z.of_nat len
       <= Z.of_nat (length (Buffer (getEditBuffer R f)))).
Proof.
  unfold Rewriter_ReplaceText. destruct loc as [f o|f o]; simpl; [|discriminate].
  unfold RewriteBuffer_ReplaceText. case_bool_decide as Hin; [discriminate|].
  intros _. eauto.
Qed.

(** X12: when the spans recorded in a file are pairwise apart and one
    of them runs past the end of the file's text, the calls of
    [ReplaceReferences] hold, whatever their order, a first call of
    [ReplaceText] whose range does not lie inside the text the calls
    before it have made: the call is outside what [RewriteRope::erase]
    accepts. *)
Theorem span_past_end_out_of_range {U : UnorderedOrder} (SM : SourceManager)
    (V : Visitor) (f : FileID) :
  pairwise_apart (file_edits f (pendingEdits V)) ->
  Exists (fun e => (length (getBufferData SM f) < e_off e + e_len e)%nat)
         (file_edits f (pendingEdits V)) ->
  exists calls1 calls2 R f' o len a,
    pendingEdits V = (calls1 ++ (FileLoc f' o, len, a) :: calls2)%list /\
    run_calls (mkRewriter SM ∅) calls1 = Some R /\
    ~ (0 <= getMappedOffset (getEditBuffer R f') (Z.of_nat o) true /\
       getMappedOffset (getEditBuffer R f') (Z.of_nat o) true + Z.of_nat len
       <= Z.of_nat (length (Buffer (getEditBuffer R f')))).
Proof.
  intros Hpw Hex.
  pose proof (run_calls_past_end SM V f Hpw Hex) as Hrun.
  destruct (run_calls_first_failure _ _ Hrun)
    as (calls1 & [[loc len] a] & calls2 & R & Heq & Hpre & Hcall).
  apply ReplaceText_out_of_range in Hcall as (f' & o & Hloc & Hout).
  simpl in Hloc. subst loc.
  exists calls1, calls2, R, f', o, len, a. auto.
Qed.

Lemma span_past_end_out_of_range_witness :
  exists calls1 calls2 R f' o len a,
    pendingEdits cut_off_visitor
    = (calls1 ++ (FileLoc f' o, len, a) :: calls2)%list /\
    run_calls (mkRewriter (sample_context "g(") ∅) calls1 = Some R /\
    ~ (0 <= getMappedOffset (getEditBuffer R f') (Z.of_nat o) true /\
       getMappedOffset (getEditBuffer R f') (Z.of_nat o) true + Z.of_nat len
       <= Z.of_nat (length (Buffer (getEditBuffer R f')))).
Proof.
  apply (span_past_end_out_of_range (sample_context "g(") cut_off_visitor mainFile).
  - vm_compute. split; [constructor | exact I].
  - vm_compute. apply Exists_cons_hd. lia.
Defined.

(** ** The driver *)

Lemma getBufferData_main (code : list ascii) (inc : gmap FileID (list ascii)) :
  getBufferData (mkSM mainFile (<[mainFile := code]> inc)) mainFile = code.
Proof. unfold getBufferData. simpl. now rewrite lookup_insert_eq. Qed.

(** X13: when the spans recorded in every file lie inside the file and
    are pairwise apart, [main] returns 0 and the output file holds the
    definition lines, one for each entry of [aliases] in the order the
    map is walked, and directly after them the source text with each
    recorded span of the main file replaced by its alias. *)
Theorem main_output_layout {U : UnorderedOrder} (parse : list ascii -> ParsedUnit)
    (code : list ascii) (r : RandState) :
  let P := parse code in
  let SM := mkSM mainFile (<[mainFile := code]> (IncludedFiles P)) in
  let V := (TraverseDecl SM (TUNodes P) (mkVisitor ∅ ∅ r)).2 in
  (forall f, edits_ok (getBufferData SM f) (file_edits f (pendingEdits V))) ->
  main 3 (Some code) false parse r
  = Exit 0 (Some (concat_lines (define_line <$> entries (aliases V))
                  +:+ string_of_list_ascii
                        (splice 0 code
                           (sort_edits (file_edits mainFile (pendingEdits V)))))).
Proof.
  intros P SM V Hok.
  destruct (ReplaceReferences_splice SM V Hok) as (R' & Hrun & HSM & Hf).
  destruct (Hf mainFile) as (Hbuf & _).
  assert (Hmain : getBufferData SM mainFile = code) by apply getBufferData_main.
  rewrite Hmain in Hbuf.
  unfold main, runToolOnCode, HandleTranslationUnit. cbv zeta.
  rewrite bool_decide_eq_false_2 by (intros H; now apply H).
  fold P. fold SM. fold V. rewrite Hrun. simpl.
  unfold EndSourceFileAction. rewrite HSM. simpl MainFileID.
  now rewrite Hbuf, InsertAliases_lines, append_nil_l.
Qed.

Lemma main_output_layout_witness :
  main 3 (Some (list_ascii_of_string "int x = 5;")) false parse_x_5 counting_rand
  = Exit 0 (Some (concat_lines
                    (define_line <$>
                       entries (aliases
                         (TraverseDecl
                            (mkSM mainFile
                               (<[mainFile := list_ascii_of_string "int x = 5;"]>
                                  (IncludedFiles
                                     (parse_x_5 (list_ascii_of_string "int x = 5;")))))
                            (TUNodes (parse_x_5 (list_ascii_of_string "int x = 5;")))
                            (mkVisitor ∅ ∅ counting_rand)).2))
                  +:+ string_of_list_ascii
                        (splice 0 (list_ascii_of_string "int x = 5;")
                           (sort_edits
                              (file_edits mainFile
                                 (pendingEdits
                                    (TraverseDecl
                                       (mkSM mainFile
                                          (<[mainFile := list_ascii_of_string "int x = 5;"]>
                                             (IncludedFiles
                                                (parse_x_5 (list_ascii_of_string "int x = 5;")))))
                                       (TUNodes (parse_x_5 (list_ascii_of_string "int x = 5;")))
                                       (mkVisitor ∅ ∅ counting_rand)).2)))))).
Proof.
  apply (main_output_layout parse_x_5 (list_ascii_of_string "int x = 5;") counting_rand).
  apply edits_ok_by_file. solve_edits_ok.
Defined.

(** X15: when every node of the translation unit is skipped (it lies
    outside the main file, and is no reference to one of the four
    stream names), [main] writes the source text as it is, with no
    definition line before it, for any order of the map. *)
Theorem main_copies_when_nothing_recorded {U : UnorderedOrder}
    (parse : list ascii -> ParsedUnit) (code : list ascii) (r : RandState) :
  Forall (fun n => classify
                     (mkSM mainFile (<[mainFile := code]> (IncludedFiles (parse code))))
                     n = None)
         (TUNodes (parse code)) ->
  main 3 (Some code) false parse r = Exit 0 (Some (string_of_list_ascii code)).
Proof.
  intros Hskip.
  set (SM := mkSM mainFile (<[mainFile := code]> (IncludedFiles (parse code)))) in *.
  assert (Hocc : occurrences SM (TUNodes (parse code)) = []).
  { unfold occurrences. induction Hskip as [|n ns Hn _ IH]; simpl; [reflexivity|].
    now rewrite Hn. }
  assert (HV : (TraverseDecl SM (TUNodes (parse code)) (mkVisitor ∅ ∅ r)).2
               = mkVisitor ∅ ∅ r).
  { rewrite TraverseDecl_foldl. simpl. now rewrite traverse_fold_occurrences, Hocc. }
  assert (Hnil : entries (aliases (mkVisitor ∅ ∅ r)) = []).
  { apply length_zero_iff_nil. simpl. now rewrite entries_length. }
  unfold main, runToolOnCode, HandleTranslationUnit. cbv zeta.
  rewrite bool_decide_eq_false_2 by (intros H; now apply H).
  fold SM. rewrite HV. unfold ReplaceReferences, InsertAliases. rewrite Hnil. simpl.
  unfold EndSourceFileAction. simpl. rewrite getEditBuffer_fresh. simpl.
  unfold SM. now rewrite getBufferData_main, append_nil_l.
Qed.

Lemma main_copies_when_nothing_recorded_witness :
  main 3 (Some (list_ascii_of_string "int main(){}")) false parse_foreign counting_rand
  = Exit 0 (Some (string_of_list_ascii (list_ascii_of_string "int main(){}"))).
Proof.
  apply (main_copies_when_nothing_recorded parse_foreign
           (list_ascii_of_string "int main(){}") counting_rand).
  simpl. constructor; [|constructor]. vm_compute. reflexivity.
Defined.
